(** * solo: key manager, backup helpers and account map

    A shallow embedding of [src/core/key_manager.mjs] and of the helper
    functions of [src/core/helpers.mjs] ([createBackupDir], [makeBackup],
    [backupOldPfxKeys], [backupOldTlsKeys], [backupOldPemKeys],
    [getNodeAccountMap], and [splitFlagInput], [parseNodeIds], [isNumeric],
    [validatePath], [getEnvValue], [parseIpAddressToUint8Array]).

    The JavaScript code runs against three collaborators that are not part of
    the repository: the file system ([fs]), the Web Crypto / X.509 library
    ([crypto.subtle], [@peculiar/x509]) and the Java [keytool] process.  They
    are modelled here as follows.

    - The file system is a finite map from path strings to nodes, threaded
      through a state-and-exception monad [M]; an exception keeps the state
      reached so far, as a JavaScript [throw] does.  [fs.mkdirSync] is the
      recursive one that the code calls: it makes the missing directories
      above its path too.
    - [path.join] is the POSIX function of Node: it joins the segments that
      are not empty and normalises the result, so that [.], [..] and
      repeated separators in a segment take effect.  Two file names give two
      files only when they are names without a separator; the properties
      say so where they need it.
    - Text and binary data are ropes of chunks: a PEM block keeps its label
      and its DER payload as structured data (the PEM text codec and the
      ASN.1 codec of the library are taken as exact inverses), everything else
      is a raw string.
    - Signing and verification are the two operations of a [CryptoProvider];
      nothing is assumed about them.  [crypto.subtle.importKey] and
      [exportKey] check usages, format and extractability in the order of
      Node and throw its [DOMException]s; an imported key reports the
      parameters of the key itself.
    - A certificate holds its dates in whole seconds.  Distinguished names
      are kept as the strings that the code passes to the library: how the
      library spells or refuses a name is left open, and the properties of
      the certificates of a caller's name are stated for the calls that
      return.
    - [keytool] is a record of pure functions on keystore contents; the model
      wires each invocation to the files named by its [-keystore], [-file],
      [-infile] and [-outfile] options.

    [async]/[await] and [Promise] are sequential here: every [await] in the
    source waits for the call it wraps.  Calls to the logger are diagnostics
    and are left out. *)

From Stdlib Require Import String Ascii NArith Lia.
From stdpp Require Import base option strings list gmap pretty.

(* ================================================================== *)
(** * JavaScript values used by the code *)

(** A JavaScript argument that may be missing: [None] is [undefined]. *)
Definition js_str (v : option string) : string :=
  match v with
  | Some s => s
  | None => "undefined"
  end.

(** [!s] for a string [s]: only the empty string is falsy. *)
Definition falsy (s : string) : bool := bool_decide (s = "").

Fixpoint string_repeat (n : nat) (fill : string) : string :=
  match n with
  | O => ""
  | S n' => fill +:+ string_repeat n' fill
  end.

(** [s.padStart(targetLength, fill)] for a one-character [fill]. *)
Definition padStart (targetLength : nat) (fill : string) (s : string) : string :=
  string_repeat (targetLength - String.length s) fill +:+ s.

(** The line feed of ['\n']. *)
Definition LF : string := String (ascii_of_nat 10) "".

(** An [Error] object: the name of its class, its message and its cause. *)
Inductive JsError : Type :=
  | MkError (name : string) (message : string)
  | MkErrorFrom (name : string) (message : string) (cause : JsError).

Definition err_name (e : JsError) : string :=
  match e with MkError n _ | MkErrorFrom n _ _ => n end.
Definition err_message (e : JsError) : string :=
  match e with MkError _ m | MkErrorFrom _ m _ => m end.
Definition err_cause (e : JsError) : option JsError :=
  match e with MkError _ _ => None | MkErrorFrom _ _ c => Some c end.

Definition MissingArgumentError (message : string) : JsError :=
  MkError "MissingArgumentError" message.
(** [new FullstackTestingError(message)] and
    [new FullstackTestingError(message, cause)]. *)
Definition FullstackTestingError (message : string) : JsError :=
  MkError "FullstackTestingError" message.
Definition FullstackTestingErrorFrom (message : string) (cause : JsError) : JsError :=
  MkErrorFrom "FullstackTestingError" message cause.
(** Errors raised by the runtime and its libraries ([fs], [crypto], [x509]). *)
Definition SystemError (code : string) (path : string) : JsError :=
  MkError "Error" (code +:+ ": " +:+ path).
Definition TypeError (message : string) : JsError :=
  MkError "TypeError" message.
(** A [DOMException] of the runtime: its name and its message. *)
Definition DOMException (name message : string) : JsError :=
  MkError name message.

(** ** [Map]: insertion-ordered, [set] on a present key keeps its position *)
Module JsMap.
Section ops.
Context {V : Type}.

Fixpoint set (k : string) (v : V) (m : list (string * V)) : list (string * V) :=
  match m with
  | [] => [(k, v)]
  | (k', v') :: m' =>
      if decide (k' = k) then (k', v) :: m' else (k', v') :: set k v m'
  end.

Fixpoint get (k : string) (m : list (string * V)) : option V :=
  match m with
  | [] => None
  | (k', v') :: m' => if decide (k' = k) then Some v' else get k m'
  end.
End ops.
End JsMap.

(** ** [Date]: broken-down local time, as read by the getters *)
Record Date : Type := mkDate {
  getFullYear : nat;
  getMonth : nat;      (* 0 .. 11 *)
  getDate : nat;       (* 1 .. 31 *)
  getHours : nat;
  getMinutes : nat;
  getSeconds : nat;
  getMilliseconds : nat
}.

Definition is_leap_year (y : nat) : bool :=
  ((y mod 4 =? 0) && negb (y mod 100 =? 0)) || (y mod 400 =? 0).

(** [d.setFullYear(y)]: the other fields are kept; 29 February of a year
    without one rolls over to 1 March. *)
Definition setFullYear (d : Date) (y : nat) : Date :=
  if (getMonth d =? 1) && (getDate d =? 29) && negb (is_leap_year y)
  then mkDate y 2 1 (getHours d) (getMinutes d) (getSeconds d) (getMilliseconds d)
  else mkDate y (getMonth d) (getDate d) (getHours d) (getMinutes d)
         (getSeconds d) (getMilliseconds d).

(** The time that a certificate holds: its encoding has whole seconds. *)
Definition whole_seconds (d : Date) : Date :=
  mkDate (getFullYear d) (getMonth d) (getDate d) (getHours d) (getMinutes d)
    (getSeconds d) 0.

(* ================================================================== *)
(** * Keys, certificates and PEM data *)

Inductive KeyFamily : Type :=
  | RSA (modulusLength : N) (publicExponent : list N)
  | EC (namedCurve : string).

(** The key material of a pair; both halves carry the same [km_id]. *)
Record KeyMaterial : Type := mkMaterial {
  km_id : nat;
  km_family : KeyFamily
}.

(** The algorithm dictionaries of [KeyManager]. *)
Inductive Algorithm : Type :=
  | RsaHashedKeyGenParams (name hash : string) (publicExponent : list N)
      (modulusLength : N)
  | EcKeyGenParams (name namedCurve hash : string).

Inductive KeyType : Type := private | public.
Inductive KeyUsage : Type := usage_sign | usage_verify.

#[global] Instance KeyUsage_eq_dec : EqDecision KeyUsage.
Proof. solve_decision. Defined.

Record CryptoKey : Type := mkKey {
  key_type : KeyType;
  key_material : KeyMaterial;
  key_algorithm : Algorithm;
  key_extractable : bool;
  key_usages : list KeyUsage
}.

Record CryptoKeyPair : Type := mkKeyPair {
  pair_privateKey : CryptoKey;
  pair_publicKey : CryptoKey
}.

Module KeyUsageFlags.
Definition digitalSignature : N := 1.
Definition nonRepudiation : N := 2.
Definition keyEncipherment : N := 4.
Definition dataEncipherment : N := 8.
Definition keyAgreement : N := 16.
Definition keyCertSign : N := 32.
Definition cRLSign : N := 64.
End KeyUsageFlags.

Module ExtendedKeyUsage.
Definition serverAuth : string := "1.3.6.1.5.5.7.3.1".
Definition clientAuth : string := "1.3.6.1.5.5.7.3.2".
End ExtendedKeyUsage.

Inductive Extension : Type :=
  | BasicConstraintsExtension (ca : bool) (pathLength : nat) (critical : bool)
  | ExtendedKeyUsageExtension (usages : list string) (critical : bool)
  | KeyUsagesExtension (usages : N) (critical : bool)
  | SubjectKeyIdentifierExtension (keyId : nat) (critical : bool)
  | AuthorityKeyIdentifierExtension (keyId : nat) (critical : bool).

(** The signed part of a certificate. *)
Record TbsCertificate : Type := mkTbs {
  tbs_serialNumber : string;
  tbs_subject : string;
  tbs_issuer : string;
  tbs_notBefore : Date;
  tbs_notAfter : Date;
  tbs_publicKey : KeyMaterial;
  tbs_extensions : list Extension
}.

Record X509Certificate : Type := mkCert {
  cert_tbs : TbsCertificate;
  cert_signature : string
}.

Definition serialNumber (c : X509Certificate) : string := tbs_serialNumber (cert_tbs c).
Definition subject (c : X509Certificate) : string := tbs_subject (cert_tbs c).
Definition issuer (c : X509Certificate) : string := tbs_issuer (cert_tbs c).
Definition publicKey (c : X509Certificate) : KeyMaterial := tbs_publicKey (cert_tbs c).
Definition extensions (c : X509Certificate) : list Extension := tbs_extensions (cert_tbs c).

(** DER payloads: a PKCS#8 private key, a certificate, or other bytes. *)
Inductive Der : Type :=
  | DerPkcs8 (material : KeyMaterial)
  | DerCertificate (c : X509Certificate)
  | DerOther (raw : string).

(** Text and file contents. *)
Inductive Chunk : Type :=
  | PemChunk (label : string) (body : Der)
  | RawChunk (s : string).

Definition Text : Type := list Chunk.

#[global] Instance Date_eq_dec : EqDecision Date.
Proof. solve_decision. Defined.
#[global] Instance KeyFamily_eq_dec : EqDecision KeyFamily.
Proof. solve_decision. Defined.
#[global] Instance KeyMaterial_eq_dec : EqDecision KeyMaterial.
Proof. solve_decision. Defined.
#[global] Instance Extension_eq_dec : EqDecision Extension.
Proof. solve_decision. Defined.
#[global] Instance TbsCertificate_eq_dec : EqDecision TbsCertificate.
Proof. solve_decision. Defined.
#[global] Instance X509Certificate_eq_dec : EqDecision X509Certificate.
Proof. solve_decision. Defined.

(** The object returned by the generators and by [loadNodeKey]; a property
    of a JavaScript object may be missing. *)
Record NodeKey : Type := mkNodeKey {
  privateKey : option CryptoKey;
  certificate : option X509Certificate;
  certificateChain : option (list X509Certificate)
}.

Record NodeKeyFiles : Type := mkNodeKeyFiles {
  privateKeyFile : string;
  certificateFile : string
}.

(** The crypto provider set by [x509.cryptoProvider.set(crypto)]: signing a
    to-be-signed certificate with a private key, and verifying a signature
    with a public key. *)
Class CryptoProvider : Type := {
  subtle_sign : KeyMaterial → TbsCertificate → string;
  subtle_verify : KeyMaterial → TbsCertificate → string → bool
}.

(** [constants.mjs] is not among the sources; the account start and the
    validity are left open. *)
Record AccountId : Type := mkAccountId {
  realm : N;
  shard : N;
  num : N
}.

Class Constants : Type := {
  HEDERA_NODE_ACCOUNT_ID_START : AccountId;
  CERTIFICATE_VALIDITY_YEARS : nat
}.

(** The key prefixes and the name of the public store, as the key file
    listings of the documentation ([s-private-node0.pem],
    [a-private-node0.pem], [public.pfx]) and the comments of
    [generatePrivatePfxKeys] have them. *)
Definition SIGNING_KEY_PREFIX : string := "s".
Definition AGREEMENT_KEY_PREFIX : string := "a".
Definition ENCRYPTION_KEY_PREFIX : string := "e".
Definition PUBLIC_PFX : string := "public.pfx".

(* ================================================================== *)
(** * JavaScript strings

    A string is the sequence of its code units.  The functions of this
    section are those of [String.prototype] that the code calls, for strings
    whose code units are all below 256. *)

Module JsString.
Definition is_digit (c : ascii) : bool :=
  (48 <=? N_of_ascii c)%N && (N_of_ascii c <=? 57)%N.

(** White space and line terminators: tab, line feed, vertical tab, form
    feed, carriage return, space and no-break space; the other ones have
    code units from 256 on. *)
Definition is_white_space (c : ascii) : bool :=
  match N_of_ascii c with
  | 9 | 10 | 11 | 12 | 13 | 32 | 160 => true
  | _ => false
  end%N.

(** [s.trimStart()], [s.trimEnd()] and [s.trim()] *)
Fixpoint trimStart (s : string) : string :=
  match s with
  | "" => ""
  | String c s' => if is_white_space c then trimStart s' else s
  end.

Fixpoint trimEnd (s : string) : string :=
  match s with
  | "" => ""
  | String c s' =>
      let t := trimEnd s' in
      if is_white_space c && bool_decide (t = "") then "" else String c t
  end.

Definition trim (s : string) : string := trimEnd (trimStart s).

(** [s.startsWith(searchString)] *)
Definition startsWith (s searchString : string) : bool := String.prefix searchString s.

(** [s.indexOf(searchString)]: the first position, or [-1]. *)
Definition indexOf (s searchString : string) : Z :=
  match String.index 0 searchString s with
  | Some position => Z.of_nat position
  | None => (-1)%Z
  end.

(** [s.split(separator)] for a separator that is a string.  [split_go]
    walks the string: [cur] is the piece before the position, and [skip]
    counts the code units of a separator found that are still to pass.  A
    separator is looked for only after the end of the one before, and the
    empty separator splits into code units. *)
Fixpoint split_go (separator : string) (skip : nat) (cur : string) (s : string)
    : list string :=
  match s with
  | "" => [cur]
  | String c s' =>
      match skip with
      | S skip' => split_go separator skip' cur s'
      | O =>
          if String.prefix separator s
          then cur :: split_go separator (String.length separator - 1) "" s'
          else split_go separator 0 (cur +:+ String c "") s'
      end
  end.

Definition split (s separator : string) : list string :=
  match separator with
  | "" => (λ c, String c "") <$> list_ascii_of_string s
  | _ => split_go separator 0 "" s
  end.

(** [array.join(separator)] for an array of strings *)
Definition join (array : list string) (separator : string) : string :=
  String.concat separator array.
End JsString.

(* ================================================================== *)
(** * [path]

    The POSIX flavour of Node's [path] module.  [path.join] joins the
    arguments that are not empty with the separator and normalises the
    result: empty segments and [.] segments are dropped, a [..] segment takes
    back the segment before it (in a relative path that has none left it
    stays), and a separator at the end is kept. *)
Module path.
(** The loop of [normalizeString] at the end of a segment; [res] holds the
    segments kept so far, the last one first. *)
Definition push_segment (allowAboveRoot : bool) (res : list string)
    (segment : string) : list string :=
  if bool_decide (segment = "") || bool_decide (segment = ".") then res
  else if bool_decide (segment = "..") then
    match res with
    | last_segment :: res' =>
        if bool_decide (last_segment = "..")
        then (if allowAboveRoot then ".." :: res else res)
        else res'
    | [] => if allowAboveRoot then [".."] else []
    end
  else segment :: res.

Definition normalizeString (path : string) (allowAboveRoot : bool) : string :=
  JsString.join
    (rev (fold_left (push_segment allowAboveRoot) (JsString.split path "/") [])) "/".

Definition isAbsolute (path : string) : bool :=
  match path with
  | String "/"%char _ => true
  | _ => false
  end.

Fixpoint trailingSeparator (path : string) : bool :=
  match path with
  | "" => false
  | String c "" => bool_decide (c = "/"%char)
  | String _ rest => trailingSeparator rest
  end.

(** [path.normalize(path)] *)
Definition normalize (path : string) : string :=
  if bool_decide (path = "") then "." else
  let normal := normalizeString path (negb (isAbsolute path)) in
  if bool_decide (normal = "") then
    if isAbsolute path then "/" else if trailingSeparator path then "./" else "."
  else
    (if isAbsolute path then "/" else "") +:+ normal +:+
    (if trailingSeparator path then "/" else "").

(** [path.join(...segments)] *)
Definition join (segments : list string) : string :=
  let joined := JsString.join (filter (λ arg, arg ≠ "") segments) "/" in
  if bool_decide (joined = "") then "." else normalize joined.
End path.

#[global] Arguments path.join : simpl never.
#[global] Arguments path.normalize : simpl never.

(* ================================================================== *)
(** * The world: file system, trace of effects, entropy and clock *)

Inductive Node : Type :=
  | File (data : Text)
  | Directory.

(** The effects a call leaves behind, oldest first. *)
Inductive Event : Type :=
  | EvWriteFile (file : string)
  | EvRm (file : string)
  | EvMkdir (dir : string)
  | EvKeytool (command : string) (alias : string) (keystore : string).

Record World : Type := mkWorld {
  w_fs : gmap string Node;
  w_trace : list Event;
  w_seed : nat;
  w_now : Date
}.

Definition with_fs (w : World) (fs : gmap string Node) (ev : Event) : World :=
  mkWorld fs (w_trace w ++ [ev]) (w_seed w) (w_now w).

Definition log_event (w : World) (ev : Event) : World :=
  mkWorld (w_fs w) (w_trace w ++ [ev]) (w_seed w) (w_now w).

(** ** The monad of the embedding: state, and exceptions that keep it *)

Definition Result (A : Type) : Type := (JsError + A)%type.
Definition M (A : Type) : Type := World → World * Result A.

Definition ret {A : Type} (a : A) : M A := λ w, (w, inr a).
Definition throw {A : Type} (e : JsError) : M A := λ w, (w, inl e).
Definition bind {A B : Type} (m : M A) (k : A → M B) : M B :=
  λ w, match m w with
       | (w', inr a) => k a w'
       | (w', inl e) => (w', inl e)
       end.
(** [try { m } catch (e) { handler e }] *)
Definition try_catch {A : Type} (m : M A) (handler : JsError → M A) : M A :=
  λ w, match m w with
       | (w', inr a) => (w', inr a)
       | (w', inl e) => handler e w'
       end.

Notation "'let*' x ':=' m 'in' k" := (bind m (λ x, k))
  (at level 10, x name, m at level 100, k at level 200, only parsing).
Notation "m '>>' k" := (bind m (λ _, k))
  (at level 100, k at level 200, right associativity, only parsing).

(** A computation that does not touch the world. *)
Definition lift_result {A : Type} (r : Result A) : M A := λ w, (w, r).

(** [l.forEach(f)] and [for (const x of l) f(x)] *)
Fixpoint for_each {A : Type} (l : list A) (f : A → M unit) : M unit :=
  match l with
  | [] => ret tt
  | x :: l' => f x >> for_each l' f
  end.

(** [l.forEach(x => out.push(f(x)))] *)
Fixpoint map_each {A B : Type} (l : list A) (f : A → M B) : M (list B) :=
  match l with
  | [] => ret []
  | x :: l' =>
      let* y := f x in
      let* ys := map_each l' f in
      ret (y :: ys)
  end.

(** [new Date()] *)
Definition new_Date : M Date := λ w, (w, inr (w_now w)).

(** ** [fs]

    A path is the name of its node: two strings that the operating system
    would resolve to one file are two names here, so the model is about
    paths in one spelling, as [path.join] returns them.  Reading, writing,
    copying and removing look at the node at the path itself: the existence
    of its parent directories and permissions are not modelled.
    [mkdirSync] makes the parent directories, as its [recursive] option
    says. *)
Module fs.
Definition existsSync (p : string) : M bool :=
  λ w, (w, inr (bool_decide (is_Some (w_fs w !! p)))).

Inductive Flag : Type := flag_w | flag_a.

(** [fs.writeFileSync(p, data)] and [fs.writeFileSync(p, data, { flag: 'a' })] *)
Definition writeFileSync (p : string) (data : Text) (flag : Flag) : M unit :=
  λ w, match w_fs w !! p with
       | Some Directory => (w, inl (SystemError "EISDIR" p))
       | Some (File old) =>
           let new := match flag with flag_w => data | flag_a => old ++ data end in
           (with_fs w (<[p := File new]> (w_fs w)) (EvWriteFile p), inr tt)
       | None =>
           (with_fs w (<[p := File data]> (w_fs w)) (EvWriteFile p), inr tt)
       end.

Definition readFileSync (p : string) : M Text :=
  λ w, match w_fs w !! p with
       | Some (File data) => (w, inr data)
       | Some Directory => (w, inl (SystemError "EISDIR" p))
       | None => (w, inl (SystemError "ENOENT" p))
       end.

(** [fs.rmSync(p)], without [recursive] and without [force] *)
Definition rmSync (p : string) : M unit :=
  λ w, match w_fs w !! p with
       | Some (File _) => (with_fs w (delete p (w_fs w)) (EvRm p), inr tt)
       | Some Directory => (w, inl (SystemError "ERR_FS_EISDIR" p))
       | None => (w, inl (SystemError "ENOENT" p))
       end.

(** [fs.cpSync(src, dest)], without [recursive]; an existing [dest] file is
    overwritten. *)
Definition cpSync (src dest : string) : M unit :=
  λ w, match w_fs w !! src with
       | Some (File data) =>
           if decide (src = dest) then (w, inl (SystemError "ERR_FS_CP_EINVAL" src))
           else match w_fs w !! dest with
                | Some Directory => (w, inl (SystemError "ERR_FS_CP_NON_DIR_TO_DIR" dest))
                | _ => (with_fs w (<[dest := File data]> (w_fs w)) (EvWriteFile dest), inr tt)
                end
       | Some Directory => (w, inl (SystemError "ERR_FS_EISDIR" src))
       | None => (w, inl (SystemError "ENOENT" src))
       end.

(** The directories above [p], the outermost first: the parts of [p] that
    end before a separator, but for the root and for those that end in an
    empty, a [.] or a [..] segment, which exist without being made. *)
Fixpoint parents_go (cur : string) (name : string) (p : string) : list string :=
  match p with
  | "" => []
  | String c p' =>
      if bool_decide (c = "/"%char)
      then
        (if bool_decide (name = "") || bool_decide (name = ".") ||
            bool_decide (name = "..")
         then [] else [cur]) ++
        parents_go (cur +:+ "/") "" p'
      else parents_go (cur +:+ String c "") (name +:+ String c "") p'
  end.

Definition parents (p : string) : list string := parents_go "" "" p.

(** The directories of the list that are missing are made, in order; a
    file in the way stops the work and is reported. *)
Fixpoint make_directories (dirs : list string) (files : gmap string Node)
    : gmap string Node * option string :=
  match dirs with
  | [] => (files, None)
  | dir :: rest =>
      match files !! dir with
      | Some (File _) => (files, Some dir)
      | Some Directory => make_directories rest files
      | None => make_directories rest (<[dir := Directory]> files)
      end
  end.

(** [fs.mkdirSync(p, { recursive: true })]: nothing happens when [p] is a
    directory; otherwise the missing directories on the way to [p] and [p]
    itself are made.  The directories made before a file was found in the
    way stay. *)
Definition mkdirSync (p : string) : M unit :=
  λ w, match w_fs w !! p with
       | Some (File _) => (w, inl (SystemError "EEXIST" p))
       | Some Directory => (w, inr tt)
       | None =>
           match make_directories (parents p ++ [p]) (w_fs w) with
           | (files, None) => (with_fs w files (EvMkdir p), inr tt)
           | (files, Some file) =>
               (with_fs w files (EvMkdir p), inl (SystemError "ENOTDIR" file))
           end
       end.
End fs.

(** ** [Templates]

    Modelled from the spec: [src/core/templates.mjs] is not among the
    sources.  The file names are those of the key file layout of the
    specification: [{prefix}-private-{nodeId}.pem],
    [{prefix}-public-{nodeId}.pem], [hedera-{nodeId}.key] and
    [hedera-{nodeId}.crt].  The gossip templates take the prefix first and
    the node ID second, as [prepareNodeKeyFilePaths] calls them; an argument
    that a caller leaves out is [undefined]. *)
Module Templates.
Definition renderGossipPemPrivateKeyFile (prefix nodeId : option string) : string :=
  js_str prefix +:+ "-private-" +:+ js_str nodeId +:+ ".pem".
Definition renderGossipPemPublicKeyFile (prefix nodeId : option string) : string :=
  js_str prefix +:+ "-public-" +:+ js_str nodeId +:+ ".pem".
Definition renderTLSPemPrivateKeyFile (nodeId : option string) : string :=
  "hedera-" +:+ js_str nodeId +:+ ".key".
Definition renderTLSPemPublicKeyFile (nodeId : option string) : string :=
  "hedera-" +:+ js_str nodeId +:+ ".crt".
End Templates.

(** [Templates.renderNodeFriendlyName] is described nowhere; it is left open. *)
Class FriendlyName : Type := {
  renderNodeFriendlyName : string → string → string
}.

(* ================================================================== *)
(** * [helpers.mjs] *)

(** [createBackupDir(destDir, prefix = 'backup', curDate = new Date())] *)
Definition createBackupDir (destDir : string) (prefix : option string)
    (curDate : option Date) : M string :=
  let prefix := default "backup" prefix in
  let* curDate := match curDate with Some d => ret d | None => new_Date end in
  let dateDir :=
    pretty (getFullYear curDate) +:+
    padStart 2 "0" (pretty (getMonth curDate)) +:+
    padStart 2 "0" (pretty (getDate curDate)) +:+ "_" +:+
    padStart 2 "0" (pretty (getHours curDate)) +:+
    padStart 2 "0" (pretty (getMinutes curDate)) +:+
    padStart 2 "0" (pretty (getSeconds curDate)) in
  let backupDir := path.join [destDir; prefix; dateDir] in
  let* present := fs.existsSync backupDir in
  (if negb present then fs.mkdirSync backupDir else ret tt) >>
  ret backupDir.

(** [makeBackup(fileMap = new Map(), removeOld = true)] *)
Definition makeBackup (fileMap : list (string * string)) (removeOld : bool) : M unit :=
  for_each fileMap (λ entry,
    let srcPath := entry.1 in
    let destPath := entry.2 in
    let* present := fs.existsSync srcPath in
    if present then
      fs.cpSync srcPath destPath >>
      (if removeOld then fs.rmSync srcPath else ret tt)
    else ret tt).

(** The [for (const nodeId of nodeIds) { ...; fileMap.set(srcPath, destPath) }]
    loop shared by the three backup functions. *)
Definition backup_fileMap (keysDir backupDir : string) (fileName : string → string)
    (nodeIds : list string) : list (string * string) :=
  fold_left (λ fileMap nodeId,
    let srcPath := path.join [keysDir; fileName nodeId] in
    let destPath := path.join [backupDir; fileName nodeId] in
    JsMap.set srcPath destPath fileMap) nodeIds [].

(** [backupOldPfxKeys(nodeIds, keysDir, curDate = new Date(), dirPrefix = 'gossip-pfx')] *)
Definition backupOldPfxKeys (nodeIds : list string) (keysDir : string)
    (curDate : option Date) (dirPrefix : option string) : M string :=
  let dirPrefix := default "gossip-pfx" dirPrefix in
  let* curDate := match curDate with Some d => ret d | None => new_Date end in
  let* backupDir := createBackupDir keysDir (Some ("unused-" +:+ dirPrefix)) (Some curDate) in
  let fileMap :=
    backup_fileMap keysDir backupDir (λ nodeId, "private-" +:+ nodeId +:+ ".pfx") nodeIds in
  let srcPath := path.join [keysDir; "public.pfx"] in
  let destPath := path.join [backupDir; "public.pfx"] in
  let fileMap := JsMap.set srcPath destPath fileMap in
  makeBackup fileMap true >>
  ret backupDir.

(** [backupOldTlsKeys(nodeIds, keysDir, curDate = new Date(), dirPrefix = 'tls')] *)
Definition backupOldTlsKeys (nodeIds : list string) (keysDir : string)
    (curDate : option Date) (dirPrefix : option string) : M string :=
  let dirPrefix := default "tls" dirPrefix in
  let* curDate := match curDate with Some d => ret d | None => new_Date end in
  let* backupDir := createBackupDir keysDir (Some ("unused-" +:+ dirPrefix)) (Some curDate) in
  let fileMap :=
    backup_fileMap keysDir backupDir
      (λ nodeId, Templates.renderTLSPemPrivateKeyFile (Some nodeId)) nodeIds in
  makeBackup fileMap true >>
  ret backupDir.

(** [backupOldPemKeys(nodeIds, keysDir, curDate = new Date(), dirPrefix = 'gossip-pem')].
    The source calls [Templates.renderGossipPemPrivateKeyFile(nodeId)] with
    the node ID alone: it lands in the first parameter, and the second one
    is [undefined]. *)
Definition backupOldPemKeys (nodeIds : list string) (keysDir : string)
    (curDate : option Date) (dirPrefix : option string) : M string :=
  let dirPrefix := default "gossip-pem" dirPrefix in
  let* curDate := match curDate with Some d => ret d | None => new_Date end in
  let* backupDir := createBackupDir keysDir (Some ("unused-" +:+ dirPrefix)) (Some curDate) in
  let fileMap :=
    backup_fileMap keysDir backupDir
      (λ nodeId, Templates.renderGossipPemPrivateKeyFile (Some nodeId) None) nodeIds in
  makeBackup fileMap true >>
  ret backupDir.

(** [getNodeAccountMap(nodeIDs)]: [accountId] is the counter of the loop;
    the account numbers are natural numbers of any size here. *)
Definition getNodeAccountMap `{Constants} (nodeIDs : list string) : list (string * string) :=
  let realm := realm HEDERA_NODE_ACCOUNT_ID_START in
  let shard := shard HEDERA_NODE_ACCOUNT_ID_START in
  let accountId := num HEDERA_NODE_ACCOUNT_ID_START in
  fst (fold_left (λ '(accountMap, accountId) nodeID,
         let nodeAccount :=
           pretty realm +:+ "." +:+ pretty shard +:+ "." +:+ pretty accountId in
         (JsMap.set nodeID nodeAccount accountMap, N.succ accountId))
       nodeIDs ([], accountId)).

(* ================================================================== *)
(** * [crypto.subtle] and [@peculiar/x509] *)

Module subtle.
Definition family_of (algorithm : Algorithm) : KeyFamily :=
  match algorithm with
  | RsaHashedKeyGenParams _ _ publicExponent modulusLength =>
      RSA modulusLength publicExponent
  | EcKeyGenParams _ namedCurve _ => EC namedCurve
  end.

Definition is_usage (u : KeyUsage) (v : KeyUsage) : bool :=
  match u, v with
  | usage_sign, usage_sign | usage_verify, usage_verify => true
  | _, _ => false
  end.

(** [crypto.subtle.generateKey(algorithm, extractable, keyUsages)]: fresh
    key material; the private half takes the [sign] usage and the
    [extractable] flag, the public half the [verify] usage. *)
Definition generateKey (algorithm : Algorithm) (extractable : bool)
    (keyUsages : list KeyUsage) : M CryptoKeyPair :=
  λ w,
    let material := mkMaterial (w_seed w) (family_of algorithm) in
    (mkWorld (w_fs w) (w_trace w) (S (w_seed w)) (w_now w),
     inr {| pair_privateKey :=
              mkKey private material algorithm extractable
                (filter (λ u, is_usage usage_sign u = true) keyUsages);
            pair_publicKey :=
              mkKey public material algorithm true
                (filter (λ u, is_usage usage_verify u = true) keyUsages) |}).

Definition algorithm_name (algorithm : Algorithm) : string :=
  match algorithm with
  | RsaHashedKeyGenParams name _ _ _ | EcKeyGenParams name _ _ => name
  end.

(** [crypto.subtle.exportKey('pkcs8', key)].  A key that is not extractable
    is refused first, with the [DOMException] that Node names
    [InvalidAccessException]; a public key has no PKCS#8 form, which is an
    [InvalidAccessError]. *)
Definition exportKey_pkcs8 (key : CryptoKey) : M Der :=
  if negb (key_extractable key)
  then throw (DOMException "InvalidAccessException" "key is not extractable")
  else
    match key_type key with
    | private => ret (DerPkcs8 (key_material key))
    | public =>
        throw (DOMException "InvalidAccessError"
                 ("Unable to export a pkcs8 " +:+ algorithm_name (key_algorithm key) +:+
                  " public key"))
    end.

Definition matches_family (algorithm : Algorithm) (family : KeyFamily) : bool :=
  match algorithm, family with
  | RsaHashedKeyGenParams _ _ _ _, RSA _ _ => true
  | EcKeyGenParams _ namedCurve _, EC curve => bool_decide (namedCurve = curve)
  | _, _ => false
  end.

(** The algorithm of an imported key: the name and the hash are those of
    the requested dictionary, the modulus length and the public exponent are
    those of the key itself; the curve has to be the curve of the key. *)
Definition imported_algorithm (algorithm : Algorithm) (family : KeyFamily)
    : Algorithm :=
  match algorithm, family with
  | RsaHashedKeyGenParams name hash _ _, RSA modulusLength publicExponent =>
      RsaHashedKeyGenParams name hash publicExponent modulusLength
  | _, _ => algorithm
  end.

(** [crypto.subtle.importKey('pkcs8', keyData, algorithm, extractable, keyUsages)]
    for the signature algorithms of [KeyManager]; [keyData] is [undefined]
    when the caller indexed an empty array.  A private key of these
    algorithms may only sign: any other usage is refused before the key
    data is looked at, and so is in the end a key without usage.  The usages
    of the key are the set of those asked for. *)
Definition importKey_pkcs8 (keyData : option Der) (algorithm : Algorithm)
    (extractable : bool) (keyUsages : list KeyUsage) : M CryptoKey :=
  match keyData with
  | None => throw (TypeError "key data is undefined")
  | Some keyData =>
      if existsb (λ usage, negb (is_usage usage_sign usage)) keyUsages
      then throw (DOMException "SyntaxError" "Unsupported key usage for a private key")
      else
        match keyData with
        | DerPkcs8 material =>
            if matches_family algorithm (km_family material)
            then
              if bool_decide (keyUsages = [])
              then throw (DOMException "SyntaxError"
                            "Usages cannot be empty when importing a private key.")
              else ret (mkKey private material
                          (imported_algorithm algorithm (km_family material))
                          extractable (remove_dups keyUsages))
            else throw (DOMException "DataError" "Invalid key type")
        | _ => throw (DOMException "DataError" "Invalid keyData")
        end
  end.
End subtle.

Module PemConverter.
(** [x509.PemConverter.encode(rawData, tag)] *)
Definition encode (rawData : Der) (tag : string) : Text := [PemChunk tag rawData].

(** [x509.PemConverter.decode(pem)]: the payloads of all PEM blocks, in order. *)
Fixpoint decode (pem : Text) : list Der :=
  match pem with
  | [] => []
  | PemChunk _ body :: rest => body :: decode rest
  | RawChunk _ :: rest => decode rest
  end.
End PemConverter.

(** [cert.toString('pem')] *)
Definition cert_toString_pem (cert : X509Certificate) : Text :=
  PemConverter.encode (DerCertificate cert) "CERTIFICATE".

(** [new x509.X509Certificate(raw)] *)
Definition new_X509Certificate (raw : Der) : M X509Certificate :=
  match raw with
  | DerCertificate c => ret c
  | _ => throw (MkError "Error" "cannot parse the certificate")
  end.

Definition getSubjectKeyIdentifier (exts : list Extension) : option nat :=
  head (omap (λ e, match e with
                   | SubjectKeyIdentifierExtension keyId _ => Some keyId
                   | _ => None
                   end) exts).

Definition getAuthorityKeyIdentifier (exts : list Extension) : option nat :=
  head (omap (λ e, match e with
                   | AuthorityKeyIdentifierExtension keyId _ => Some keyId
                   | _ => None
                   end) exts).

Section x509.
Context `{CryptoProvider}.

(** [x509.X509CertificateGenerator.create({ publicKey, signingKey, subject,
    issuer, serialNumber, notBefore, notAfter, extensions })]: the
    to-be-signed part is signed with [signingKey], which has to be a
    private key with the [sign] usage.  The two times are kept in whole
    seconds.  A name is kept as the string that was passed: the library
    parses the string, which fails for a string that is not a distinguished
    name, and prints the name in its own spelling; neither is modelled, so
    nothing is said below about what the library makes of a name that a
    caller chose. *)
Definition X509CertificateGenerator_create (publicKey signingKey : CryptoKey)
    (subject issuer serialNumber : string) (notBefore notAfter : Date)
    (extensions : list Extension) : M X509Certificate :=
  let tbs := mkTbs serialNumber subject issuer (whole_seconds notBefore)
               (whole_seconds notAfter) (key_material publicKey) extensions in
  match key_type signingKey with
  | private =>
      if existsb (subtle.is_usage usage_sign) (key_usages signingKey)
      then ret (mkCert tbs (subtle_sign (key_material signingKey) tbs))
      else throw (MkError "InvalidAccessError" "key usages do not permit signing")
  | public => throw (MkError "InvalidAccessError" "key is not a private key")
  end.

(** [x509.X509CertificateGenerator.createSelfSigned({ serialNumber, name,
    notBefore, notAfter, keys, extensions })] *)
Definition X509CertificateGenerator_createSelfSigned (serialNumber name : string)
    (notBefore notAfter : Date) (keys : CryptoKeyPair)
    (extensions : list Extension) : M X509Certificate :=
  X509CertificateGenerator_create (pair_publicKey keys) (pair_privateKey keys)
    name name serialNumber notBefore notAfter extensions.

(** [cert.verify({ publicKey, signatureOnly: true })]: the signature over
    the to-be-signed part, checked with [publicKey]; the validity window is
    not looked at. *)
Definition cert_verify_signatureOnly (cert : X509Certificate)
    (publicKey : KeyMaterial) : bool :=
  subtle_verify publicKey (cert_tbs cert) (cert_signature cert).

(** [cert.isSelfSigned()] *)
Definition isSelfSigned (cert : X509Certificate) : bool :=
  bool_decide (subject cert = issuer cert) &&
  cert_verify_signatureOnly cert (publicKey cert).
End x509.

Section chain_builder.
Context `{CryptoProvider}.

(** [X509ChainBuilder.findIssuer(cert)]: nothing for a self-signed
    certificate; otherwise the first certificate of the pool whose subject
    is the issuer of [cert], whose subject key identifier does not
    contradict the authority key identifier of [cert], and whose public key
    verifies the signature of [cert]. *)
Definition findIssuer (certificates : list X509Certificate)
    (cert : X509Certificate) : option X509Certificate :=
  if isSelfSigned cert then None
  else
    let akiExt := getAuthorityKeyIdentifier (extensions cert) in
    find (λ item,
      bool_decide (subject item = issuer cert) &&
      match akiExt, getSubjectKeyIdentifier (extensions item) with
      | Some aki, Some ski => bool_decide (ski = aki)
      | _, _ => true
      end &&
      cert_verify_signatureOnly cert (publicKey item)) certificates.

(** The loop of [X509ChainBuilder.build]: [chain] is the chain so far and
    [current] its last certificate.  Every round appends a certificate of
    the pool that the chain does not hold yet, or stops, so the loop takes
    at most one round more than the pool has certificates; [fuel] counts
    the rounds.  Two certificates have the same thumbprint when they are
    equal. *)
Fixpoint build_loop (fuel : nat) (certificates chain : list X509Certificate)
    (current : X509Certificate) : Result (list X509Certificate) :=
  match fuel with
  | O => inl (MkError "Error" "Cannot build a certificate chain. Circular dependency.")
  | S fuel' =>
      match findIssuer certificates current with
      | None => inr chain
      | Some next =>
          if bool_decide (next ∈ chain)
          then inl (MkError "Error" "Cannot build a certificate chain. Circular dependency.")
          else build_loop fuel' certificates (chain ++ [next]) next
      end
  end.

(** The chain that [build] computes for [cert] over the pool, or its error. *)
Definition build_chain (certificates : list X509Certificate)
    (cert : X509Certificate) : Result (list X509Certificate) :=
  build_loop (S (length certificates)) certificates [cert] cert.

(** [new x509.X509ChainBuilder({ certificates }).build(cert)] *)
Definition X509ChainBuilder_build (certificates : list X509Certificate)
    (cert : X509Certificate) : M (list X509Certificate) :=
  lift_result (build_chain certificates cert).
End chain_builder.

(* ================================================================== *)
(** * [Keytool]

    Modelled from the spec: [src/core/keytool.mjs] is not among the sources.
    The specification describes the key tooling as a capability interface
    (generate key pair, certificate request, sign certificate, import and
    export certificate) of synchronous external calls whose failure is fatal
    for the enclosing operation.  Each capability is a function from the
    contents of the files the invocation reads ([None] for a file that does
    not exist) to the contents of the one file it writes, or [None] when the
    process exits with a non-zero status. *)
Record Keytool : Type := mkKeytool {
  kt_genKeyPair : string → list string → option Text → option Text;
  kt_certReq : string → option Text → option Text;
  kt_genCert : string → nat → option Text → option Text → option Text;
  kt_importCert : string → bool → option Text → option Text → option Text;
  kt_exportCert : string → nat → option Text → option Text
}.

Definition peek (w : World) (p : string) : option Text :=
  match w_fs w !! p with
  | Some (File data) => Some data
  | _ => None
  end.

(** One invocation: the command is recorded, then its result is written to
    [target] or the failure is thrown. *)
Definition keytool_run (command alias keystore target : string)
    (result : World → option Text) : M unit :=
  λ w,
    let w1 := log_event w (EvKeytool command alias keystore) in
    match result w, w_fs w !! target with
    | Some data, (Some (File _) | None) =>
        (mkWorld (<[target := File data]> (w_fs w1)) (w_trace w1) (w_seed w1) (w_now w1),
         inr tt)
    | _, _ =>
        (w1, inl (FullstackTestingError ("keytool " +:+ command +:+ " failed")))
    end.

(** [keytool.genKeyPair('-alias ..', '-keystore ..', ...)] writes the keystore. *)
Definition Keytool_genKeyPair (kt : Keytool) (alias keystore : string)
    (options : list string) : M unit :=
  keytool_run "-genkeypair" alias keystore keystore
    (λ w, kt_genKeyPair kt alias options (peek w keystore)).

(** [keytool.certReq('-alias ..', '-keystore ..', ..., '-file ..')] writes [file]. *)
Definition Keytool_certReq (kt : Keytool) (alias keystore file : string) : M unit :=
  keytool_run "-certreq" alias keystore file
    (λ w, kt_certReq kt alias (peek w keystore)).

(** [keytool.genCert('-alias ..', '-keystore ..', ..., '-validity ..',
    '-infile ..', '-outfile ..')] writes [outfile]. *)
Definition Keytool_genCert (kt : Keytool) (alias keystore : string) (validity : nat)
    (infile outfile : string) : M unit :=
  keytool_run "-gencert" alias keystore outfile
    (λ w, kt_genCert kt alias validity (peek w keystore) (peek w infile)).

(** [keytool.importCert('-alias ..', '-keystore ..', ..., '-file ..')], with
    or without ['-noprompt'], writes the keystore. *)
Definition Keytool_importCert (kt : Keytool) (alias keystore : string)
    (noprompt : bool) (file : string) : M unit :=
  keytool_run "-importcert" alias keystore keystore
    (λ w, kt_importCert kt alias noprompt (peek w keystore) (peek w file)).

(** [keytool.exportCert('-alias ..', '-keystore ..', ..., '-validity ..',
    '-file ..')] writes [file]. *)
Definition Keytool_exportCert (kt : Keytool) (alias keystore : string) (validity : nat)
    (file : string) : M unit :=
  keytool_run "-exportcert" alias keystore file
    (λ w, kt_exportCert kt alias validity (peek w keystore)).

(* ================================================================== *)
(** * [KeyManager] *)

Module KeyManager.
Definition SigningKeyAlgo : Algorithm :=
  RsaHashedKeyGenParams "RSASSA-PKCS1-v1_5" "SHA-384" [1; 0; 1]%N 3072.
Definition SigningKeyUsage : list KeyUsage := [usage_sign; usage_verify].
Definition TLSKeyAlgo : Algorithm :=
  RsaHashedKeyGenParams "RSASSA-PKCS1-v1_5" "SHA-384" [1; 0; 1]%N 4096.
Definition TLSKeyUsage : list KeyUsage := [usage_sign; usage_verify].
Definition TLSCertKeyUsages : N :=
  N.lor (N.lor KeyUsageFlags.digitalSignature KeyUsageFlags.keyEncipherment)
    KeyUsageFlags.dataEncipherment.
Definition TLSCertKeyExtendedUsages : list string :=
  [ExtendedKeyUsage.serverAuth; ExtendedKeyUsage.clientAuth].
Definition ECKeyAlgo : Algorithm := EcKeyGenParams "ECDSA" "P-384" "SHA-384".
End KeyManager.

(** [convertPrivateKeyToPem(privateKey)] *)
Definition convertPrivateKeyToPem (privateKey : CryptoKey) : M Text :=
  let* ab := subtle.exportKey_pkcs8 privateKey in
  ret (PemConverter.encode ab "PRIVATE KEY").

(** [convertPemToPrivateKey(pemStr, algo, keyUsages = ['sign'])] *)
Definition convertPemToPrivateKey (pemStr : Text) (algo : option Algorithm)
    (keyUsages : option (list KeyUsage)) : M CryptoKey :=
  let keyUsages := default [usage_sign] keyUsages in
  match algo with
  | None => throw (MissingArgumentError "algo is required")
  | Some algo =>
      let items := PemConverter.decode pemStr in
      let lastItem := items !! (length items - 1) in
      subtle.importKey_pkcs8 lastItem algo false keyUsages
  end.

(** [prepareNodeKeyFilePaths(nodeId, keysDir, keyPrefix = constants.SIGNING_KEY_PREFIX)] *)
Definition prepareNodeKeyFilePaths (nodeId keysDir : string)
    (keyPrefix : option string) : M NodeKeyFiles :=
  let keyPrefix := default SIGNING_KEY_PREFIX keyPrefix in
  if falsy nodeId then throw (MissingArgumentError "nodeId is required") else
  if falsy keysDir then throw (MissingArgumentError "keysDir is required") else
  if falsy keyPrefix then throw (MissingArgumentError "keyPrefix is required") else
  let keyFile :=
    path.join [keysDir; Templates.renderGossipPemPrivateKeyFile (Some keyPrefix) (Some nodeId)] in
  let certFile :=
    path.join [keysDir; Templates.renderGossipPemPublicKeyFile (Some keyPrefix) (Some nodeId)] in
  ret {| privateKeyFile := keyFile; certificateFile := certFile |}.

(** [prepareTLSKeyFilePaths(nodeId, keysDir)] *)
Definition prepareTLSKeyFilePaths (nodeId keysDir : string) : M NodeKeyFiles :=
  if falsy nodeId then throw (MissingArgumentError "nodeId is required") else
  if falsy keysDir then throw (MissingArgumentError "keysDir is required") else
  let keyFile := path.join [keysDir; "hedera-" +:+ nodeId +:+ ".key"] in
  let certFile := path.join [keysDir; "hedera-" +:+ nodeId +:+ ".crt"] in
  ret {| privateKeyFile := keyFile; certificateFile := certFile |}.

(** [storeNodeKey(nodeId, nodeKey, keysDir, nodeKeyFiles, keyName = '')].
    The promise resolves with [nodeKeyFiles]; an exception inside its
    executor rejects it with the same error. *)
Definition storeNodeKey (nodeId : string) (nodeKey : NodeKey) (keysDir : string)
    (nodeKeyFiles : NodeKeyFiles) : M NodeKeyFiles :=
  if falsy nodeId then throw (MissingArgumentError "nodeId is required") else
  match privateKey nodeKey with
  | None => throw (MissingArgumentError "nodeKey.privateKey is required")
  | Some nodeKey_privateKey =>
  match certificateChain nodeKey with
  | None => throw (MissingArgumentError "nodeKey.certificateChain is required")
  | Some nodeKey_certificateChain =>
  if falsy keysDir then throw (MissingArgumentError "keysDir is required") else
  if falsy (privateKeyFile nodeKeyFiles)
  then throw (MissingArgumentError "nodeKeyFiles.privateKeyFile is required") else
  if falsy (certificateFile nodeKeyFiles)
  then throw (MissingArgumentError "nodeKeyFiles.certificateFile is required") else
  let* keyPem := convertPrivateKeyToPem nodeKey_privateKey in
  let certPems := map cert_toString_pem nodeKey_certificateChain in
  fs.writeFileSync (privateKeyFile nodeKeyFiles) keyPem fs.flag_w >>
  (* remove if the certificate file exists already as otherwise we'll keep
     appending to the last *)
  let* present := fs.existsSync (certificateFile nodeKeyFiles) in
  (if present then fs.rmSync (certificateFile nodeKeyFiles) else ret tt) >>
  for_each certPems (λ certPem,
    fs.writeFileSync (certificateFile nodeKeyFiles) (certPem ++ [RawChunk LF]) fs.flag_a) >>
  ret nodeKeyFiles
  end end.

Section key_manager.
Context `{CryptoProvider} `{Constants} `{FriendlyName}.

(** [loadNodeKey(nodeId, keysDir, algo, nodeKeyFiles, keyName = '')] *)
Definition loadNodeKey (nodeId keysDir : string) (algo : option Algorithm)
    (nodeKeyFiles : NodeKeyFiles) : M NodeKey :=
  if falsy nodeId then throw (MissingArgumentError "nodeId is required") else
  if falsy keysDir then throw (MissingArgumentError "keysDir is required") else
  match algo with
  | None => throw (MissingArgumentError "algo is required")
  | Some _ =>
  if falsy (privateKeyFile nodeKeyFiles)
  then throw (MissingArgumentError "nodeKeyFiles.privateKeyFile is required") else
  if falsy (certificateFile nodeKeyFiles)
  then throw (MissingArgumentError "nodeKeyFiles.certificateFile is required") else
  let* keyBytes := fs.readFileSync (privateKeyFile nodeKeyFiles) in
  let keyPem := keyBytes in
  let* key := convertPemToPrivateKey keyPem algo None in
  let* certBytes := fs.readFileSync (certificateFile nodeKeyFiles) in
  let certPems := PemConverter.decode certBytes in
  let* certs := map_each certPems new_X509Certificate in
  match certs with
  | [] => throw (TypeError "cannot build a chain for undefined")
  | certs_0 :: certs_slice_1 =>
      let* certChain := X509ChainBuilder_build certs_slice_1 certs_0 in
      ret {| privateKey := Some key;
             certificate := Some certs_0;
             certificateChain := Some certChain |}
  end
  end.

(** [generateSigningKey(nodeId)] *)
Definition generateSigningKey (nodeId : string) : M NodeKey :=
  try_catch
    (let keyPrefix := SIGNING_KEY_PREFIX in
     let* curDate := new_Date in
     let friendlyName := renderNodeFriendlyName keyPrefix nodeId in
     let* keypair :=
       subtle.generateKey KeyManager.SigningKeyAlgo true KeyManager.SigningKeyUsage in
     let* now := new_Date in
     let* cert :=
       X509CertificateGenerator_createSelfSigned "01" ("CN=" +:+ friendlyName)
         curDate
         (setFullYear now (getFullYear curDate + CERTIFICATE_VALIDITY_YEARS))
         keypair
         [ BasicConstraintsExtension true 1 true;
           ExtendedKeyUsageExtension
             [ExtendedKeyUsage.serverAuth; ExtendedKeyUsage.clientAuth] true;
           KeyUsagesExtension
             (N.lor KeyUsageFlags.keyCertSign KeyUsageFlags.cRLSign) true;
           SubjectKeyIdentifierExtension
             (km_id (key_material (pair_publicKey keypair))) false ] in
     let* certChain := X509ChainBuilder_build [] cert in
     ret {| privateKey := Some (pair_privateKey keypair);
            certificate := Some cert;
            certificateChain := Some certChain |})
    (λ e, throw (FullstackTestingErrorFrom
                   ("failed to generate signing key: " +:+ err_message e) e)).

(** [storeSigningKey(nodeId, nodeKey, keysDir)] *)
Definition storeSigningKey (nodeId : string) (nodeKey : NodeKey)
    (keysDir : string) : M NodeKeyFiles :=
  let* nodeKeyFiles := prepareNodeKeyFilePaths nodeId keysDir (Some SIGNING_KEY_PREFIX) in
  storeNodeKey nodeId nodeKey keysDir nodeKeyFiles.

(** [loadSigningKey(nodeId, keysDir)] *)
Definition loadSigningKey (nodeId keysDir : string) : M NodeKey :=
  let* nodeKeyFiles := prepareNodeKeyFilePaths nodeId keysDir (Some SIGNING_KEY_PREFIX) in
  loadNodeKey nodeId keysDir (Some KeyManager.SigningKeyAlgo) nodeKeyFiles.

(** [ecKey(nodeId, keyPrefix, signingKey)] *)
Definition ecKey (nodeId keyPrefix : string) (signingKey : option NodeKey) : M NodeKey :=
  if falsy nodeId then throw (MissingArgumentError "nodeId is required") else
  if falsy keyPrefix then throw (MissingArgumentError "keyPrefix is required") else
  match signingKey with
  | None => throw (MissingArgumentError "no signing key found")
  | Some signingKey =>
  try_catch
    (let* curDate := new_Date in
     let* now := new_Date in
     let notAfter := setFullYear now (getFullYear curDate + CERTIFICATE_VALIDITY_YEARS) in
     let friendlyName := renderNodeFriendlyName keyPrefix nodeId in
     let* keypair :=
       subtle.generateKey KeyManager.ECKeyAlgo true [usage_sign; usage_verify] in
     match certificate signingKey with
     | None => throw (TypeError "Cannot read properties of undefined (reading 'subject')")
     | Some signingKey_certificate =>
     match privateKey signingKey with
     | None => throw (TypeError "signingKey is undefined")
     | Some signingKey_privateKey =>
     let* cert :=
       X509CertificateGenerator_create
         (pair_publicKey keypair)
         signingKey_privateKey
         ("CN=" +:+ friendlyName)
         (subject signingKey_certificate)
         "01"
         curDate
         notAfter
         [ KeyUsagesExtension
             (N.lor KeyUsageFlags.digitalSignature KeyUsageFlags.keyEncipherment)
             false ] in
     if negb (cert_verify_signatureOnly cert (publicKey signingKey_certificate))
     then throw (FullstackTestingError
                   ("failed to verify generated certificate for '" +:+
                    friendlyName +:+ "'"))
     else
     let* certChain := X509ChainBuilder_build [signingKey_certificate] cert in
     ret {| privateKey := Some (pair_privateKey keypair);
            certificate := Some cert;
            certificateChain := Some certChain |}
     end end)
    (λ e, throw (FullstackTestingErrorFrom
                   ("failed to generate " +:+ keyPrefix +:+ "-key: " +:+ err_message e) e))
  end.

(** [generateAgreementKey(nodeId, signingKey)] *)
Definition generateAgreementKey (nodeId : string) (signingKey : option NodeKey) : M NodeKey :=
  ecKey nodeId AGREEMENT_KEY_PREFIX signingKey.

(** [storeAgreementKey(nodeId, nodeKey, keysDir)] *)
Definition storeAgreementKey (nodeId : string) (nodeKey : NodeKey)
    (keysDir : string) : M NodeKeyFiles :=
  let* nodeKeyFiles := prepareNodeKeyFilePaths nodeId keysDir (Some AGREEMENT_KEY_PREFIX) in
  storeNodeKey nodeId nodeKey keysDir nodeKeyFiles.

(** [loadAgreementKey(nodeId, keysDir)] *)
Definition loadAgreementKey (nodeId keysDir : string) : M NodeKey :=
  let* nodeKeyFiles := prepareNodeKeyFilePaths nodeId keysDir (Some AGREEMENT_KEY_PREFIX) in
  loadNodeKey nodeId keysDir (Some KeyManager.ECKeyAlgo) nodeKeyFiles.

(** [generateGrpcTLSKey(nodeId, distinguishedName = new x509.Name(`CN=${nodeId}`))] *)
Definition generateGrpcTLSKey (nodeId : string) (distinguishedName : option string)
    : M NodeKey :=
  let distinguishedName := default ("CN=" +:+ nodeId) distinguishedName in
  if falsy nodeId then throw (MissingArgumentError "nodeId is required") else
  if falsy distinguishedName
  then throw (MissingArgumentError "distinguishedName is required") else
  try_catch
    (let* curDate := new_Date in
     let* keypair :=
       subtle.generateKey KeyManager.TLSKeyAlgo true KeyManager.TLSKeyUsage in
     let* now := new_Date in
     let* cert :=
       X509CertificateGenerator_createSelfSigned "01" distinguishedName
         curDate
         (setFullYear now (getFullYear curDate + CERTIFICATE_VALIDITY_YEARS))
         keypair
         [ BasicConstraintsExtension false 0 true;
           KeyUsagesExtension KeyManager.TLSCertKeyUsages true;
           ExtendedKeyUsageExtension KeyManager.TLSCertKeyExtendedUsages true;
           SubjectKeyIdentifierExtension
             (km_id (key_material (pair_publicKey keypair))) false;
           AuthorityKeyIdentifierExtension
             (km_id (key_material (pair_publicKey keypair))) false ] in
     let* certChain := X509ChainBuilder_build [] cert in
     ret {| privateKey := Some (pair_privateKey keypair);
            certificate := Some cert;
            certificateChain := Some certChain |})
    (λ e, throw (FullstackTestingErrorFrom
                   ("failed to generate gRPC TLS key: " +:+ err_message e) e)).

(** [storeTLSKey(nodeId, nodeKey, keysDir)] *)
Definition storeTLSKey (nodeId : string) (nodeKey : NodeKey)
    (keysDir : string) : M NodeKeyFiles :=
  let* nodeKeyFiles := prepareTLSKeyFilePaths nodeId keysDir in
  storeNodeKey nodeId nodeKey keysDir nodeKeyFiles.

(** [loadTLSKey(nodeId, keysDir)] *)
Definition loadTLSKey (nodeId keysDir : string) : M NodeKey :=
  let* nodeKeyFiles := prepareTLSKeyFilePaths nodeId keysDir in
  loadNodeKey nodeId keysDir (Some KeyManager.TLSKeyAlgo) nodeKeyFiles.
End key_manager.

Section pfx.
Context `{Constants}.

(** The body of the [for (const keyPrefix of [AGREEMENT, ENCRYPTION])] loop
    of [generatePrivatePfxKeys]. *)
Definition generateSignedKey (kt : Keytool) (nodeId tmpDir tmpPrivatePfxFile
    signedKeyAlias : string) (validity : nat) (keyPrefix : string) : M unit :=
  let certReqFile := path.join [tmpDir; nodeId +:+ "-cert-req-" +:+ keyPrefix +:+ ".pfx"] in
  let certFile := path.join [tmpDir; nodeId +:+ "-signed-cert-" +:+ keyPrefix +:+ ".pfx"] in
  let alias := keyPrefix +:+ "-" +:+ nodeId in
  (* generate key pair *)
  Keytool_genKeyPair kt alias tmpPrivatePfxFile
    [ "-storetype pkcs12"; "-storepass password"; "-dname cn=" +:+ alias;
      "-keyalg ec"; "-sigalg SHA384withECDSA"; "-groupname secp384r1";
      "-validity " +:+ pretty validity ] >>
  (* cert-req *)
  Keytool_certReq kt alias tmpPrivatePfxFile certReqFile >>
  (* signed cert *)
  Keytool_genCert kt signedKeyAlias tmpPrivatePfxFile validity certReqFile certFile >>
  (* import signed cert in private-pfx file *)
  Keytool_importCert kt alias tmpPrivatePfxFile false certFile.

(** [generatePrivatePfxKeys(keytool, nodeId, keysDir, tmpDir = getTmpDir())];
    [keytool] is [None] when the argument is not an instance of [Keytool].
    The temporary directory is passed by the caller. *)
Definition generatePrivatePfxKeys (keytool : option Keytool)
    (nodeId keysDir tmpDir : string) : M string :=
  match keytool with
  | None => throw (MissingArgumentError "An instance of core/Keytool is required")
  | Some keytool =>
  if falsy nodeId then throw (MissingArgumentError "nodeId is required") else
  if falsy keysDir then throw (MissingArgumentError "keysDir is required") else
  let* keysDir_present := fs.existsSync keysDir in
  if negb keysDir_present then throw (MissingArgumentError "keysDir does not exist") else
  let privatePfxFile := path.join [keysDir; "private-" +:+ nodeId +:+ ".pfx"] in
  let* present := fs.existsSync privatePfxFile in
  if present then ret privatePfxFile else
  let validity := CERTIFICATE_VALIDITY_YEARS * 365 in
  let tmpPrivatePfxFile := path.join [tmpDir; "private-" +:+ nodeId +:+ ".pfx"] in
  let signedKeyAlias := SIGNING_KEY_PREFIX +:+ "-" +:+ nodeId in
  (* signing key (s key) *)
  Keytool_genKeyPair keytool signedKeyAlias tmpPrivatePfxFile
    [ "-storetype pkcs12"; "-storepass password"; "-dname cn=s-" +:+ nodeId;
      "-keyalg rsa"; "-sigalg SHA384withRSA"; "-keysize 3072";
      "-validity " +:+ pretty validity ] >>
  (* generate signed keys (a-key and e-key) *)
  for_each [AGREEMENT_KEY_PREFIX; ENCRYPTION_KEY_PREFIX]
    (generateSignedKey keytool nodeId tmpDir tmpPrivatePfxFile signedKeyAlias validity) >>
  fs.cpSync tmpPrivatePfxFile privatePfxFile >>
  ret privatePfxFile
  end.

(** The body of the inner loop of [updatePublicPfxKey]. *)
Definition exportAndImportCert (kt : Keytool) (nodeId tmpDir privatePfxFile
    tmpPublicPfxFile : string) (validity : nat) (keyPrefix : string) : M unit :=
  let certFile := path.join [tmpDir; nodeId +:+ "-cert-" +:+ keyPrefix +:+ ".pfx"] in
  let alias := keyPrefix +:+ "-" +:+ nodeId in
  (* export signed cert *)
  Keytool_exportCert kt alias privatePfxFile validity certFile >>
  (* import signed cert *)
  Keytool_importCert kt alias tmpPublicPfxFile true certFile.

(** The body of the [for (const nodeId of nodeIds)] loop of
    [updatePublicPfxKey]. *)
Definition updatePublicPfxKey_node (kt : Keytool) (keysDir tmpDir tmpPublicPfxFile
    : string) (validity : nat) (nodeId : string) : M unit :=
  let privatePfxFile := path.join [keysDir; "private-" +:+ nodeId +:+ ".pfx"] in
  let* present := fs.existsSync privatePfxFile in
  if negb present
  then throw (FullstackTestingError
                ("private pfx " +:+ privatePfxFile +:+ " file does not exist"))
  else
  for_each [SIGNING_KEY_PREFIX; AGREEMENT_KEY_PREFIX; ENCRYPTION_KEY_PREFIX]
    (exportAndImportCert kt nodeId tmpDir privatePfxFile tmpPublicPfxFile validity).

(** [updatePublicPfxKey(keytool, nodeIds, keysDir, tmpDir = getTmpDir())];
    [nodeIds] is [None] when the argument is missing. *)
Definition updatePublicPfxKey (keytool : option Keytool)
    (nodeIds : option (list string)) (keysDir tmpDir : string) : M string :=
  match keytool with
  | None => throw (MissingArgumentError "An instance of core/Keytool is required")
  | Some keytool =>
  match nodeIds with
  | None => throw (MissingArgumentError "nodeId is required")
  | Some nodeIds =>
  if falsy keysDir then throw (MissingArgumentError "keysDir is required") else
  let* keysDir_present := fs.existsSync keysDir in
  if negb keysDir_present then throw (MissingArgumentError "keysDir does not exist") else
  let publicPfxFile := path.join [keysDir; "public.pfx"] in
  let validity := CERTIFICATE_VALIDITY_YEARS * 365 in
  let tmpPublicPfxFile := path.join [tmpDir; PUBLIC_PFX] in
  let* present := fs.existsSync publicPfxFile in
  (if present then fs.cpSync publicPfxFile tmpPublicPfxFile else ret tt) >>
  for_each nodeIds
    (updatePublicPfxKey_node keytool keysDir tmpDir tmpPublicPfxFile validity) >>
  (* copy generated pfx file to desired location *)
  fs.cpSync tmpPublicPfxFile publicPfxFile >>
  ret publicPfxFile
  end end.
End pfx.

(* ================================================================== *)
(** * The key step of the node lifecycle operations *)

(** Modelled from the spec: the node commands ([src/commands/node.mjs]) are
    not among the sources.  The specification gives the key step of the
    lifecycle operations: Add validates that the proposed node name is not
    present yet and generates signing, agreement and TLS key material for the
    new node only; Update may regenerate only the targeted node's keys;
    Delete does not require key regeneration.  The key format of the network
    is PEM or PKCS12: in PEM mode the signing and the agreement key go to the
    PEM files of the node; in PKCS12 mode the private store of the node is
    generated and then its public certificates are imported into the one
    public store shared by all nodes.  The TLS key has its two PEM files in
    both modes.  The keystore tool and the temporary directory are those of
    the caller.  The later steps (topology, staging, freeze, restart,
    polling) run against the cluster and do not write into the keys
    directory. *)
Inductive KeyFormat : Type := PEM | PKCS12.

Inductive LifecycleOperation : Type :=
  | Add (target : string)
  | Update (target : string) (gossipKeys tlsKeys : bool)
  | Delete (target : string).

Definition target_of (op : LifecycleOperation) : string :=
  match op with
  | Add target | Update target _ _ | Delete target => target
  end.

Section lifecycle.
Context `{CryptoProvider} `{Constants} `{FriendlyName}.

Definition generateGossipKeys (nodeId keysDir : string) : M unit :=
  let* signingKey := generateSigningKey nodeId in
  storeSigningKey nodeId signingKey keysDir >>
  let* agreementKey := generateAgreementKey nodeId (Some signingKey) in
  storeAgreementKey nodeId agreementKey keysDir >>
  ret tt.

Definition generatePfxKeys (keytool : Keytool) (nodeId : string)
    (allNodeIds : list string) (keysDir tmpDir : string) : M unit :=
  generatePrivatePfxKeys (Some keytool) nodeId keysDir tmpDir >>
  updatePublicPfxKey (Some keytool) (Some allNodeIds) keysDir tmpDir >>
  ret tt.

Definition generateNodeKeys (format : KeyFormat) (keytool : Keytool)
    (nodeId : string) (allNodeIds : list string) (keysDir tmpDir : string) : M unit :=
  match format with
  | PEM => generateGossipKeys nodeId keysDir
  | PKCS12 => generatePfxKeys keytool nodeId allNodeIds keysDir tmpDir
  end.

Definition generateTlsKeys (nodeId keysDir : string) : M unit :=
  let* tlsKey := generateGrpcTLSKey nodeId None in
  storeTLSKey nodeId tlsKey keysDir >>
  ret tt.

Definition lifecycle_keys (format : KeyFormat) (keytool : Keytool)
    (op : LifecycleOperation) (existing : list string) (keysDir tmpDir : string)
    : M unit :=
  match op with
  | Add target =>
      if bool_decide (target ∈ existing)
      then throw (FullstackTestingError ("node " +:+ target +:+ " is already present"))
      else
        generateNodeKeys format keytool target (existing ++ [target]) keysDir tmpDir >>
        generateTlsKeys target keysDir
  | Update target gossipKeys tlsKeys =>
      (if gossipKeys
       then generateNodeKeys format keytool target existing keysDir tmpDir
       else ret tt) >>
      (if tlsKeys then generateTlsKeys target keysDir else ret tt)
  | Delete _ => ret tt
  end.
End lifecycle.

(** The private key and certificate files of a node in PEM mode. *)
Definition nodeKeyFilesOf (nodeId keysDir : string) : list string :=
  [ path.join [keysDir; Templates.renderGossipPemPrivateKeyFile (Some SIGNING_KEY_PREFIX) (Some nodeId)];
    path.join [keysDir; Templates.renderGossipPemPublicKeyFile (Some SIGNING_KEY_PREFIX) (Some nodeId)];
    path.join [keysDir; Templates.renderGossipPemPrivateKeyFile (Some AGREEMENT_KEY_PREFIX) (Some nodeId)];
    path.join [keysDir; Templates.renderGossipPemPublicKeyFile (Some AGREEMENT_KEY_PREFIX) (Some nodeId)];
    path.join [keysDir; "hedera-" +:+ nodeId +:+ ".key"];
    path.join [keysDir; "hedera-" +:+ nodeId +:+ ".crt"] ].

(** The private key and certificate files of a node in both modes: the
    private store of PKCS12 mode and the PEM files. *)
Definition allKeyFilesOf (nodeId keysDir : string) : list string :=
  path.join [keysDir; "private-" +:+ nodeId +:+ ".pfx"] :: nodeKeyFilesOf nodeId keysDir.

(* ================================================================== *)
(** * JavaScript numbers *)

(** The Numbers that [parseInt] returns: [NaN], an integer, or an
    infinity. *)
Inductive Number : Type :=
  | NaN
  | Integer (z : Z)
  | Infinity (negative : bool).

(** The Number for a mathematical integer.  Up to [2^53] in magnitude the
    integer is a Number.  A larger one is rounded to 53 significant bits,
    to the even neighbour on a tie, and it is an infinity when the rounded
    magnitude reaches [2^1024]. *)
Definition Number_of_Z (z : Z) : Number :=
  let magnitude := Z.abs z in
  if (magnitude <=? 2 ^ 53)%Z then Integer z
  else
    let e := (Z.log2 magnitude - 52)%Z in
    let q := Z.shiftr magnitude e in
    let r := Z.land magnitude (Z.ones e) in
    let half := Z.shiftl 1 (e - 1) in
    let q' := if (half <? r)%Z || ((r =? half)%Z && Z.odd q) then (q + 1)%Z else q in
    let rounded := Z.shiftl q' e in
    if (2 ^ 1024 <=? rounded)%Z then Infinity (z <? 0)%Z
    else Integer (Z.sgn z * rounded).

(** The value of the decimal digits that [s] starts with, after the
    digits counted in [acc]; [None] when there was no digit at all. *)
Fixpoint leading_digits (acc : option N) (s : string) : option N :=
  match s with
  | "" => acc
  | String c s' =>
      match Ascii.is_nat c with
      | Some d => leading_digits (Some (10 * default 0 acc + N.of_nat d)%N) s'
      | None => acc
      end
  end.

(** [parseInt(string, 10)]: leading white space is skipped, a sign is
    read, and the digits that follow are the value; text after them is
    ignored, and without a digit the result is [NaN].  The digits are read
    exactly, however many there are. *)
Definition parseInt_10 (string : string) : Number :=
  let trimmed := JsString.trimStart string in
  let '(sign, digits) :=
    match trimmed with
    | String "-"%char rest => ((-1)%Z, rest)
    | String "+"%char rest => (1%Z, rest)
    | _ => (1%Z, trimmed)
    end in
  match leading_digits None digits with
  | Some mathInt => Number_of_Z (sign * Z.of_N mathInt)
  | None => NaN
  end.

(** The conversion of a Number that is stored into a [Uint8Array]. *)
Definition ToUint8 (number : Number) : N :=
  match number with
  | NaN | Infinity _ => 0
  | Integer z => Z.to_N (z mod 256)
  end.

(** ** The numeric strings of [Number(str)] and [parseFloat(str)]

    [isNumeric] looks only at whether the two conversions give [NaN], so
    only that is modelled: the grammar [StrNumericLiteral] of the language
    for [Number], and the longest prefix that is a [StrDecimalLiteral] for
    [parseFloat]. *)
Module NumericLiteral.
Fixpoint skip_digits (s : string) : string :=
  match s with
  | "" => ""
  | String c s' => if JsString.is_digit c then skip_digits s' else s
  end.

Definition starts_with_digit (s : string) : bool :=
  match s with
  | String c _ => JsString.is_digit c
  | "" => false
  end.

Definition strip_sign (s : string) : string :=
  match s with
  | String "+"%char rest | String "-"%char rest => rest
  | _ => s
  end.

(** An optional [ExponentPart], then the end of the string. *)
Definition exponent_then_end (s : string) : bool :=
  match s with
  | "" => true
  | String ("e" | "E")%char rest =>
      starts_with_digit (strip_sign rest) &&
      bool_decide (skip_digits (strip_sign rest) = "")
  | _ => false
  end.

Definition StrUnsignedDecimalLiteral (s : string) : bool :=
  bool_decide (s = "Infinity") ||
  match s with
  | "" => false
  | String "."%char rest =>
      starts_with_digit rest && exponent_then_end (skip_digits rest)
  | String c _ =>
      JsString.is_digit c &&
      match skip_digits s with
      | String "."%char rest => exponent_then_end (skip_digits rest)
      | rest => exponent_then_end rest
      end
  end.

Definition StrDecimalLiteral (s : string) : bool :=
  StrUnsignedDecimalLiteral (strip_sign s).

Definition is_binary_digit (c : ascii) : bool :=
  match c with "0" | "1" => true | _ => false end%char.
Definition is_octal_digit (c : ascii) : bool :=
  (48 <=? N_of_ascii c)%N && (N_of_ascii c <=? 55)%N.
Definition is_hex_digit (c : ascii) : bool :=
  JsString.is_digit c ||
  ((97 <=? N_of_ascii c)%N && (N_of_ascii c <=? 102)%N) ||
  ((65 <=? N_of_ascii c)%N && (N_of_ascii c <=? 70)%N).

Fixpoint all_chars (p : ascii → bool) (s : string) : bool :=
  match s with
  | "" => true
  | String c s' => p c && all_chars p s'
  end.

Definition NonDecimalIntegerLiteral (s : string) : bool :=
  match s with
  | String "0"%char (String ("b" | "B")%char (String c rest)) =>
      all_chars is_binary_digit (String c rest)
  | String "0"%char (String ("o" | "O")%char (String c rest)) =>
      all_chars is_octal_digit (String c rest)
  | String "0"%char (String ("x" | "X")%char (String c rest)) =>
      all_chars is_hex_digit (String c rest)
  | _ => false
  end.

(** [isNaN(Number(str))]: the string, without the white space around it,
    is neither empty nor a numeric literal. *)
Definition Number_isNaN (str : string) : bool :=
  let literal := JsString.trim str in
  negb (bool_decide (literal = "") || StrDecimalLiteral literal ||
        NonDecimalIntegerLiteral literal).

(** Some prefix of [s] is a [StrUnsignedDecimalLiteral]: [s] starts with
    [Infinity], with a digit, or with a dot and a digit. *)
Definition decimal_prefix (s : string) : bool :=
  String.prefix "Infinity" s || starts_with_digit s ||
  match s with
  | String "."%char rest => starts_with_digit rest
  | _ => false
  end.

(** [isNaN(parseFloat(str))]: after the leading white space and a sign,
    no prefix is a decimal literal. *)
Definition parseFloat_isNaN (str : string) : bool :=
  negb (decimal_prefix (strip_sign (JsString.trimStart str))).
End NumericLiteral.

(* ================================================================== *)
(** * [helpers.mjs]: flags, paths and addresses *)

(** [splitFlagInput(input, separator = ',')]; [input] is [None] when the
    argument is not a string. *)
Definition splitFlagInput (input : option string) (separator : option string)
    : Result (list string) :=
  let separator := default "," separator in
  match input with
  | Some input =>
      let items :=
        fold_left (λ items s,
          let item := JsString.trim s in
          if negb (falsy s) then items ++ [item] else items)
          (JsString.split input separator) [] in
      inr items
  | None => inl (FullstackTestingError "input is not a comma separated string")
  end.

(** [parseNodeIds(input)] *)
Definition parseNodeIds (input : option string) : Result (list string) :=
  splitFlagInput input (Some ",").

(** The string ['\0']. *)
Definition NUL : string := String Ascii.zero "".

(** [validatePath(input)] *)
Definition validatePath (input : string) : Result string :=
  if bool_decide (JsString.indexOf input NUL ≠ (-1)%Z)
  then inl (FullstackTestingError ("access denied for path: " +:+ input))
  else inr input.

(** What [getEnvValue] returns: a string, [undefined] or [null]. *)
Inductive StringOrNull : Type :=
  | js_string (s : string)
  | js_undefined
  | js_null.

(** [getEnvValue(envVarArray, name)] *)
Definition getEnvValue (envVarArray : list string) (name : string) : StringOrNull :=
  let kvPair := find (λ v, JsString.startsWith v (name +:+ "=")) envVarArray in
  match kvPair with
  | Some kvPair =>
      if falsy kvPair then js_null
      else match JsString.split kvPair "=" !! 1 with
           | Some value => js_string value
           | None => js_undefined
           end
  | None => js_null
  end.

(** [parseIpAddressToUint8Array(ipAddress)]: the array starts as four
    zeros, and the loop stores the parsed part [i] at index [i]; a part that
    does not exist is [undefined]. *)
Definition parseIpAddressToUint8Array (ipAddress : string) : list N :=
  let parts := JsString.split ipAddress "." in
  fold_left (λ uint8Array i,
    <[i := ToUint8 (parseInt_10 (js_str (parts !! i)))]> uint8Array)
    (seq 0 4) (replicate 4 0%N).

(** [isNumeric(str)]; [str] is [None] when the argument is not a string. *)
Definition isNumeric (str : option string) : bool :=
  match str with
  | None => false
  | Some str =>
      negb (NumericLiteral.Number_isNaN str) &&
      negb (NumericLiteral.parseFloat_isNaN str)
  end.

(* ================================================================== *)
(** * Vocabulary of the properties *)

(** The account identifier with number [n]. *)
Definition account_of `{Constants} (n : N) : string :=
  pretty (realm HEDERA_NODE_ACCOUNT_ID_START) +:+ "." +:+
  pretty (shard HEDERA_NODE_ACCOUNT_ID_START) +:+ "." +:+ pretty n.

(** One round of the loop of [getNodeAccountMap]. *)
Definition account_step `{Constants} (st : list (string * string) * N)
    (nodeID : string) : list (string * string) * N :=
  (JsMap.set nodeID (account_of st.2) st.1, N.succ st.2).

(** [m] keeps the relation [R] between the world it starts in and the world
    it ends in, whether it returns or throws. *)
Definition preserves (R : relation World) {A : Type} (m : M A) : Prop :=
  ∀ w, R w (m w).1.

(** The node at path [p] is the same in both worlds. *)
Definition unchanged_at (p : string) : relation World :=
  λ w w', w_fs w' !! p = w_fs w !! p.

(** No path is lost between the worlds. *)
Definition nothing_removed : relation World :=
  λ w w', ∀ p, is_Some (w_fs w !! p) → is_Some (w_fs w' !! p).

(** The second world has the trace of the first, then events that all
    satisfy [Q]. *)
Definition trace_grows_with (Q : Event → Prop) : relation World :=
  λ w w', ∃ evs, w_trace w' = w_trace w ++ evs ∧ Forall Q evs.

(** The node at path [p] is a file or is absent. *)
Definition not_directory (w : World) (p : string) : Prop :=
  w_fs w !! p ≠ Some Directory.

(** The content of the certificate file that [storeNodeKey] writes for a chain. *)
Definition chain_pem (chain : list X509Certificate) : Text :=
  concat (map (λ cert, cert_toString_pem cert ++ [RawChunk LF]) chain).

(** The keytool invocations of [updatePublicPfxKey] for one node and for a
    list of nodes. *)
Definition publicPfx_node_events (keysDir tmpPublicPfxFile nodeId : string) : list Event :=
  flat_map (λ keyPrefix,
    [ EvKeytool "-exportcert" (keyPrefix +:+ "-" +:+ nodeId)
        (path.join [keysDir; "private-" +:+ nodeId +:+ ".pfx"]);
      EvKeytool "-importcert" (keyPrefix +:+ "-" +:+ nodeId) tmpPublicPfxFile ])
    [SIGNING_KEY_PREFIX; AGREEMENT_KEY_PREFIX; ENCRYPTION_KEY_PREFIX].

Definition publicPfx_events (keysDir tmpPublicPfxFile : string)
    (nodeIds : list string) : list Event :=
  flat_map (publicPfx_node_events keysDir tmpPublicPfxFile) nodeIds.

(** An event that writes or removes the file [p] through [fs]. *)
Definition touches (p : string) (ev : Event) : Prop :=
  ev = EvWriteFile p ∨ ev = EvRm p.

Section generated_certificates.
Context `{CryptoProvider} `{Constants} `{FriendlyName}.

(** The world after one key pair was generated. *)
Definition after_generateKey (w : World) : World :=
  mkWorld (w_fs w) (w_trace w) (S (w_seed w)) (w_now w).

(** The key pair that [ecKey] generates in the world [w]. *)
Definition ec_keypair (w : World) : CryptoKeyPair :=
  {| pair_privateKey :=
       mkKey private (mkMaterial (w_seed w) (EC "P-384")) KeyManager.ECKeyAlgo true
         [usage_sign];
     pair_publicKey :=
       mkKey public (mkMaterial (w_seed w) (EC "P-384")) KeyManager.ECKeyAlgo true
         [usage_verify] |}.

(** The certificate that [ecKey] issues in the world [w] for the node, with
    the private key [sk] and the certificate [sc] of the signing key. *)
Definition ec_tbs (nodeId keyPrefix : string) (sc : X509Certificate) (w : World)
    : TbsCertificate :=
  mkTbs "01" ("CN=" +:+ renderNodeFriendlyName keyPrefix nodeId) (subject sc)
    (whole_seconds (w_now w))
    (whole_seconds
       (setFullYear (w_now w) (getFullYear (w_now w) + CERTIFICATE_VALIDITY_YEARS)))
    (mkMaterial (w_seed w) (EC "P-384"))
    [ KeyUsagesExtension
        (N.lor KeyUsageFlags.digitalSignature KeyUsageFlags.keyEncipherment) false ].

Definition ec_cert (nodeId keyPrefix : string) (sk : CryptoKey) (sc : X509Certificate)
    (w : World) : X509Certificate :=
  mkCert (ec_tbs nodeId keyPrefix sc w)
    (subtle_sign (key_material sk) (ec_tbs nodeId keyPrefix sc w)).

(** The error that [ecKey] throws when the verification fails. *)
Definition verification_failure (nodeId keyPrefix : string) : JsError :=
  let inner :=
    FullstackTestingError
      ("failed to verify generated certificate for '" +:+
       renderNodeFriendlyName keyPrefix nodeId +:+ "'") in
  FullstackTestingErrorFrom
    ("failed to generate " +:+ keyPrefix +:+ "-key: " +:+ err_message inner) inner.
End generated_certificates.

Section generated_signing.
Context `{CryptoProvider} `{Constants} `{FriendlyName}.

(** The certificate that [generateSigningKey] issues in the world [w]. *)
Definition signing_tbs (nodeId : string) (w : World) : TbsCertificate :=
  mkTbs "01" ("CN=" +:+ renderNodeFriendlyName SIGNING_KEY_PREFIX nodeId)
    ("CN=" +:+ renderNodeFriendlyName SIGNING_KEY_PREFIX nodeId)
    (whole_seconds (w_now w))
    (whole_seconds
       (setFullYear (w_now w) (getFullYear (w_now w) + CERTIFICATE_VALIDITY_YEARS)))
    (mkMaterial (w_seed w) (RSA 3072 [1; 0; 1]%N))
    [ BasicConstraintsExtension true 1 true;
      ExtendedKeyUsageExtension
        [ExtendedKeyUsage.serverAuth; ExtendedKeyUsage.clientAuth] true;
      KeyUsagesExtension (N.lor KeyUsageFlags.keyCertSign KeyUsageFlags.cRLSign) true;
      SubjectKeyIdentifierExtension (w_seed w) false ].

Definition signing_cert (nodeId : string) (w : World) : X509Certificate :=
  mkCert (signing_tbs nodeId w)
    (subtle_sign (mkMaterial (w_seed w) (RSA 3072 [1; 0; 1]%N)) (signing_tbs nodeId w)).

Definition signing_key (nodeId : string) (w : World) : NodeKey :=
  {| privateKey :=
       Some (mkKey private (mkMaterial (w_seed w) (RSA 3072 [1; 0; 1]%N)) KeyManager.SigningKeyAlgo
               true [usage_sign]);
     certificate := Some (signing_cert nodeId w);
     certificateChain := Some [signing_cert nodeId w] |}.
End generated_signing.

(** The file system and the trace that [storeNodeKey] leads to. *)
Definition stored_fs (fs : gmap string Node) (nodeKeyFiles : NodeKeyFiles)
    (sk : CryptoKey) (chain : list X509Certificate) : gmap string Node :=
  let fs1 :=
    <[privateKeyFile nodeKeyFiles :=
        File (PemConverter.encode (DerPkcs8 (key_material sk)) "PRIVATE KEY")]> fs in
  match chain with
  | [] => delete (certificateFile nodeKeyFiles) fs1
  | _ => <[certificateFile nodeKeyFiles := File (chain_pem chain)]> fs1
  end.

Definition stored_events (fs : gmap string Node) (nodeKeyFiles : NodeKeyFiles)
    (chain : list X509Certificate) : list Event :=
  [EvWriteFile (privateKeyFile nodeKeyFiles)] ++
  (if bool_decide (is_Some (fs !! certificateFile nodeKeyFiles))
   then [EvRm (certificateFile nodeKeyFiles)] else []) ++
  repeat (EvWriteFile (certificateFile nodeKeyFiles)) (length chain).


(** What [updatePublicPfxKey] does before it copies the result back. *)
Definition updatePublicPfxKey_work `{Constants} (kt : Keytool) (keysDir tmpDir : string)
    (nodeIds : list string) : M unit :=
  let* present := fs.existsSync (path.join [keysDir; "public.pfx"]) in
  (if present
   then fs.cpSync (path.join [keysDir; "public.pfx"]) (path.join [tmpDir; PUBLIC_PFX])
   else ret tt) >>
  for_each nodeIds
    (updatePublicPfxKey_node kt keysDir tmpDir (path.join [tmpDir; PUBLIC_PFX])
       (CERTIFICATE_VALIDITY_YEARS * 365)).
(** The file system, the trace and the clock are the same in both worlds. *)
Definition same_files : relation World :=
  λ w w', w_fs w' = w_fs w ∧ w_trace w' = w_trace w ∧ w_now w' = w_now w.

Section generated_tls.
Context `{CryptoProvider} `{Constants} `{FriendlyName}.

(** The certificate that [generateGrpcTLSKey] issues in the world [w]. *)
Definition tls_tbs (distinguishedName : string) (w : World) : TbsCertificate :=
  mkTbs "01" distinguishedName distinguishedName
    (whole_seconds (w_now w))
    (whole_seconds
       (setFullYear (w_now w) (getFullYear (w_now w) + CERTIFICATE_VALIDITY_YEARS)))
    (mkMaterial (w_seed w) (RSA 4096 [1; 0; 1]%N))
    [ BasicConstraintsExtension false 0 true;
      KeyUsagesExtension KeyManager.TLSCertKeyUsages true;
      ExtendedKeyUsageExtension KeyManager.TLSCertKeyExtendedUsages true;
      SubjectKeyIdentifierExtension (w_seed w) false;
      AuthorityKeyIdentifierExtension (w_seed w) false ].

Definition tls_cert (distinguishedName : string) (w : World) : X509Certificate :=
  mkCert (tls_tbs distinguishedName w)
    (subtle_sign (mkMaterial (w_seed w) (RSA 4096 [1; 0; 1]%N)) (tls_tbs distinguishedName w)).

Definition tls_key (distinguishedName : string) (w : World) : NodeKey :=
  {| privateKey :=
       Some (mkKey private (mkMaterial (w_seed w) (RSA 4096 [1; 0; 1]%N)) KeyManager.TLSKeyAlgo
               true [usage_sign]);
     certificate := Some (tls_cert distinguishedName w);
     certificateChain := Some [tls_cert distinguishedName w] |}.

(** [issuer_cert] issued [cert]: its subject is the issuer of [cert] and its
    public key verifies the signature of [cert]. *)
Definition issued_by (cert issuer_cert : X509Certificate) : Prop :=
  subject issuer_cert = issuer cert ∧
  cert_verify_signatureOnly cert (publicKey issuer_cert) = true.

(** Every certificate of the chain but the last was issued by the next one. *)
Fixpoint linked (chain : list X509Certificate) : Prop :=
  match chain with
  | cert :: (next :: _) as rest => issued_by cert next ∧ linked rest
  | _ => True
  end.
End generated_tls.
(** The files of a gossip key and of the TLS key of a node, as
    [prepareNodeKeyFilePaths] and [prepareTLSKeyFilePaths] return them. *)
Definition gossipKeyFiles (keyPrefix nodeId keysDir : string) : NodeKeyFiles :=
  {| privateKeyFile :=
       path.join [keysDir;
         Templates.renderGossipPemPrivateKeyFile (Some keyPrefix) (Some nodeId)];
     certificateFile :=
       path.join [keysDir;
         Templates.renderGossipPemPublicKeyFile (Some keyPrefix) (Some nodeId)] |}.

Definition tlsKeyFiles (nodeId keysDir : string) : NodeKeyFiles :=
  {| privateKeyFile := path.join [keysDir; "hedera-" +:+ nodeId +:+ ".key"];
     certificateFile := path.join [keysDir; "hedera-" +:+ nodeId +:+ ".crt"] |}.

(** The key that [loadNodeKey] returns for the key material, the
    certificate and the chain that it read. *)
Definition loaded_key (material : KeyMaterial) (algo : Algorithm)
    (cert : X509Certificate) (chain : list X509Certificate) : NodeKey :=
  {| privateKey :=
       Some (mkKey private material
               (subtle.imported_algorithm algo (km_family material)) false
               [usage_sign]);
     certificate := Some cert;
     certificateChain := Some chain |}.
(** The name of the backup directory for a date, as [createBackupDir]
    formats it. *)
Definition backup_dateDir (curDate : Date) : string :=
  pretty (getFullYear curDate) +:+
  padStart 2 "0" (pretty (getMonth curDate)) +:+
  padStart 2 "0" (pretty (getDate curDate)) +:+ "_" +:+
  padStart 2 "0" (pretty (getHours curDate)) +:+
  padStart 2 "0" (pretty (getMinutes curDate)) +:+
  padStart 2 "0" (pretty (getSeconds curDate)).
(** The paths that a file map names: every source and every destination. *)
Definition backup_paths (fileMap : list (string * string)) : list string :=
  flat_map (λ entry, [entry.1; entry.2]) fileMap.

(** What a backup leaves at the destination: the source node when there is
    one, and what was there otherwise. *)
Definition backed_up (fs : gmap string Node) (srcPath destPath : string) : option Node :=
  match fs !! srcPath with
  | Some node => Some node
  | None => fs !! destPath
  end.
(** The file map of the backup functions over a list of file names: every
    name is looked for in [keysDir] and goes to [backupDir]. *)
Definition named_fileMap (keysDir backupDir : string) (names : list string)
    : list (string * string) :=
  fold_left (λ fileMap name,
    JsMap.set (path.join [keysDir; name]) (path.join [backupDir; name]) fileMap)
    names [].
(** The code unit [c] occurs in [s]. *)
Fixpoint has_char (c : ascii) (s : string) : bool :=
  match s with
  | "" => false
  | String a s' => bool_decide (a = c) || has_char c s'
  end.

(** The part of [s] before the first [c]; all of [s] when there is none. *)
Fixpoint before_char (c : ascii) (s : string) : string :=
  match s with
  | "" => ""
  | String a s' => if bool_decide (a = c) then "" else String a (before_char c s')
  end.

(** [s] consists of white space only. *)
Definition blank (s : string) : bool :=
  NumericLiteral.all_chars JsString.is_white_space s.
(** A file name: a segment that is not empty, not [.] and not [..], and
    that holds no separator. *)
Definition is_name (s : string) : bool :=
  negb (bool_decide (s = "")) && negb (bool_decide (s = ".")) &&
  negb (bool_decide (s = "..")) && negb (has_char "/" s).

(** The last segment of a path: what follows its last separator. *)
Definition last_segment (p : string) : string :=
  default "" (last (JsString.split p "/")).

(** A path in the spelling that [path.join] returns for it: names joined by
    the separator, after the root or not. *)
Definition is_clean (p : string) : bool :=
  forallb is_name
    (JsString.split (match p with String "/"%char rest => rest | _ => p end) "/").
(** The keytool invocations of [generatePrivatePfxKeys], in order: the
    signing key pair, then for the agreement and the encryption key a key
    pair, a certificate request, a certificate signed with the signing key
    and the import of that certificate. *)
Definition privatePfx_events (nodeId tmpPrivatePfxFile : string) : list Event :=
  EvKeytool "-genkeypair" (SIGNING_KEY_PREFIX +:+ "-" +:+ nodeId) tmpPrivatePfxFile ::
  flat_map (λ keyPrefix,
    [ EvKeytool "-genkeypair" (keyPrefix +:+ "-" +:+ nodeId) tmpPrivatePfxFile;
      EvKeytool "-certreq" (keyPrefix +:+ "-" +:+ nodeId) tmpPrivatePfxFile;
      EvKeytool "-gencert" (SIGNING_KEY_PREFIX +:+ "-" +:+ nodeId) tmpPrivatePfxFile;
      EvKeytool "-importcert" (keyPrefix +:+ "-" +:+ nodeId) tmpPrivatePfxFile ])
    [AGREEMENT_KEY_PREFIX; ENCRYPTION_KEY_PREFIX].

(** The files that [generatePrivatePfxKeys] writes in the temporary
    directory: the keystore, and the certificate request and the signed
    certificate of the agreement and of the encryption key. *)
Definition privatePfx_tmpFiles (nodeId tmpDir : string) : list string :=
  path.join [tmpDir; "private-" +:+ nodeId +:+ ".pfx"] ::
  flat_map (λ keyPrefix,
    [ path.join [tmpDir; nodeId +:+ "-cert-req-" +:+ keyPrefix +:+ ".pfx"];
      path.join [tmpDir; nodeId +:+ "-signed-cert-" +:+ keyPrefix +:+ ".pfx"] ])
    [AGREEMENT_KEY_PREFIX; ENCRYPTION_KEY_PREFIX].

(** What [generatePrivatePfxKeys] does in the temporary directory, before
    it copies the keystore into the keys directory. *)
Definition generatePrivatePfxKeys_work `{Constants} (kt : Keytool)
    (nodeId tmpDir : string) : M unit :=
  let validity := CERTIFICATE_VALIDITY_YEARS * 365 in
  let tmpPrivatePfxFile := path.join [tmpDir; "private-" +:+ nodeId +:+ ".pfx"] in
  let signedKeyAlias := SIGNING_KEY_PREFIX +:+ "-" +:+ nodeId in
  Keytool_genKeyPair kt signedKeyAlias tmpPrivatePfxFile
    [ "-storetype pkcs12"; "-storepass password"; "-dname cn=s-" +:+ nodeId;
      "-keyalg rsa"; "-sigalg SHA384withRSA"; "-keysize 3072";
      "-validity " +:+ pretty validity ] >>
  for_each [AGREEMENT_KEY_PREFIX; ENCRYPTION_KEY_PREFIX]
    (generateSignedKey kt nodeId tmpDir tmpPrivatePfxFile signedKeyAlias validity).
(** The two paths of a pair of key files. *)
Definition key_paths (files : NodeKeyFiles) : list string :=
  [privateKeyFile files; certificateFile files].
(* ================================================================== *)
(** * Sample collaborators, for running the model on concrete inputs *)

(** An ideal signature scheme: a signature names the signing key and the
    signed certificate, and verifies under that key only. *)
Definition ideal_sign (k : KeyMaterial) (tbs : TbsCertificate) : string :=
  "sig(" +:+ pretty (km_id k) +:+ "," +:+ tbs_serialNumber tbs +:+ "," +:+
  tbs_subject tbs +:+ "," +:+ tbs_issuer tbs +:+ "," +:+
  pretty (km_id (tbs_publicKey tbs)) +:+ ")".

Definition ideal_crypto : CryptoProvider :=
  {| subtle_sign := ideal_sign;
     subtle_verify := λ k tbs s, bool_decide (s = ideal_sign k tbs) |}.

Definition sample_constants : Constants :=
  {| HEDERA_NODE_ACCOUNT_ID_START := mkAccountId 0 0 3;
     CERTIFICATE_VALIDITY_YEARS := 100 |}.

Definition sample_names : FriendlyName :=
  {| renderNodeFriendlyName := λ prefix nodeId, prefix +:+ "-" +:+ nodeId |}.

(** A keystore tool over keystores that list their aliases. *)
Definition has_alias (alias : string) (keystore : Text) : bool :=
  existsb (λ c, match c with
                | PemChunk label _ => bool_decide (label = alias)
                | RawChunk _ => false
                end) keystore.

Definition sample_keytool : Keytool :=
  {| kt_genKeyPair := λ alias _ keystore,
       let ks := default [] keystore in
       if has_alias alias ks then None
       else Some (ks ++ [PemChunk alias (DerOther "key entry")]);
     kt_certReq := λ alias keystore,
       match keystore with
       | Some ks => if has_alias alias ks then Some [RawChunk ("request " +:+ alias)] else None
       | None => None
       end;
     kt_genCert := λ alias _ keystore infile,
       match keystore, infile with
       | Some ks, Some _ =>
           if has_alias alias ks then Some [RawChunk ("signed by " +:+ alias)] else None
       | _, _ => None
       end;
     kt_importCert := λ alias _ keystore file,
       match file with
       | Some _ => Some (default [] keystore ++ [PemChunk alias (DerOther "certificate entry")])
       | None => None
       end;
     kt_exportCert := λ alias _ keystore,
       match keystore with
       | Some ks => if has_alias alias ks then Some [RawChunk ("certificate " +:+ alias)] else None
       | None => None
       end |}.

Definition sample_date : Date := mkDate 2024 0 5 3 4 5 0.

Definition sample_world : World :=
  mkWorld (<["keys" := Directory]> (<["tmp" := Directory]> ∅)) [] 0 sample_date.


(** A keys directory with key files of [node1]. *)
Definition sample_key_world : World :=
  mkWorld
    (<["keys/s-private-node1.pem" := File [RawChunk "signing key of node1"]]>
     (<["keys/s-public-node1.pem" := File [RawChunk "signing certificate of node1"]]>
     (<["keys/a-private-node1.pem" := File [RawChunk "agreement key of node1"]]>
     (<["keys/hedera-node1.key" := File [RawChunk "TLS key of node1"]]>
     (<["keys/private-node1.pfx" := File [RawChunk "keystore of node1"]]>
     (<["keys" := Directory]> (<["tmp" := Directory]> ∅)))))))
    [] 0 sample_date.

(** The signing key that [generateSigningKey] makes for [node1] in the
    sample world, with the ideal signature scheme. *)
Definition sample_sk : CryptoKey :=
  mkKey private (mkMaterial 0 (RSA 3072 [1; 0; 1]%N)) KeyManager.SigningKeyAlgo true [usage_sign].

Definition sample_sc : X509Certificate :=
  @signing_cert ideal_crypto sample_constants sample_names "node1" sample_world.

Definition sample_signing_key : NodeKey :=
  {| privateKey := Some sample_sk;
     certificate := Some sample_sc;
     certificateChain := Some [sample_sc] |}.

(** A corrupt signing key: its private key is not the one that belongs to
    the public key of its certificate. *)
Definition sample_corrupt_signing_key : NodeKey :=
  {| privateKey :=
       Some (mkKey private (mkMaterial 7 (RSA 3072 [1; 0; 1]%N)) KeyManager.SigningKeyAlgo true
               [usage_sign]);
     certificate := Some sample_sc;
     certificateChain := Some [sample_sc] |}.

Definition sample_files : NodeKeyFiles :=
  {| privateKeyFile := "keys/s-private-node1.pem";
     certificateFile := "keys/s-public-node1.pem" |}.

(** A bundle: a certificate, then the private key. *)
Definition sample_bundle : Text :=
  [ PemChunk "CERTIFICATE" (DerCertificate sample_sc); RawChunk LF;
    PemChunk "PRIVATE KEY" (DerPkcs8 (mkMaterial 0 (RSA 3072 [1; 0; 1]%N))) ].

(** The sample keys directory after the signing key of [node1] was stored
    in it. *)
Definition sample_stored_world : World :=
  (storeNodeKey "node1" sample_signing_key "keys" sample_files sample_key_world).1.

(** A world whose temporary directory still holds a public store. *)
Definition sample_stale_world : World :=
  mkWorld
    (<["tmp/public.pfx" := File [RawChunk "public store of an earlier run"]]>
     (<["keys" := Directory]> (<["tmp" := Directory]> ∅)))
    [] 0 sample_date.

(** A keys directory in which the private key file of [node1] is a bundle:
    the certificate, then the private key. *)
Definition sample_bundle_world : World :=
  mkWorld
    (<["keys/s-private-node1.pem" := File sample_bundle]>
     (<["keys/s-public-node1.pem" := File (chain_pem [sample_sc])]>
     (<["keys" := Directory]> ∅)))
    [] 0 sample_date.

(** The sample keys directory after the private store of [node2] was
    generated in it. *)
Definition sample_pfx_world : World :=
  (@generatePrivatePfxKeys sample_constants (Some sample_keytool) "node2" "keys" "tmp"
     sample_key_world).1.

(* ================================================================== *)
(** * Properties *)

(** ** Strings *)

Lemma string_app_nil_l (t : string) : "" +:+ t = t.
Proof. reflexivity. Qed.

Lemma string_app_cons (a : ascii) (s t : string) :
  String a s +:+ t = String a (s +:+ t).
Proof. reflexivity. Qed.

Lemma string_app_length (s t : string) :
  String.length (s +:+ t) = String.length s + String.length t.
Proof.
  induction s as [|a s IH]; [done|].
  rewrite string_app_cons. simpl. by rewrite IH.
Qed.

Lemma string_app_assoc (s t u : string) : (s +:+ t) +:+ u = s +:+ t +:+ u.
Proof.
  induction s as [|a s IH]; [done|].
  rewrite !string_app_cons. by rewrite IH.
Qed.

(** Two strings with suffixes of one length are equal only when the
    suffixes and the prefixes are. *)
Lemma string_app_inj_suffix (s1 s2 a b : string) :
  String.length a = String.length b →
  s1 +:+ a = s2 +:+ b → s1 = s2 ∧ a = b.
Proof.
  revert s2. induction s1 as [|c s1 IH]; intros [|d s2] Hlen Heq.
  - done.
  - rewrite string_app_nil_l in Heq. subst a.
    rewrite string_app_length in Hlen. simpl in Hlen. lia.
  - rewrite string_app_nil_l in Heq. subst b.
    rewrite string_app_length in Hlen. simpl in Hlen. lia.
  - rewrite !string_app_cons in Heq. injection Heq as -> Heq.
    destruct (IH _ Hlen Heq) as [-> ->]. done.
Qed.

Lemma falsy_false (s : string) : s ≠ "" → falsy s = false.
Proof. intros Hs. unfold falsy. by rewrite bool_decide_eq_false. Qed.

(** ** The monad *)

Lemma bind_inr_inv {A B} (m : M A) (k : A → M B) w w' b :
  bind m k w = (w', inr b) →
  ∃ w1 a, m w = (w1, inr a) ∧ k a w1 = (w', inr b).
Proof.
  unfold bind. destruct (m w) as [w1 [e|a]]; [done|]. intros Hk. by exists w1, a.
Qed.

Lemma bind_inr {A B} (m : M A) (k : A → M B) w w1 a :
  m w = (w1, inr a) → bind m k w = k a w1.
Proof. unfold bind. by intros ->. Qed.

Lemma bind_inl {A B} (m : M A) (k : A → M B) w w1 e :
  m w = (w1, inl e) → bind m k w = (w1, inl e).
Proof. unfold bind. by intros ->. Qed.

Lemma preserves_run (R : relation World) {A} (m : M A) w w' r :
  preserves R m → m w = (w', r) → R w w'.
Proof. intros Hm Hrun. specialize (Hm w). by rewrite Hrun in Hm. Qed.

Section preserves.
Context (R : relation World) `{!PreOrder R}.

Lemma preserves_ret {A} (a : A) : preserves R (ret a).
Proof. intros w. simpl. reflexivity. Qed.

Lemma preserves_throw {A} (e : JsError) : preserves R (@throw A e).
Proof. intros w. simpl. reflexivity. Qed.

Lemma preserves_lift_result {A} (r : Result A) : preserves R (lift_result r).
Proof. intros w. simpl. reflexivity. Qed.

Lemma preserves_new_Date : preserves R new_Date.
Proof. intros w. simpl. reflexivity. Qed.

Lemma preserves_bind {A B} (m : M A) (k : A → M B) :
  preserves R m → (∀ a, preserves R (k a)) → preserves R (bind m k).
Proof.
  intros Hm Hk w. unfold bind. specialize (Hm w).
  destruct (m w) as [w1 [e|a]]; simpl in *; [done|].
  etrans; [exact Hm | apply Hk].
Qed.

Lemma preserves_try_catch {A} (m : M A) (handler : JsError → M A) :
  preserves R m → (∀ e, preserves R (handler e)) → preserves R (try_catch m handler).
Proof.
  intros Hm Hh w. unfold try_catch. specialize (Hm w).
  destruct (m w) as [w1 [e|a]]; simpl in *; [|done].
  etrans; [exact Hm | apply Hh].
Qed.

Lemma preserves_for_each {A} (l : list A) (f : A → M unit) :
  (∀ x, x ∈ l → preserves R (f x)) → preserves R (for_each l f).
Proof.
  induction l as [|x l IH]; intros Hf; simpl.
  - apply preserves_ret.
  - apply preserves_bind.
    + apply Hf. by left.
    + intros _. apply IH. intros y Hy. apply Hf. by right.
Qed.

Lemma preserves_map_each {A B} (l : list A) (f : A → M B) :
  (∀ x, preserves R (f x)) → preserves R (map_each l f).
Proof.
  intros Hf. induction l as [|x l IH]; simpl.
  - apply preserves_ret.
  - apply preserves_bind; [apply Hf|]. intros y.
    apply preserves_bind; [apply IH|]. intros ys. apply preserves_ret.
Qed.

Lemma preserves_existsSync p : preserves R (fs.existsSync p).
Proof. intros w. simpl. reflexivity. Qed.

Lemma preserves_readFileSync p : preserves R (fs.readFileSync p).
Proof. intros w. unfold fs.readFileSync. by destruct (w_fs w !! p) as [[]|]. Qed.
End preserves.

#[global] Instance unchanged_at_preorder p : PreOrder (unchanged_at p).
Proof.
  split.
  - by intros w.
  - intros a b c Hab Hbc. unfold unchanged_at in *. by rewrite Hbc.
Qed.

#[global] Instance nothing_removed_preorder : PreOrder nothing_removed.
Proof.
  split.
  - by intros w p.
  - intros a b c Hab Hbc p Hp. by apply Hbc, Hab.
Qed.

#[global] Instance trace_grows_with_preorder Q : PreOrder (trace_grows_with Q).
Proof.
  split.
  - intros w. exists []. by rewrite app_nil_r.
  - intros a b c (e1 & H1 & Q1) (e2 & H2 & Q2). exists (e1 ++ e2). split.
    + by rewrite H2, H1, app_assoc.
    + by apply Forall_app.
Qed.
(** ** Strings of JavaScript *)

Section js_strings.
Import JsString.

Lemma string_app_nil_r (s : string) : s +:+ "" = s.
Proof. induction s as [|a s IH]; [done|]. by rewrite string_app_cons, IH. Qed.

Lemma string_app_snoc (s : string) (a : ascii) (t : string) :
  (s +:+ String a "") +:+ t = s +:+ String a t.
Proof. by rewrite string_app_assoc. Qed.

Lemma has_char_app (c : ascii) (s t : string) :
  has_char c (s +:+ t) = has_char c s || has_char c t.
Proof.
  induction s as [|a s IH]; [done|].
  rewrite string_app_cons. simpl. by rewrite IH, orb_assoc.
Qed.

Lemma prefix_char (c a : ascii) (s : string) :
  String.prefix (String c "") (String a s) = bool_decide (a = c).
Proof.
  simpl. destruct (ascii_dec c a) as [->|Hne].
  - rewrite bool_decide_eq_true_2 by done. by destruct s.
  - by rewrite bool_decide_eq_false_2 by congruence.
Qed.

Lemma prefix_app (s t : string) : String.prefix s (s +:+ t) = true.
Proof.
  induction s as [|a s IH]; [by destruct t|].
  rewrite string_app_cons. simpl. by destruct (ascii_dec a a).
Qed.

Lemma prefix_inv (s t : string) :
  String.prefix s t = true → ∃ rest, t = s +:+ rest.
Proof.
  revert t. induction s as [|a s IH]; intros t Hp.
  - by exists t.
  - destruct t as [|b t]; [done|]. simpl in Hp.
    destruct (ascii_dec a b) as [->|]; [|done].
    destruct (IH t Hp) as (rest & ->). by exists rest.
Qed.

(** Splitting at a one-character separator. *)
Lemma split_go_char (c : ascii) (cur : string) (a : ascii) (s : string) :
  split_go (String c "") 0 cur (String a s) =
  if bool_decide (a = c) then cur :: split_go (String c "") 0 "" s
  else split_go (String c "") 0 (cur +:+ String a "") s.
Proof. cbn [split_go]. by rewrite prefix_char. Qed.

Lemma split_go_no_char (c : ascii) (cur s : string) :
  has_char c s = false → split_go (String c "") 0 cur s = [cur +:+ s].
Proof.
  revert cur. induction s as [|a s IH]; intros cur Hs.
  - by rewrite string_app_nil_r.
  - simpl in Hs. apply orb_false_elim in Hs as [Ha Hs].
    rewrite split_go_char, Ha, IH by done. by rewrite string_app_snoc.
Qed.

Lemma split_go_piece (c : ascii) (cur s t : string) :
  has_char c s = false →
  split_go (String c "") 0 cur (s +:+ String c t) =
  (cur +:+ s) :: split_go (String c "") 0 "" t.
Proof.
  revert cur. induction s as [|a s IH]; intros cur Hs.
  - rewrite string_app_nil_l, split_go_char, bool_decide_eq_true_2 by done.
    by rewrite string_app_nil_r.
  - simpl in Hs. apply orb_false_elim in Hs as [Ha Hs].
    rewrite string_app_cons, split_go_char, Ha, IH by done.
    by rewrite string_app_snoc.
Qed.

Lemma split_go_pieces (c : ascii) (cur s piece : string) :
  has_char c cur = false →
  piece ∈ split_go (String c "") 0 cur s →
  has_char c piece = false.
Proof.
  revert cur. induction s as [|a s IH]; intros cur Hcur Hin.
  - apply list_elem_of_singleton in Hin as ->. done.
  - rewrite split_go_char in Hin. case_bool_decide as Ha.
    + apply elem_of_cons in Hin as [->|Hin]; [done|]. by apply (IH "").
    + apply (IH (cur +:+ String a "")); [|done].
      rewrite has_char_app, Hcur. simpl. by rewrite bool_decide_eq_false_2.
Qed.

Lemma split_go_head (c : ascii) (cur s : string) :
  head (split_go (String c "") 0 cur s) = Some (cur +:+ before_char c s).
Proof.
  revert cur. induction s as [|a s IH]; intros cur.
  - simpl. by rewrite string_app_nil_r.
  - rewrite split_go_char. simpl. case_bool_decide.
    + simpl. by rewrite string_app_nil_r.
    + rewrite IH. by rewrite string_app_snoc.
Qed.

Lemma split_go_length_pos (separator : string) (skip : nat) (cur s : string) :
  1 ≤ length (split_go separator skip cur s).
Proof.
  revert skip cur. induction s as [|a s IH]; intros skip cur; simpl; [done|].
  destruct skip; [|apply IH]. case_match; [simpl; lia | apply IH].
Qed.

Lemma split_go_length (c : ascii) (cur s : string) :
  has_char c s = true → 2 ≤ length (split_go (String c "") 0 cur s).
Proof.
  revert cur. induction s as [|a s IH]; intros cur Hs; [done|].
  rewrite split_go_char. simpl in Hs. case_bool_decide as Ha.
  - simpl. pose proof (split_go_length_pos (String c "") 0 "" s). lia.
  - simpl in Hs. by apply IH.
Qed.

Lemma before_char_no_char (c : ascii) (s : string) :
  has_char c s = false → before_char c s = s.
Proof.
  induction s as [|a s IH]; intros Hs; [done|].
  simpl in *. apply orb_false_elim in Hs as [Ha Hs]. by rewrite Ha, IH.
Qed.

Lemma split_join (c : ascii) (array : list string) :
  array ≠ [] →
  (∀ s, s ∈ array → has_char c s = false) →
  split (join array (String c "")) (String c "") = array.
Proof.
  intros Hne Hall. unfold split, join.
  induction array as [|x [|y rest] IH]; [done| |].
  - simpl. rewrite split_go_no_char; [done|]. apply Hall. by left.
  - change (String.concat (String c "") (x :: y :: rest))
      with (x +:+ String c (String.concat (String c "") (y :: rest))).
    rewrite split_go_piece by (apply Hall; by left).
    rewrite IH; [done..|]. intros s Hs. apply Hall. by right.
Qed.

(** Trimming. *)
Lemma trimStart_length (s : string) :
  String.length (trimStart s) ≤ String.length s.
Proof. induction s as [|a s IH]; simpl; [done|]. case_match; simpl; lia. Qed.

Lemma trimStart_fixed (a : ascii) (s : string) :
  trimStart (String a s) = String a s ↔ is_white_space a = false.
Proof.
  simpl. destruct (is_white_space a) eqn:Ha; [|done]. split; [|done].
  intros Heq. pose proof (trimStart_length s) as Hlen.
  rewrite Heq in Hlen. simpl in Hlen. lia.
Qed.

Lemma trimStart_idem (s : string) : trimStart (trimStart s) = trimStart s.
Proof.
  induction s as [|a s IH]; [done|]. simpl.
  destruct (is_white_space a) eqn:Ha; [done|]. simpl. by rewrite Ha.
Qed.

Lemma trimEnd_idem (s : string) : trimEnd (trimEnd s) = trimEnd s.
Proof.
  induction s as [|a s IH]; [done|]. simpl.
  destruct (is_white_space a && bool_decide (trimEnd s = "")) eqn:Hc; [done|].
  simpl. by rewrite IH, Hc.
Qed.

Lemma trimStart_trimEnd (s : string) :
  trimStart s = s → trimStart (trimEnd s) = trimEnd s.
Proof.
  destruct s as [|a s]; [done|]. intros Ha%trimStart_fixed.
  simpl. rewrite Ha. simpl. by rewrite Ha.
Qed.

Lemma trim_idem (s : string) : trim (trim s) = trim s.
Proof.
  unfold trim. rewrite trimStart_trimEnd by apply trimStart_idem.
  apply trimEnd_idem.
Qed.

Lemma has_char_trimStart (c : ascii) (s : string) :
  has_char c s = false → has_char c (trimStart s) = false.
Proof.
  induction s as [|a s IH]; [done|]. intros Hs. simpl.
  destruct (is_white_space a); [|done].
  simpl in Hs. apply orb_false_elim in Hs as [_ Hs]. by apply IH.
Qed.

Lemma has_char_trimEnd (c : ascii) (s : string) :
  has_char c s = false → has_char c (trimEnd s) = false.
Proof.
  induction s as [|a s IH]; [done|]. intros Hs. simpl in *.
  apply orb_false_elim in Hs as [Ha Hs].
  destruct (is_white_space a && bool_decide (trimEnd s = "")); [done|].
  simpl. by rewrite Ha, IH.
Qed.

Lemma has_char_trim (c : ascii) (s : string) :
  has_char c s = false → has_char c (trim s) = false.
Proof. intros Hs. by apply has_char_trimEnd, has_char_trimStart. Qed.

Lemma trimStart_blank (s : string) : blank s = true → trimStart s = "".
Proof.
  induction s as [|a s IH]; [done|]. unfold blank. simpl.
  intros [Ha Hs]%andb_prop. rewrite Ha. by apply IH.
Qed.

Lemma trim_blank (s : string) : blank s = true → trim s = "".
Proof. intros Hs. unfold trim. by rewrite trimStart_blank. Qed.

Lemma trimEnd_nil (s : string) : trimEnd s = "" → blank s = true.
Proof.
  induction s as [|a s IH]; [done|]. simpl.
  destruct (is_white_space a) eqn:Ha; simpl; [|done].
  case_bool_decide as Ht; [|done]. intros _. unfold blank. simpl.
  rewrite Ha. by apply IH.
Qed.

Lemma trimStart_blank_inv (s : string) : trimStart s = "" → blank s = true.
Proof.
  induction s as [|a s IH]; [done|]. simpl.
  destruct (is_white_space a) eqn:Ha; [|done]. intros Hs. unfold blank. simpl.
  rewrite Ha. by apply IH.
Qed.
End js_strings.
(** ** Paths *)

Section paths.
Import JsString.

Lemma split_go_app (c : ascii) (cur s t : string) :
  split_go (String c "") 0 cur (s +:+ String c t) =
  split_go (String c "") 0 cur s ++ split_go (String c "") 0 "" t.
Proof.
  revert cur. induction s as [|a s IH]; intros cur.
  - rewrite string_app_nil_l, split_go_char, bool_decide_eq_true_2 by done. done.
  - rewrite string_app_cons, !split_go_char. case_bool_decide; by rewrite IH.
Qed.

Lemma join_cons (x y : string) (rest : list string) (separator : string) :
  join (x :: y :: rest) separator = x +:+ separator +:+ join (y :: rest) separator.
Proof. reflexivity. Qed.

Lemma join_split_go (c : ascii) (cur s : string) :
  join (split_go (String c "") 0 cur s) (String c "") = cur +:+ s.
Proof.
  revert cur. induction s as [|a s IH]; intros cur.
  - simpl. by rewrite string_app_nil_r.
  - rewrite split_go_char. case_bool_decide as Ha.
    + subst a. pose proof (split_go_length_pos (String c "") 0 "" s) as Hlen.
      specialize (IH ""). destruct (split_go (String c "") 0 "" s) as [|y rest];
        [simpl in Hlen; lia|].
      rewrite join_cons, IH. by rewrite string_app_nil_l.
    + rewrite IH. by rewrite string_app_snoc.
Qed.

Lemma join_snoc (l : list string) (b separator : string) :
  join (l ++ [b]) separator =
  match l with
  | [] => b
  | _ => join l separator +:+ separator +:+ b
  end.
Proof.
  induction l as [|x [|y rest] IH]; [done..|].
  change ((x :: y :: rest) ++ [b]) with (x :: y :: (rest ++ [b])).
  rewrite !join_cons. change (y :: rest ++ [b]) with ((y :: rest) ++ [b]).
  rewrite IH. by rewrite !string_app_assoc.
Qed.

Lemma is_name_spec (s : string) :
  is_name s = true ↔ s ≠ "" ∧ s ≠ "." ∧ s ≠ ".." ∧ has_char "/" s = false.
Proof.
  unfold is_name. rewrite !andb_true_iff, !negb_true_iff, !bool_decide_eq_false.
  tauto.
Qed.

Lemma push_segment_name (allowAboveRoot : bool) (res : list string) (segment : string) :
  is_name segment = true → path.push_segment allowAboveRoot res segment = segment :: res.
Proof.
  intros (Hne & Hdot & Hdots & _)%is_name_spec. unfold path.push_segment.
  by rewrite !bool_decide_eq_false_2 by done.
Qed.

Lemma fold_push_segment_names (allowAboveRoot : bool) (segments res : list string) :
  forallb is_name segments = true →
  fold_left (path.push_segment allowAboveRoot) segments res = rev segments ++ res.
Proof.
  revert res. induction segments as [|x rest IH]; intros res Hall; [done|].
  simpl in *. apply andb_prop in Hall as [Hx Hrest].
  rewrite push_segment_name, IH by done. by rewrite <- app_assoc.
Qed.

Lemma last_segment_name (b : string) : has_char "/" b = false → last_segment b = b.
Proof.
  intros Hb. unfold last_segment, split. by rewrite split_go_no_char.
Qed.

Lemma last_segment_app (s t : string) :
  last_segment (s +:+ "/" +:+ t) = last_segment t.
Proof.
  unfold last_segment, split.
  change (s +:+ "/" +:+ t) with (s +:+ String "/" t).
  rewrite split_go_app.
  pose proof (split_go_length_pos "/" 0 "" t) as Hlen.
  destruct (last (split_go "/" 0 "" t)) as [x|] eqn:Hlast.
  - by rewrite last_app, Hlast.
  - apply last_None in Hlast. rewrite Hlast in Hlen. simpl in Hlen. lia.
Qed.

Lemma split_last_segment (s : string) :
  ∃ segments, split_go "/" 0 "" s = segments ++ [last_segment s].
Proof.
  unfold last_segment, split.
  pose proof (split_go_length_pos "/" 0 "" s) as Hlen.
  destruct (last (split_go "/" 0 "" s)) as [x|] eqn:Hlast.
  - apply last_Some in Hlast as (segments & ->). by exists segments.
  - apply last_None in Hlast. rewrite Hlast in Hlen. simpl in Hlen. lia.
Qed.

Lemma trailingSeparator_last (s cur : string) :
  path.trailingSeparator s = true → last (split_go "/" 0 cur s) = Some "".
Proof.
  revert cur. induction s as [|a s IH]; intros cur Ht; [done|].
  rewrite split_go_char. destruct s as [|b s].
  - simpl in Ht. by rewrite Ht.
  - assert (path.trailingSeparator (String b s) = true) as Ht' by exact Ht.
    case_bool_decide.
    + rewrite last_cons. by rewrite (IH "" Ht').
    + by apply IH.
Qed.

Lemma trailingSeparator_name (s : string) :
  is_name (last_segment s) = true → path.trailingSeparator s = false.
Proof.
  intros Hname. destruct (path.trailingSeparator s) eqn:Ht; [|done].
  unfold last_segment, split in Hname.
  by rewrite (trailingSeparator_last s "" Ht) in Hname.
Qed.

Lemma split_go_empty (s : string) : split_go "/" 0 "" s = [""] → s = "".
Proof.
  intros Hs. pose proof (join_split_go "/" "" s) as Hj. rewrite Hs in Hj.
  symmetry. by rewrite string_app_nil_l in Hj.
Qed.

(** The last segment of a path is the last segment of its normal form when
    it is a name. *)
Lemma normalize_last_segment (s : string) :
  is_name (last_segment s) = true →
  last_segment (path.normalize s) = last_segment s.
Proof.
  intros Hname. pose proof Hname as (Hne & _ & _ & Hsep)%is_name_spec.
  destruct (split_last_segment s) as (segments & Hsplit).
  unfold path.normalize, path.normalizeString, split.
  rewrite bool_decide_eq_false_2; last first.
  { intros ->. by vm_compute in Hne. }
  rewrite Hsplit, fold_left_app. simpl.
  rewrite push_segment_name by done. simpl.
  rewrite trailingSeparator_name, string_app_nil_r by done.
  set (kept := rev (fold_left _ segments [])).
  rewrite join_snoc.
  rewrite bool_decide_eq_false_2; last first.
  { destruct kept as [|x kept]; [done|]. intros Heq.
    assert (String.length (join (x :: kept) "/" +:+ "/" +:+ last_segment s) = 0) as Hlen
      by (by rewrite Heq).
    rewrite !string_app_length in Hlen. simpl in Hlen. lia. }
  destruct kept as [|x kept].
  - destruct (path.isAbsolute s).
    + change ("/" +:+ last_segment s) with ("" +:+ "/" +:+ last_segment s).
      rewrite last_segment_app. by apply last_segment_name.
    + rewrite string_app_nil_l. by apply last_segment_name.
  - rewrite <- string_app_assoc, last_segment_app. by apply last_segment_name.
Qed.

(** The last segment of a joined path is the last segment of the last
    argument when that is a name, whatever the directories before are. *)
Lemma join_last_segment (dirs : list string) (name : string) :
  is_name (last_segment name) = true →
  last_segment (path.join (dirs ++ [name])) = last_segment name.
Proof.
  intros Hname. pose proof Hname as (Hne & _)%is_name_spec.
  assert (name ≠ "") as Hnonempty by (intros ->; by vm_compute in Hne).
  unfold path.join. rewrite filter_app, filter_cons, decide_True, filter_nil by done.
  set (joined := join _ _).
  assert (last_segment joined = last_segment name) as Hlast.
  { unfold joined. rewrite join_snoc. destruct (filter _ dirs); [done|].
    by rewrite last_segment_app. }
  rewrite bool_decide_eq_false_2; last first.
  { intros Heq. rewrite Heq in Hlast. by rewrite <- Hlast in Hne. }
  rewrite normalize_last_segment by (by rewrite Hlast). done.
Qed.

(** Two names that differ give two paths that differ, in whatever
    directories. *)
Lemma join_name_ne (dirs1 dirs2 : list string) (name1 name2 : string) :
  is_name (last_segment name1) = true →
  is_name (last_segment name2) = true →
  last_segment name1 ≠ last_segment name2 →
  path.join (dirs1 ++ [name1]) ≠ path.join (dirs2 ++ [name2]).
Proof.
  intros H1 H2 Hne Heq. apply Hne.
  rewrite <- (join_last_segment dirs1 name1 H1), <- (join_last_segment dirs2 name2 H2).
  by rewrite Heq.
Qed.

Lemma last_split_go_suffix (cur x suffix l : string) :
  has_char "/" suffix = false →
  last (split_go "/" 0 cur x) = Some l →
  last (split_go "/" 0 cur (x +:+ suffix)) = Some (l +:+ suffix).
Proof.
  intros Hsuffix. revert cur. induction x as [|a x IH]; intros cur Hlast.
  - simpl in Hlast. injection Hlast as <-.
    rewrite string_app_nil_l, split_go_no_char by done. done.
  - rewrite string_app_cons, split_go_char. rewrite split_go_char in Hlast.
    case_bool_decide.
    + pose proof (split_go_length_pos "/" 0 "" x) as Hx.
      pose proof (split_go_length_pos "/" 0 "" (x +:+ suffix)) as Hxs.
      destruct (split_go "/" 0 "" x) as [|y ys] eqn:Hsx; [simpl in Hx; lia|].
      destruct (split_go "/" 0 "" (x +:+ suffix)) as [|z zs] eqn:Hsxs; [simpl in Hxs; lia|].
      rewrite last_cons_cons in Hlast. rewrite last_cons_cons.
      rewrite <- Hsxs. apply IH. by rewrite Hsx.
    + by apply IH.
Qed.

(** A suffix without separator stays with the last segment. *)
Lemma last_segment_suffix (x suffix : string) :
  has_char "/" suffix = false →
  last_segment (x +:+ suffix) = last_segment x +:+ suffix.
Proof.
  intros Hsuffix. destruct (split_last_segment x) as (segments & Hsplit).
  unfold last_segment at 1. unfold split.
  erewrite last_split_go_suffix; [done..|]. rewrite Hsplit. by rewrite last_snoc.
Qed.

Lemma last_segment_no_separator (s : string) : has_char "/" (last_segment s) = false.
Proof.
  destruct (split_last_segment s) as (segments & Hsplit).
  apply (split_go_pieces "/" "" s); [done|].
  rewrite Hsplit. apply elem_of_app. right. by left.
Qed.

Lemma is_name_app (x suffix : string) :
  has_char "/" x = false →
  has_char "/" suffix = false →
  3 ≤ String.length suffix →
  is_name (x +:+ suffix) = true.
Proof.
  intros Hx Hsuffix Hlen. apply is_name_spec.
  assert (3 ≤ String.length (x +:+ suffix)) as Hlong
    by (rewrite string_app_length; lia).
  repeat split.
  - intros Heq. rewrite Heq in Hlong. simpl in Hlong. lia.
  - intros Heq. rewrite Heq in Hlong. simpl in Hlong. lia.
  - intros Heq. rewrite Heq in Hlong. simpl in Hlong. lia.
  - by rewrite has_char_app, Hx, Hsuffix.
Qed.

(** The last segment of a file name that ends in a suffix of three code
    units or more is a name, whatever stands before the suffix. *)
Lemma is_name_last_segment_suffix (x suffix : string) :
  has_char "/" suffix = false →
  3 ≤ String.length suffix →
  is_name (last_segment (x +:+ suffix)) = true.
Proof.
  intros Hsuffix Hlen. rewrite last_segment_suffix by done.
  apply is_name_app; [apply last_segment_no_separator | done..].
Qed.

(** Paths of two arguments. *)
Lemma path_join_2_last_segment (dir name : string) :
  is_name (last_segment name) = true →
  last_segment (path.join [dir; name]) = last_segment name.
Proof. apply (join_last_segment [dir]). Qed.

Lemma path_join_2_name_inj (dir1 dir2 name1 name2 : string) :
  is_name name1 = true →
  is_name name2 = true →
  path.join [dir1; name1] = path.join [dir2; name2] → name1 = name2.
Proof.
  intros H1 H2 Heq.
  pose proof H1 as (_ & _ & _ & Hs1)%is_name_spec.
  pose proof H2 as (_ & _ & _ & Hs2)%is_name_spec.
  rewrite <- (last_segment_name name1), <- (last_segment_name name2) by done.
  rewrite <- (path_join_2_last_segment dir1 name1),
    <- (path_join_2_last_segment dir2 name2) by (by rewrite last_segment_name).
  by rewrite Heq.
Qed.

Lemma path_join_2_ne (dir1 dir2 name1 name2 : string) :
  is_name name1 = true →
  is_name name2 = true →
  name1 ≠ name2 → path.join [dir1; name1] ≠ path.join [dir2; name2].
Proof. intros H1 H2 Hne Heq. by apply Hne, (path_join_2_name_inj dir1 dir2). Qed.

Lemma path_join_2_ne_nil (dir name : string) :
  is_name (last_segment name) = true → path.join [dir; name] ≠ "".
Proof.
  intros Hname Heq. pose proof (path_join_2_last_segment dir name Hname) as Hlast.
  rewrite Heq in Hlast. rewrite <- Hlast in Hname. by vm_compute in Hname.
Qed.

(** Clean paths: [path.join] only puts the separator in. *)
Lemma is_clean_ne (p : string) : is_clean p = true → p ≠ "".
Proof. by intros Hp ->. Qed.

Lemma trailingSeparator_forall (s : string) :
  forallb is_name (split_go "/" 0 "" s) = true → path.trailingSeparator s = false.
Proof.
  intros Hall. apply trailingSeparator_name.
  destruct (split_last_segment s) as (segments & Hsplit).
  rewrite Hsplit, forallb_app in Hall. apply andb_prop in Hall as [_ Hlast].
  simpl in Hlast. by apply andb_prop in Hlast as [Hlast _].
Qed.

Lemma normalize_clean (p : string) : is_clean p = true → path.normalize p = p.
Proof.
  intros Hclean. pose proof (is_clean_ne p Hclean) as Hne.
  unfold path.normalize, path.normalizeString. rewrite bool_decide_eq_false_2 by done.
  unfold is_clean, split in *.
  destruct p as [|a rest]; [done|].
  destruct (decide (a = "/"%char)) as [->|Ha].
  - (* after the root *)
    assert (rest ≠ "") as Hrest by (intros ->; by vm_compute in Hclean).
    assert (split_go "/" 0 "" (String "/" rest) = "" :: split_go "/" 0 "" rest) as ->
      by (by rewrite split_go_char, bool_decide_eq_true_2).
    cbn [fold_left path.push_segment bool_decide decide_rel orb].
    replace (path.push_segment (negb (path.isAbsolute (String "/" rest))) [] "")
      with (@nil string) by done.
    rewrite fold_push_segment_names, app_nil_r, rev_involutive, join_split_go by done.
    rewrite string_app_nil_l, bool_decide_eq_false_2 by done.
    assert (path.trailingSeparator (String "/" rest) = path.trailingSeparator rest) as ->
      by (by destruct rest).
    rewrite trailingSeparator_forall by done.
    by rewrite string_app_nil_r.
  - assert (path.isAbsolute (String a rest) = false) as ->.
    { destruct a as [[] [] [] [] [] [] [] []]; try done. }
    assert (forallb is_name (split_go "/" 0 "" (String a rest)) = true) as Hall.
    { destruct a as [[] [] [] [] [] [] [] []]; try done. }
    rewrite fold_push_segment_names, app_nil_r, rev_involutive, join_split_go by done.
    rewrite string_app_nil_l, bool_decide_eq_false_2 by done.
    rewrite trailingSeparator_forall by done.
    by rewrite string_app_nil_r.
Qed.

Lemma is_clean_snoc (dir name : string) :
  is_clean dir = true → is_name name = true → is_clean (dir +:+ "/" +:+ name) = true.
Proof.
  intros Hdir Hname. pose proof Hname as (_ & _ & _ & Hsep)%is_name_spec.
  unfold is_clean, split in *.
  destruct dir as [|a rest]; [done|].
  rewrite string_app_cons.
  assert (∀ s, forallb is_name (split_go "/" 0 "" s) = true →
               forallb is_name (split_go "/" 0 "" (s +:+ "/" +:+ name)) = true) as Hsnoc.
  { intros s Hs. change (s +:+ "/" +:+ name) with (s +:+ String "/" name).
    rewrite split_go_app, forallb_app, Hs, split_go_no_char by done.
    rewrite string_app_nil_l. cbn [forallb andb]. by rewrite Hname. }
  destruct a as [[] [] [] [] [] [] [] []];
    first [ by apply Hsnoc | by apply (Hsnoc (String _ rest)) ].
Qed.

Lemma path_join_2_clean (dir name : string) :
  is_clean dir = true → is_name name = true →
  path.join [dir; name] = dir +:+ "/" +:+ name.
Proof.
  intros Hdir Hname. pose proof (is_clean_ne dir Hdir) as Hne.
  pose proof Hname as (Hnonempty & _)%is_name_spec.
  pose proof (is_clean_snoc dir name Hdir Hname) as Hclean.
  unfold path.join. rewrite !filter_cons, !decide_True, filter_nil by done.
  rewrite join_cons. change (join [name] "/") with name.
  rewrite bool_decide_eq_false_2 by (by apply is_clean_ne).
  by apply normalize_clean.
Qed.

Lemma path_join_3_clean (dir sub name : string) :
  is_clean dir = true → is_name sub = true → is_name name = true →
  path.join [dir; sub; name] = dir +:+ "/" +:+ sub +:+ "/" +:+ name.
Proof.
  intros Hdir Hsub Hname. pose proof (is_clean_ne dir Hdir) as Hne.
  pose proof Hsub as (Hsub_ne & _)%is_name_spec.
  pose proof Hname as (Hname_ne & _)%is_name_spec.
  pose proof (is_clean_snoc _ name (is_clean_snoc dir sub Hdir Hsub) Hname) as Hclean.
  rewrite !string_app_assoc in Hclean.
  unfold path.join. rewrite !filter_cons, !decide_True, filter_nil by done.
  rewrite !join_cons. change (join [name] "/") with name.
  rewrite bool_decide_eq_false_2 by (by apply is_clean_ne).
  by apply normalize_clean.
Qed.
End paths.

(** ** [Map] *)

Lemma JsMap_get_set_eq {V} (k : string) (v : V) (m : list (string * V)) :
  JsMap.get k (JsMap.set k v m) = Some v.
Proof.
  induction m as [|[k' v'] m IH]; simpl.
  - by rewrite decide_True.
  - destruct (decide (k' = k)) as [->|Hne]; simpl.
    + by rewrite decide_True.
    + by rewrite decide_False.
Qed.

Lemma JsMap_get_set_ne {V} (k k' : string) (v : V) (m : list (string * V)) :
  k ≠ k' → JsMap.get k' (JsMap.set k v m) = JsMap.get k' m.
Proof.
  intros Hne. induction m as [|[k0 v0] m IH]; simpl.
  - by rewrite decide_False.
  - destruct (decide (k0 = k)) as [->|Hne0]; simpl.
    + by rewrite !decide_False.
    + destruct (decide (k0 = k')); [done | apply IH].
Qed.

(** ** The account map *)

Section account_map.
Context `{Constants}.

Lemma getNodeAccountMap_fold (nodeIDs : list string) :
  getNodeAccountMap nodeIDs =
  (fold_left account_step nodeIDs ([], num HEDERA_NODE_ACCOUNT_ID_START)).1.
Proof.
  unfold getNodeAccountMap. f_equal.
  generalize (@nil (string * string), num HEDERA_NODE_ACCOUNT_ID_START).
  induction nodeIDs as [|n l IH]; intros [m a]; simpl; [done|]. by rewrite IH.
Qed.

Lemma account_fold_counter (nodeIDs : list string) st :
  (fold_left account_step nodeIDs st).2 = (st.2 + N.of_nat (length nodeIDs))%N.
Proof.
  revert st. induction nodeIDs as [|n l IH]; intros st; simpl.
  - lia.
  - rewrite IH. simpl. lia.
Qed.

(** One more node is one more [set], with the next number. *)
Lemma getNodeAccountMap_snoc (nodeIDs : list string) (newNode : string) :
  getNodeAccountMap (nodeIDs ++ [newNode]) =
  JsMap.set newNode
    (account_of (num HEDERA_NODE_ACCOUNT_ID_START + N.of_nat (length nodeIDs)))
    (getNodeAccountMap nodeIDs).
Proof.
  rewrite !getNodeAccountMap_fold, fold_left_app. simpl.
  unfold account_step at 1. simpl. by rewrite account_fold_counter.
Qed.

Lemma getNodeAccountMap_other (nodeIDs : list string) (newNode nodeID : string) :
  newNode ≠ nodeID →
  JsMap.get nodeID (getNodeAccountMap (nodeIDs ++ [newNode])) =
  JsMap.get nodeID (getNodeAccountMap nodeIDs).
Proof. intros Hne. rewrite getNodeAccountMap_snoc. by apply JsMap_get_set_ne. Qed.

Lemma getNodeAccountMap_at (nodeIDs : list string) (i : nat) (nodeID : string) :
  nodeIDs !! i = Some nodeID →
  nodeID ∉ drop (S i) nodeIDs →
  JsMap.get nodeID (getNodeAccountMap nodeIDs) =
  Some (account_of (num HEDERA_NODE_ACCOUNT_ID_START + N.of_nat i)).
Proof.
  revert i. induction nodeIDs as [|x l IH] using rev_ind; intros i Hi Hlast.
  - done.
  - destruct (decide (i = length l)) as [->|Hne].
    + rewrite list_lookup_middle in Hi by done. injection Hi as ->.
      rewrite getNodeAccountMap_snoc. apply JsMap_get_set_eq.
    + assert (i < length l) as Hlt.
      { apply lookup_lt_Some in Hi. rewrite length_app in Hi. simpl in Hi. lia. }
      rewrite lookup_app_l in Hi by done.
      rewrite drop_app_le in Hlast by lia.
      apply not_elem_of_app in Hlast as [Hl Hx].
      rewrite getNodeAccountMap_other.
      * by apply IH.
      * intros ->. apply Hx. by apply list_elem_of_singleton.
Qed.
End account_map.

(** C2.  The account map is a function of the ordered list of node names
    alone (it reads no state, so two renderings of one list are the same
    map).  A node listed at position [i], counted from its last occurrence,
    is assigned [realm.shard.(num + i)], where [realm.shard.num] is the
    constant start; and after a new node, one with another name, is appended
    to the list, that node still has the same account identifier. *)
Theorem getNodeAccountMap_deterministic_stable `{Constants}
    (nodeIDs : list string) (i : nat) (nodeID newNode : string) :
  nodeIDs !! i = Some nodeID →
  nodeID ∉ drop (S i) nodeIDs →
  newNode ≠ nodeID →
  JsMap.get nodeID (getNodeAccountMap nodeIDs) =
    Some (account_of (num HEDERA_NODE_ACCOUNT_ID_START + N.of_nat i)) ∧
  JsMap.get nodeID (getNodeAccountMap (nodeIDs ++ [newNode])) =
    JsMap.get nodeID (getNodeAccountMap nodeIDs).
Proof.
  intros Hi Hlast Hnew. split.
  - by apply getNodeAccountMap_at.
  - by apply getNodeAccountMap_other.
Qed.


Section preserves_more.
Context (R : relation World) `{!PreOrder R}.

Lemma preserves_bind_ret {A B} (a : A) (k : A → M B) :
  preserves R (k a) → preserves R (bind (ret a) k).
Proof. intros Hk w. apply Hk. Qed.

Lemma preserves_bind_throw {A B} (e : JsError) (k : A → M B) :
  preserves R (bind (throw e) k).
Proof. intros w. simpl. reflexivity. Qed.

(** Generating a key draws entropy and touches nothing that the relations
    of this development look at. *)
Lemma preserves_generateKey algorithm extractable keyUsages :
  (∀ w, R w (mkWorld (w_fs w) (w_trace w) (S (w_seed w)) (w_now w))) →
  preserves R (subtle.generateKey algorithm extractable keyUsages).
Proof. intros HR w. apply HR. Qed.
End preserves_more.

(** ** Frame rules of the file system for one path *)

Lemma unchanged_at_writeFileSync p q data flag :
  q ≠ p → preserves (unchanged_at p) (fs.writeFileSync q data flag).
Proof.
  intros Hne w. unfold fs.writeFileSync, unchanged_at.
  destruct (w_fs w !! q) as [[old|]|]; simpl; by rewrite ?lookup_insert_ne.
Qed.

Lemma unchanged_at_rmSync p q :
  q ≠ p → preserves (unchanged_at p) (fs.rmSync q).
Proof.
  intros Hne w. unfold fs.rmSync, unchanged_at.
  destruct (w_fs w !! q) as [[old|]|]; simpl; by rewrite ?lookup_delete_ne.
Qed.

Lemma unchanged_at_cpSync p src dest :
  dest ≠ p → preserves (unchanged_at p) (fs.cpSync src dest).
Proof.
  intros Hne w. unfold fs.cpSync, unchanged_at.
  destruct (w_fs w !! src) as [[data|]|]; simpl; [|done..].
  destruct (decide (src = dest)); simpl; [done|].
  destruct (w_fs w !! dest) as [[?|]|]; simpl; by rewrite ?lookup_insert_ne.
Qed.

Lemma make_directories_other dirs files p :
  p ∉ dirs → (fs.make_directories dirs files).1 !! p = files !! p.
Proof.
  revert files. induction dirs as [|dir rest IH]; intros files Hp; [done|].
  apply not_elem_of_cons in Hp as [Hne Hrest]. simpl.
  destruct (files !! dir) as [[data|]|]; [done| by apply IH |].
  rewrite IH by done. by rewrite lookup_insert_ne.
Qed.

(** Making directories changes no node that exists. *)
Lemma make_directories_keeps dirs files p node :
  files !! p = Some node → (fs.make_directories dirs files).1 !! p = Some node.
Proof.
  revert files. induction dirs as [|dir rest IH]; intros files Hp; [done|].
  simpl. destruct (files !! dir) as [[data|]|] eqn:Hdir; [done| by apply IH |].
  apply IH. rewrite lookup_insert_ne; [done|]. intros ->. congruence.
Qed.

Lemma unchanged_at_mkdirSync p q :
  q ≠ p → p ∉ fs.parents q → preserves (unchanged_at p) (fs.mkdirSync q).
Proof.
  intros Hne Hparents w. unfold fs.mkdirSync, unchanged_at.
  destruct (w_fs w !! q) as [[old|]|]; [done..|].
  pose proof (make_directories_other (fs.parents q ++ [q]) (w_fs w) p) as Hother.
  destruct (fs.make_directories _ _) as [files [file|]]; simpl in *;
    apply Hother; rewrite elem_of_app, list_elem_of_singleton; intros [?|?]; congruence.
Qed.

Lemma mkdirSync_keeps q w p node :
  w_fs w !! p = Some node → w_fs (fs.mkdirSync q w).1 !! p = Some node.
Proof.
  intros Hp. unfold fs.mkdirSync.
  destruct (w_fs w !! q) as [[old|]|]; [done..|].
  pose proof (make_directories_keeps (fs.parents q ++ [q]) (w_fs w) p node Hp) as Hkeep.
  by destruct (fs.make_directories _ _) as [files [file|]].
Qed.

Lemma unchanged_at_keytool_run p command alias keystore target result :
  target ≠ p →
  preserves (unchanged_at p) (keytool_run command alias keystore target result).
Proof.
  intros Hne w. unfold keytool_run, unchanged_at.
  destruct (result w) as [data|]; simpl; [|done].
  destruct (w_fs w !! target) as [[?|]|]; simpl; by rewrite ?lookup_insert_ne.
Qed.

Lemma unchanged_at_seed p w :
  unchanged_at p w (mkWorld (w_fs w) (w_trace w) (S (w_seed w)) (w_now w)).
Proof. done. Qed.

(** The structural steps of a proof that a computation preserves a relation;
    what is left are the calls that write. *)
Ltac preserves_step :=
  lazymatch goal with
  | |- PreOrder _ => apply _
  | |- preserves _ (ret _) => apply preserves_ret
  | |- preserves _ (throw _) => apply preserves_throw
  | |- preserves _ (lift_result _) => apply preserves_lift_result
  | |- preserves _ new_Date => apply preserves_new_Date
  | |- preserves _ (fs.existsSync _) => apply preserves_existsSync
  | |- preserves _ (fs.readFileSync _) => apply preserves_readFileSync
  | |- preserves _ (bind (ret _) _) => apply preserves_bind_ret
  | |- preserves _ (bind (throw _) _) => apply preserves_bind_throw
  | |- preserves _ (bind (if ?b then _ else _) _) => destruct b
  | |- preserves _ (bind (match ?x with _ => _ end) _) => destruct x
  | |- preserves _ (bind _ _) => apply preserves_bind; [..|intros ?]
  | |- preserves _ (try_catch _ _) => apply preserves_try_catch; [..|intros ?]
  | |- preserves _ (if ?b then _ else _) => destruct b
  | |- preserves _ (match ?x with _ => _ end) => destruct x
  | |- preserves _ (let _ := _ in _) => cbv zeta
  end.

Section key_generation_frame.
Context `{CryptoProvider} `{Constants} `{FriendlyName}.
Context (R : relation World) `{!PreOrder R}.
Context (R_seed : ∀ w, R w (mkWorld (w_fs w) (w_trace w) (S (w_seed w)) (w_now w))).

Lemma preserves_create pk sk subj iss serial nb na exts :
  preserves R (X509CertificateGenerator_create pk sk subj iss serial nb na exts).
Proof. unfold X509CertificateGenerator_create. repeat preserves_step. Qed.

Lemma preserves_generateSigningKey nodeId : preserves R (generateSigningKey nodeId).
Proof.
  unfold generateSigningKey, X509CertificateGenerator_createSelfSigned,
    X509ChainBuilder_build.
  repeat first [ preserves_step | apply preserves_generateKey; exact R_seed
               | apply preserves_create ].
Qed.

Lemma preserves_ecKey nodeId keyPrefix signingKey :
  preserves R (ecKey nodeId keyPrefix signingKey).
Proof.
  unfold ecKey, X509ChainBuilder_build.
  repeat first [ preserves_step | apply preserves_generateKey; exact R_seed
               | apply preserves_create ].
Qed.

Lemma preserves_generateGrpcTLSKey nodeId distinguishedName :
  preserves R (generateGrpcTLSKey nodeId distinguishedName).
Proof.
  unfold generateGrpcTLSKey, X509CertificateGenerator_createSelfSigned,
    X509ChainBuilder_build.
  repeat first [ preserves_step | apply preserves_generateKey; exact R_seed
               | apply preserves_create ].
Qed.
End key_generation_frame.

Lemma storeNodeKey_frame p nodeId nodeKey keysDir nodeKeyFiles :
  p ≠ privateKeyFile nodeKeyFiles →
  p ≠ certificateFile nodeKeyFiles →
  preserves (unchanged_at p) (storeNodeKey nodeId nodeKey keysDir nodeKeyFiles).
Proof.
  intros Hkey Hcert. unfold storeNodeKey, convertPrivateKeyToPem, subtle.exportKey_pkcs8.
  repeat first
    [ preserves_step
    | apply unchanged_at_writeFileSync; congruence
    | apply unchanged_at_rmSync; congruence
    | apply preserves_for_each; [..|intros ? _] ].
Qed.

(** ** The key files of two nodes are different files *)

Ltac string_norm :=
  repeat first [ rewrite string_app_cons in * | rewrite string_app_nil_l in * ].

(** File names built by one template from two node names differ. *)
Lemma template_inj (prefix suffix nodeId1 nodeId2 : string) :
  prefix +:+ nodeId1 +:+ suffix = prefix +:+ nodeId2 +:+ suffix → nodeId1 = nodeId2.
Proof.
  intros Heq%(inj (String.app prefix)).
  by apply string_app_inj_suffix in Heq as [-> _].
Qed.

(** The name of a key file of a node is a name when the node ID holds no
    separator. *)
Lemma is_name_node_file (before nodeId after : string) :
  has_char "/" before = false →
  has_char "/" nodeId = false →
  has_char "/" after = false →
  3 ≤ String.length after →
  is_name (before +:+ nodeId +:+ after) = true.
Proof.
  intros Hbefore Hnode Hafter Hlen. rewrite <- string_app_assoc.
  apply is_name_app; [by rewrite has_char_app, Hbefore, Hnode | done..].
Qed.

Ltac solve_is_name :=
  first
    [ by vm_compute
    | refine (is_name_node_file "s-private-" _ ".pem" _ _ _ _); [done..|simpl; lia]
    | refine (is_name_node_file "s-public-" _ ".pem" _ _ _ _); [done..|simpl; lia]
    | refine (is_name_node_file "a-private-" _ ".pem" _ _ _ _); [done..|simpl; lia]
    | refine (is_name_node_file "a-public-" _ ".pem" _ _ _ _); [done..|simpl; lia]
    | refine (is_name_node_file "hedera-" _ ".key" _ _ _ _); [done..|simpl; lia]
    | refine (is_name_node_file "hedera-" _ ".crt" _ _ _ _); [done..|simpl; lia]
    | refine (is_name_node_file "private-" _ ".pfx" _ _ _ _); [done..|simpl; lia] ].

(** Two paths of key files in one directory are one path only when the file
    names are one name. *)
Ltac key_file_names Heq :=
  apply path_join_2_name_inj in Heq; [|solve_is_name..]; string_norm; simplify_eq;
  try match goal with
      | Heq : _ +:+ _ = _ +:+ _ |- _ =>
          apply string_app_inj_suffix in Heq as [? ?]; [congruence | reflexivity]
      end.

Lemma allKeyFilesOf_disjoint (keysDir nodeId other f : string) :
  other ≠ nodeId →
  has_char "/" other = false →
  has_char "/" nodeId = false →
  f ∈ allKeyFilesOf other keysDir →
  (f ∉ allKeyFilesOf nodeId keysDir) ∧ f ≠ path.join [keysDir; "public.pfx"].
Proof.
  intros Hne Hso Hsn Hother. unfold allKeyFilesOf, nodeKeyFilesOf in *.
  unfold Templates.renderGossipPemPrivateKeyFile,
    Templates.renderGossipPemPublicKeyFile, SIGNING_KEY_PREFIX,
    AGREEMENT_KEY_PREFIX, js_str in *.
  repeat (rewrite elem_of_cons in Hother). rewrite elem_of_nil in Hother.
  split.
  - intros Hnode.
    repeat (rewrite elem_of_cons in Hnode). rewrite elem_of_nil in Hnode.
    destruct Hother as [->|[->|[->|[->|[->|[->|[->|[]]]]]]]];
    destruct Hnode as [Heq|[Heq|[Heq|[Heq|[Heq|[Heq|[Heq|[]]]]]]]];
      key_file_names Heq.
  - intros Heq.
    destruct Hother as [->|[->|[->|[->|[->|[->|[->|[]]]]]]]]; key_file_names Heq.
Qed.

Lemma nodeKeyFilesOf_allKeyFilesOf (keysDir nodeId f : string) :
  f ∉ allKeyFilesOf nodeId keysDir → f ∉ nodeKeyFilesOf nodeId keysDir.
Proof. intros Hf Hin. apply Hf. unfold allKeyFilesOf. by right. Qed.

Lemma nodeKeyFilesOf_ne (keysDir nodeId f q : string) :
  f ∉ nodeKeyFilesOf nodeId keysDir →
  q ∈ nodeKeyFilesOf nodeId keysDir →
  f ≠ q.
Proof. intros Hf Hq ->. done. Qed.

Ltac key_file_elem :=
  unfold nodeKeyFilesOf; simpl; rewrite !elem_of_cons; auto 10.

Section store_frame.
Context `{CryptoProvider} `{Constants} `{FriendlyName}.
Context (keysDir nodeId f : string).
Context (Hf : f ∉ nodeKeyFilesOf nodeId keysDir).

Lemma storeSigningKey_frame nodeKey :
  preserves (unchanged_at f) (storeSigningKey nodeId nodeKey keysDir).
Proof.
  unfold storeSigningKey, prepareNodeKeyFilePaths. simpl.
  repeat first
    [ preserves_step
    | apply storeNodeKey_frame; simpl;
      (apply (nodeKeyFilesOf_ne keysDir nodeId); [done|key_file_elem]) ].
Qed.

Lemma storeAgreementKey_frame nodeKey :
  preserves (unchanged_at f) (storeAgreementKey nodeId nodeKey keysDir).
Proof.
  unfold storeAgreementKey, prepareNodeKeyFilePaths. simpl.
  repeat first
    [ preserves_step
    | apply storeNodeKey_frame; simpl;
      (apply (nodeKeyFilesOf_ne keysDir nodeId); [done|key_file_elem]) ].
Qed.

Lemma storeTLSKey_frame nodeKey :
  preserves (unchanged_at f) (storeTLSKey nodeId nodeKey keysDir).
Proof.
  unfold storeTLSKey, prepareTLSKeyFilePaths.
  repeat first
    [ preserves_step
    | apply storeNodeKey_frame; simpl;
      (apply (nodeKeyFilesOf_ne keysDir nodeId); [done|key_file_elem]) ].
Qed.

Lemma generateGossipKeys_frame :
  preserves (unchanged_at f) (generateGossipKeys nodeId keysDir).
Proof.
  unfold generateGossipKeys, generateAgreementKey.
  repeat first
    [ preserves_step
    | apply preserves_generateSigningKey; [apply _ | apply unchanged_at_seed]
    | apply preserves_ecKey; [apply _ | apply unchanged_at_seed]
    | apply storeSigningKey_frame
    | apply storeAgreementKey_frame ].
Qed.

Lemma generateTlsKeys_frame :
  preserves (unchanged_at f) (generateTlsKeys nodeId keysDir).
Proof.
  unfold generateTlsKeys.
  repeat first
    [ preserves_step
    | apply preserves_generateGrpcTLSKey; [apply _ | apply unchanged_at_seed]
    | apply storeTLSKey_frame ].
Qed.
End store_frame.


(** ** What the stores of PKCS12 mode write *)

Section pfx_frame.
Context `{Constants}.
Context (kt : Keytool) (keysDir tmpDir f : string).
Context (Htmp : ∀ name, is_name name = true → path.join [tmpDir; name] ≠ f).

Lemma is_name_tmp_file (nodeId suffix : string) :
  has_char "/" nodeId = false →
  has_char "/" suffix = false →
  3 ≤ String.length suffix →
  path.join [tmpDir; nodeId +:+ suffix] ≠ f.
Proof. intros Hnode Hsuffix Hlen. apply Htmp. by apply is_name_app. Qed.

Ltac tmp_file :=
  first
    [ apply Htmp; solve_is_name
    | apply is_name_tmp_file; [done | done | simpl; lia] ].

Lemma generatePrivatePfxKeys_frame nodeId :
  has_char "/" nodeId = false →
  f ≠ path.join [keysDir; "private-" +:+ nodeId +:+ ".pfx"] →
  preserves (unchanged_at f) (generatePrivatePfxKeys (Some kt) nodeId keysDir tmpDir).
Proof.
  intros Hnode Hf.
  unfold generatePrivatePfxKeys, generateSignedKey, Keytool_genKeyPair,
    Keytool_certReq, Keytool_genCert, Keytool_importCert.
  cbn [for_each].
  repeat first
    [ preserves_step
    | apply unchanged_at_keytool_run; tmp_file
    | apply unchanged_at_cpSync; congruence ].
Qed.

Lemma updatePublicPfxKey_node_frame_other (validity : nat) (nodeId : string) :
  has_char "/" nodeId = false →
  preserves (unchanged_at f)
    (updatePublicPfxKey_node kt keysDir tmpDir (path.join [tmpDir; PUBLIC_PFX])
       validity nodeId).
Proof.
  intros Hnode.
  unfold updatePublicPfxKey_node, exportAndImportCert, Keytool_exportCert,
    Keytool_importCert.
  cbn [for_each].
  repeat first
    [ preserves_step
    | apply unchanged_at_keytool_run; tmp_file ].
Qed.

Lemma updatePublicPfxKey_frame nodeIds :
  (∀ nodeId, nodeId ∈ nodeIds → has_char "/" nodeId = false) →
  f ≠ path.join [keysDir; "public.pfx"] →
  preserves (unchanged_at f) (updatePublicPfxKey (Some kt) (Some nodeIds) keysDir tmpDir).
Proof.
  intros Hnodes Hf.
  unfold updatePublicPfxKey.
  repeat first
    [ apply preserves_for_each;
      [apply _|intros nodeId Hin; by apply updatePublicPfxKey_node_frame_other, Hnodes]
    | preserves_step
    | apply unchanged_at_cpSync; first [ congruence | tmp_file ] ].
Qed.
End pfx_frame.


(** ** Calls that only add files *)

Lemma nothing_removed_keytool_run command alias keystore target result :
  preserves nothing_removed (keytool_run command alias keystore target result).
Proof.
  intros w p Hp. unfold keytool_run.
  destruct (result w) as [data|]; simpl; [|done].
  destruct (w_fs w !! target) as [[?|]|] eqn:Ht; simpl; try done.
  - destruct (decide (target = p)) as [->|Hne];
      [rewrite lookup_insert_eq | rewrite lookup_insert_ne]; done.
  - destruct (decide (target = p)) as [->|Hne];
      [rewrite lookup_insert_eq | rewrite lookup_insert_ne]; done.
Qed.

Lemma nothing_removed_cpSync src dest :
  preserves nothing_removed (fs.cpSync src dest).
Proof.
  intros w p Hp. unfold fs.cpSync.
  destruct (w_fs w !! src) as [[data|]|]; simpl; try done.
  destruct (decide (src = dest)); simpl; [done|].
  destruct (w_fs w !! dest) as [[?|]|]; simpl; try done.
  - destruct (decide (dest = p)) as [->|Hne];
      [rewrite lookup_insert_eq | rewrite lookup_insert_ne]; done.
  - destruct (decide (dest = p)) as [->|Hne];
      [rewrite lookup_insert_eq | rewrite lookup_insert_ne]; done.
Qed.

Lemma cpSync_inr src dest w w' :
  fs.cpSync src dest w = (w', inr tt) →
  ∃ data, w_fs w !! src = Some (File data) ∧
          w' = with_fs w (<[dest := File data]> (w_fs w)) (EvWriteFile dest).
Proof.
  unfold fs.cpSync. destruct (w_fs w !! src) as [[data|]|]; [|done..].
  destruct (decide (src = dest)); [done|].
  destruct (w_fs w !! dest) as [[?|]|]; intros; simplify_eq; by exists data.
Qed.

Section pfx_private.
Context `{Constants}.

Lemma nothing_removed_generateSignedKey kt nodeId tmpDir tmpPrivatePfxFile
    signedKeyAlias validity keyPrefix :
  preserves nothing_removed
    (generateSignedKey kt nodeId tmpDir tmpPrivatePfxFile signedKeyAlias validity keyPrefix).
Proof.
  unfold generateSignedKey, Keytool_genKeyPair, Keytool_certReq, Keytool_genCert,
    Keytool_importCert.
  repeat first [ preserves_step | apply nothing_removed_keytool_run ].
Qed.

Lemma generatePrivatePfxKeys_present kt nodeId keysDir tmpDir w :
  nodeId ≠ "" →
  keysDir ≠ "" →
  is_Some (w_fs w !! keysDir) →
  is_Some (w_fs w !! path.join [keysDir; "private-" +:+ nodeId +:+ ".pfx"]) →
  generatePrivatePfxKeys (Some kt) nodeId keysDir tmpDir w =
    (w, inr (path.join [keysDir; "private-" +:+ nodeId +:+ ".pfx"])).
Proof.
  intros Hnode Hdir Hkeys Hpfx. unfold generatePrivatePfxKeys.
  rewrite !falsy_false by done.
  unfold bind at 1, fs.existsSync at 1. rewrite bool_decide_eq_true_2 by done. simpl.
  unfold bind at 1, fs.existsSync at 1. rewrite bool_decide_eq_true_2 by done. done.
Qed.

Lemma generatePrivatePfxKeys_returns kt nodeId keysDir tmpDir w w1 p :
  generatePrivatePfxKeys (Some kt) nodeId keysDir tmpDir w = (w1, inr p) →
  nodeId ≠ "" ∧ keysDir ≠ "" ∧ is_Some (w_fs w1 !! keysDir) ∧
  p = path.join [keysDir; "private-" +:+ nodeId +:+ ".pfx"] ∧
  is_Some (w_fs w1 !! p).
Proof.
  unfold generatePrivatePfxKeys, falsy.
  case_bool_decide as Hnode; [done|]. case_bool_decide as Hdir; [done|].
  intros Hrun.
  apply bind_inr_inv in Hrun as (w2 & present & Hex & Hrun).
  unfold fs.existsSync in Hex. injection Hex as <- <-.
  case_bool_decide as Hkeys; [simpl in Hrun | done].
  apply bind_inr_inv in Hrun as (w2 & present & Hex & Hrun).
  unfold fs.existsSync in Hex. injection Hex as <- <-.
  case_bool_decide as Hpfx; simpl in Hrun.
  { unfold ret in Hrun. by simplify_eq. }
  apply bind_inr_inv in Hrun as (w3 & [] & Hgen & Hrun).
  apply bind_inr_inv in Hrun as (w4 & [] & Hloop & Hrun).
  apply bind_inr_inv in Hrun as (w5 & [] & Hcp & Hrun).
  unfold ret in Hrun. simplify_eq.
  apply cpSync_inr in Hcp as (data & Htmp & ->).
  repeat split; try done; simpl.
  - assert (nothing_removed w w4) as Hmono.
    { etrans.
      - eapply preserves_run; [|exact Hgen]. apply nothing_removed_keytool_run.
      - eapply preserves_run; [|exact Hloop].
        repeat first [ preserves_step | apply nothing_removed_generateSignedKey ]. }
    specialize (Hmono keysDir Hkeys).
    rewrite lookup_insert. by case_decide.
  - by rewrite lookup_insert_eq.
Qed.
End pfx_private.

(** C3.  With a keytool, a node ID and a keys directory that pass the
    argument checks, [generatePrivatePfxKeys] on a keys directory that holds
    [private-<nodeId>.pfx] returns the path of that file and leaves the world
    as it is: no keytool invocation and no write is recorded in the trace
    and the file system is the same.  In particular a call that follows a
    call that returned is such a call: it returns the same path and changes
    nothing. *)
Theorem generatePrivatePfxKeys_existing_noop `{Constants}
    (kt : Keytool) (nodeId keysDir tmpDir : string) (w : World) :
  (nodeId ≠ "" →
   keysDir ≠ "" →
   is_Some (w_fs w !! keysDir) →
   is_Some (w_fs w !! path.join [keysDir; "private-" +:+ nodeId +:+ ".pfx"]) →
   generatePrivatePfxKeys (Some kt) nodeId keysDir tmpDir w =
     (w, inr (path.join [keysDir; "private-" +:+ nodeId +:+ ".pfx"]))) ∧
  (∀ w1 p,
     generatePrivatePfxKeys (Some kt) nodeId keysDir tmpDir w = (w1, inr p) →
     generatePrivatePfxKeys (Some kt) nodeId keysDir tmpDir w1 = (w1, inr p)).
Proof.
  split.
  - apply generatePrivatePfxKeys_present.
  - intros w1 p Hrun.
    apply generatePrivatePfxKeys_returns in Hrun as (Hnode & Hdir & Hkeys & -> & Hpfx).
    by apply generatePrivatePfxKeys_present.
Qed.

(** ** Storing a key *)

Lemma convertPrivateKeyToPem_run (sk : CryptoKey) (w : World) :
  key_type sk = private →
  key_extractable sk = true →
  convertPrivateKeyToPem sk w =
    (w, inr (PemConverter.encode (DerPkcs8 (key_material sk)) "PRIVATE KEY")).
Proof.
  intros Htype Hext. unfold convertPrivateKeyToPem, subtle.exportKey_pkcs8.
  by rewrite Htype, Hext.
Qed.

Lemma writeFileSync_w_run (p : string) (data : Text) (w : World) :
  not_directory w p →
  fs.writeFileSync p data fs.flag_w w =
    (with_fs w (<[p := File data]> (w_fs w)) (EvWriteFile p), inr tt).
Proof.
  unfold not_directory, fs.writeFileSync. by destruct (w_fs w !! p) as [[old|]|].
Qed.

(** The appending loop of [storeNodeKey]: on a file that is absent the
    loop leaves exactly what it wrote. *)
Lemma append_loop_run (f : string) (certPems : list Text) (old : Text) (w : World) :
  (w_fs w !! f = None ∧ old = []) ∨ w_fs w !! f = Some (File old) →
  for_each certPems (λ certPem,
    fs.writeFileSync f (certPem ++ [RawChunk LF]) fs.flag_a) w =
  (mkWorld
     (match certPems with
      | [] => w_fs w
      | _ => <[f := File (old ++ concat (map (λ c, c ++ [RawChunk LF]) certPems))]> (w_fs w)
      end)
     (w_trace w ++ repeat (EvWriteFile f) (length certPems))
     (w_seed w) (w_now w),
   inr tt).
Proof.
  revert old w. induction certPems as [|x rest IH]; intros old w Hf; simpl.
  - unfold ret. rewrite app_nil_r. by destruct w.
  - set (w1 := with_fs w (<[f := File (old ++ x ++ [RawChunk LF])]> (w_fs w))
                 (EvWriteFile f)).
    assert (fs.writeFileSync f (x ++ [RawChunk LF]) fs.flag_a w = (w1, inr tt)) as Hw.
    { unfold fs.writeFileSync, w1. destruct Hf as [[-> ->]| ->]; done. }
    rewrite (bind_inr _ _ _ _ _ Hw).
    rewrite (IH (old ++ x ++ [RawChunk LF]) w1)
      by (right; simpl; by rewrite lookup_insert_eq).
    simpl. f_equal. f_equal.
    + destruct rest as [|y rest].
      * by rewrite app_nil_r.
      * rewrite insert_insert_eq. by rewrite <- !app_assoc.
    + by rewrite <- app_assoc.
Qed.

Lemma decode_app (a b : Text) :
  PemConverter.decode (a ++ b) = PemConverter.decode a ++ PemConverter.decode b.
Proof.
  induction a as [|[label body|s] a IH]; simpl; [done| |done]. by rewrite IH.
Qed.

Lemma decode_chain_pem (chain : list X509Certificate) :
  PemConverter.decode (chain_pem chain) = map DerCertificate chain.
Proof.
  unfold chain_pem. induction chain as [|c chain IH]; [done|].
  rewrite map_cons, concat_cons, decode_app, IH. done.
Qed.

Lemma storeNodeKey_run (nodeId keysDir : string) (nodeKey : NodeKey)
    (nodeKeyFiles : NodeKeyFiles) (sk : CryptoKey) (chain : list X509Certificate)
    (w : World) :
  nodeId ≠ "" →
  keysDir ≠ "" →
  privateKeyFile nodeKeyFiles ≠ "" →
  certificateFile nodeKeyFiles ≠ "" →
  privateKeyFile nodeKeyFiles ≠ certificateFile nodeKeyFiles →
  privateKey nodeKey = Some sk →
  key_type sk = private →
  key_extractable sk = true →
  certificateChain nodeKey = Some chain →
  not_directory w (privateKeyFile nodeKeyFiles) →
  not_directory w (certificateFile nodeKeyFiles) →
  storeNodeKey nodeId nodeKey keysDir nodeKeyFiles w =
    (mkWorld (stored_fs (w_fs w) nodeKeyFiles sk chain)
       (w_trace w ++ stored_events (w_fs w) nodeKeyFiles chain)
       (w_seed w) (w_now w),
     inr nodeKeyFiles).
Proof.
  intros Hnode Hdir Hkf Hcf Hne Hsk Htype Hext Hchain Hkd Hcd.
  unfold storeNodeKey. rewrite Hsk, Hchain, !falsy_false by done.
  rewrite (bind_inr _ _ _ _ _ (convertPrivateKeyToPem_run sk w Htype Hext)).
  rewrite (bind_inr _ _ _ _ _ (writeFileSync_w_run _ _ w Hkd)).
  set (w1 := with_fs w _ _).
  unfold bind at 1, fs.existsSync at 1.
  assert (w_fs w1 !! certificateFile nodeKeyFiles = w_fs w !! certificateFile nodeKeyFiles)
    as Hcert1 by (unfold w1; simpl; by rewrite lookup_insert_ne).
  unfold stored_fs, stored_events.
  destruct (w_fs w !! certificateFile nodeKeyFiles) as [[old|]|] eqn:Hold;
    [| by destruct Hcd |].
  - (* a prior certificate file: removed, then written afresh *)
    rewrite !bool_decide_eq_true_2 by (rewrite ?Hcert1; eauto).
    unfold bind at 1, fs.rmSync at 1. rewrite Hcert1.
    set (w2 := with_fs w1 _ _).
    erewrite bind_inr; last first.
    { apply (append_loop_run _ _ []). left. split; [|done].
      unfold w2. simpl. by rewrite lookup_delete_eq. }
    unfold ret. simpl. rewrite length_map, <- !app_assoc. simpl.
    f_equal. f_equal.
    destruct chain as [|c chain]; simpl; [done|].
    rewrite insert_delete_eq. unfold chain_pem. simpl. by rewrite map_map.
  - (* no prior certificate file *)
    rewrite bool_decide_eq_false_2 by (rewrite Hcert1; by intros [? ?]).
    rewrite bool_decide_eq_false_2 by (by intros [? ?]).
    unfold bind at 1, ret at 1.
    erewrite bind_inr; last first.
    { apply (append_loop_run _ _ []). left. by split. }
    unfold ret. simpl. rewrite length_map, <- !app_assoc. simpl.
    f_equal. f_equal.
    destruct chain as [|c chain]; simpl.
    + rewrite delete_id; [done|]. by rewrite lookup_insert_ne.
    + unfold chain_pem. simpl. by rewrite map_map.
Qed.

(** C7.  A call of [storeNodeKey] with valid arguments (no empty name, an
    extractable private key, two different paths that are not directories)
    returns; afterwards the private key file holds the key as one PEM block,
    and the certificate file holds exactly the certificates of this call's
    chain, in order, whatever it held before: a prior file is removed first
    and the chain is then appended to the absent file (with an empty chain
    no certificate file is left).  The trace shows the writes in that order. *)
Theorem storeNodeKey_replaces_certificates (nodeId keysDir : string) (nodeKey : NodeKey)
    (nodeKeyFiles : NodeKeyFiles) (sk : CryptoKey) (chain : list X509Certificate)
    (w : World) :
  nodeId ≠ "" →
  keysDir ≠ "" →
  privateKeyFile nodeKeyFiles ≠ "" →
  certificateFile nodeKeyFiles ≠ "" →
  privateKeyFile nodeKeyFiles ≠ certificateFile nodeKeyFiles →
  privateKey nodeKey = Some sk →
  key_type sk = private →
  key_extractable sk = true →
  certificateChain nodeKey = Some chain →
  not_directory w (privateKeyFile nodeKeyFiles) →
  not_directory w (certificateFile nodeKeyFiles) →
  ∃ w',
    storeNodeKey nodeId nodeKey keysDir nodeKeyFiles w = (w', inr nodeKeyFiles) ∧
    w_fs w' !! privateKeyFile nodeKeyFiles =
      Some (File (PemConverter.encode (DerPkcs8 (key_material sk)) "PRIVATE KEY")) ∧
    w_fs w' !! certificateFile nodeKeyFiles =
      match chain with
      | [] => None
      | _ => Some (File (chain_pem chain))
      end ∧
    PemConverter.decode (chain_pem chain) = map DerCertificate chain ∧
    w_trace w' = w_trace w ++ stored_events (w_fs w) nodeKeyFiles chain.
Proof.
  intros Hnode Hdir Hkf Hcf Hne Hsk Htype Hext Hchain Hkd Hcd.
  eexists. split; [by apply (storeNodeKey_run _ _ _ _ sk chain)|]. simpl.
  unfold stored_fs. repeat split.
  - destruct chain; [rewrite lookup_delete_ne by done | rewrite lookup_insert_ne by done];
      by rewrite lookup_insert_eq.
  - destruct chain; [by rewrite lookup_delete_eq | by rewrite lookup_insert_eq].
  - apply decode_chain_pem.
Qed.

(** ** Loading a key *)

Lemma map_each_new_X509Certificate (chain : list X509Certificate) (w : World) :
  map_each (map DerCertificate chain) new_X509Certificate w = (w, inr chain).
Proof.
  induction chain as [|c chain IH]; simpl; [done|].
  unfold bind at 1. simpl. unfold bind at 1. by rewrite IH.
Qed.

Lemma readFileSync_run (p : string) (data : Text) (w : World) :
  w_fs w !! p = Some (File data) → fs.readFileSync p w = (w, inr data).
Proof. unfold fs.readFileSync. by intros ->. Qed.

Lemma readFileSync_inr (p : string) (data : Text) (w w' : World) :
  fs.readFileSync p w = (w', inr data) → w' = w ∧ w_fs w !! p = Some (File data).
Proof.
  unfold fs.readFileSync. destruct (w_fs w !! p) as [[d|]|]; intros; by simplify_eq.
Qed.

Lemma last_item (items : list Der) (lastItem : Der) :
  (items ++ [lastItem]) !! (length (items ++ [lastItem]) - 1) = Some lastItem.
Proof.
  rewrite length_app. simpl.
  replace (length items + 1 - 1) with (length items) by lia.
  by rewrite list_lookup_middle.
Qed.

Lemma convertPemToPrivateKey_last (pemStr : Text) (algo : Algorithm)
    (keyUsages : option (list KeyUsage)) (items : list Der) (lastItem : Der) :
  PemConverter.decode pemStr = items ++ [lastItem] →
  convertPemToPrivateKey pemStr (Some algo) keyUsages =
  subtle.importKey_pkcs8 (Some lastItem) algo false (default [usage_sign] keyUsages).
Proof.
  intros Hdec. unfold convertPemToPrivateKey. rewrite Hdec. by rewrite last_item.
Qed.

Lemma importKey_pkcs8_inr (keyData : option Der) (algo : Algorithm) (extractable : bool)
    (keyUsages : list KeyUsage) (w w' : World) (key : CryptoKey) :
  subtle.importKey_pkcs8 keyData algo extractable keyUsages w = (w', inr key) →
  ∃ material,
    w' = w ∧
    keyData = Some (DerPkcs8 material) ∧
    subtle.matches_family algo (km_family material) = true ∧
    key = mkKey private material
            (subtle.imported_algorithm algo (km_family material)) extractable
            (remove_dups keyUsages).
Proof.
  unfold subtle.importKey_pkcs8. destruct keyData as [keyData|]; [|done].
  destruct (existsb _ keyUsages); [done|].
  destruct keyData as [material| |]; try done.
  destruct (subtle.matches_family algo (km_family material)) eqn:Hm; [|done].
  case_bool_decide; [done|].
  unfold ret. intros. simplify_eq. by exists material.
Qed.

Lemma importKey_pkcs8_sign (material : KeyMaterial) (algo : Algorithm)
    (extractable : bool) (w : World) :
  subtle.matches_family algo (km_family material) = true →
  subtle.importKey_pkcs8 (Some (DerPkcs8 material)) algo extractable [usage_sign] w =
    (w, inr (mkKey private material
               (subtle.imported_algorithm algo (km_family material)) extractable
               [usage_sign])).
Proof. intros Hfam. unfold subtle.importKey_pkcs8. simpl. by rewrite Hfam. Qed.

Section load.
Context `{CryptoProvider} `{Constants} `{FriendlyName}.

Lemma loadNodeKey_inr (nodeId keysDir : string) (algo : Algorithm)
    (nodeKeyFiles : NodeKeyFiles) (w w' : World) (loaded : NodeKey) :
  loadNodeKey nodeId keysDir (Some algo) nodeKeyFiles w = (w', inr loaded) →
  ∃ keyPem key,
    w_fs w !! privateKeyFile nodeKeyFiles = Some (File keyPem) ∧
    convertPemToPrivateKey keyPem (Some algo) None w = (w, inr key) ∧
    privateKey loaded = Some key.
Proof.
  unfold loadNodeKey.
  destruct (falsy nodeId); [done|]. destruct (falsy keysDir); [done|].
  destruct (falsy (privateKeyFile nodeKeyFiles)); [done|].
  destruct (falsy (certificateFile nodeKeyFiles)); [done|].
  intros Hrun.
  apply bind_inr_inv in Hrun as (w1 & keyPem & Hread & Hrun).
  apply readFileSync_inr in Hread as [-> Hkey].
  apply bind_inr_inv in Hrun as (w1 & key & Hconv & Hrun).
  assert (w1 = w) as ->.
  { unfold convertPemToPrivateKey in Hconv.
    by apply importKey_pkcs8_inr in Hconv as (material & -> & _). }
  apply bind_inr_inv in Hrun as (w1 & certBytes & _ & Hrun).
  apply bind_inr_inv in Hrun as (w2 & certs & _ & Hrun).
  destruct certs as [|certs_0 certs_slice_1]; [done|].
  apply bind_inr_inv in Hrun as (w3 & certChain & _ & Hrun).
  unfold ret in Hrun. simplify_eq. by exists keyPem, key.
Qed.

(** A private key file whose last PEM block is a key that fits the
    algorithm, and a certificate file whose PEM blocks are certificates that
    the chain builder accepts: [loadNodeKey] returns. *)
Lemma loadNodeKey_run (nodeId keysDir : string) (algo : Algorithm)
    (nodeKeyFiles : NodeKeyFiles) (w : World) (keyPem certPem : Text)
    (items : list Der) (material : KeyMaterial)
    (cert : X509Certificate) (rest chain : list X509Certificate) :
  nodeId ≠ "" →
  keysDir ≠ "" →
  privateKeyFile nodeKeyFiles ≠ "" →
  certificateFile nodeKeyFiles ≠ "" →
  w_fs w !! privateKeyFile nodeKeyFiles = Some (File keyPem) →
  PemConverter.decode keyPem = items ++ [DerPkcs8 material] →
  w_fs w !! certificateFile nodeKeyFiles = Some (File certPem) →
  PemConverter.decode certPem = map DerCertificate (cert :: rest) →
  subtle.matches_family algo (km_family material) = true →
  build_chain rest cert = inr chain →
  loadNodeKey nodeId keysDir (Some algo) nodeKeyFiles w =
    (w, inr (loaded_key material algo cert chain)).
Proof.
  intros Hnode Hdir Hkf Hcf Hkey Hkeys Hcert Hcerts Hfam Hbuild.
  unfold loadNodeKey. rewrite !falsy_false by done.
  rewrite (bind_inr _ _ _ _ _ (readFileSync_run _ _ w Hkey)).
  erewrite bind_inr; last first.
  { rewrite (convertPemToPrivateKey_last _ _ _ _ _ Hkeys).
    by apply importKey_pkcs8_sign. }
  rewrite (bind_inr _ _ _ _ _ (readFileSync_run _ _ w Hcert)).
  rewrite Hcerts.
  rewrite (bind_inr _ _ _ _ _ (map_each_new_X509Certificate _ w)).
  unfold X509ChainBuilder_build. rewrite Hbuild. done.
Qed.
End load.

(** C8.  When the PEM blocks of a text are [items] followed by [lastItem],
    [convertPemToPrivateKey] imports [lastItem], the last block, as the
    private key; a file with one block and a bundle of certificates followed
    by a key are instances.  [loadNodeKey] reads the private key file and
    takes its key from there.  When the last block of that file is a key that
    fits the algorithm and the certificate file holds certificates that the
    chain builder accepts, [loadNodeKey] returns, whatever blocks stand
    before the last one, and the private key of its result has the key
    material of the last block; it may sign and is not extractable.  And
    whenever [loadNodeKey] returns, the last block is a key and the private
    key of the result is that key. *)
Theorem convertPemToPrivateKey_takes_last_block `{CryptoProvider}
    (pemStr : Text) (algo : Algorithm) (keyUsages : option (list KeyUsage))
    (items : list Der) (lastItem : Der) :
  PemConverter.decode pemStr = items ++ [lastItem] →
  convertPemToPrivateKey pemStr (Some algo) keyUsages =
    subtle.importKey_pkcs8 (Some lastItem) algo false (default [usage_sign] keyUsages) ∧
  (∀ nodeId keysDir nodeKeyFiles w material certPem cert rest chain,
     nodeId ≠ "" →
     keysDir ≠ "" →
     privateKeyFile nodeKeyFiles ≠ "" →
     certificateFile nodeKeyFiles ≠ "" →
     w_fs w !! privateKeyFile nodeKeyFiles = Some (File pemStr) →
     lastItem = DerPkcs8 material →
     subtle.matches_family algo (km_family material) = true →
     w_fs w !! certificateFile nodeKeyFiles = Some (File certPem) →
     PemConverter.decode certPem = map DerCertificate (cert :: rest) →
     build_chain rest cert = inr chain →
     ∃ loaded loadedKey,
       loadNodeKey nodeId keysDir (Some algo) nodeKeyFiles w = (w, inr loaded) ∧
       privateKey loaded = Some loadedKey ∧
       key_material loadedKey = material ∧
       key_type loadedKey = private ∧
       key_usages loadedKey = [usage_sign] ∧
       key_extractable loadedKey = false) ∧
  (∀ nodeId keysDir nodeKeyFiles w w' loaded,
     w_fs w !! privateKeyFile nodeKeyFiles = Some (File pemStr) →
     loadNodeKey nodeId keysDir (Some algo) nodeKeyFiles w = (w', inr loaded) →
     ∃ material loadedKey,
       lastItem = DerPkcs8 material ∧
       privateKey loaded = Some loadedKey ∧
       key_material loadedKey = material ∧
       key_type loadedKey = private ∧
       key_usages loadedKey = [usage_sign] ∧
       key_extractable loadedKey = false).
Proof.
  intros Hdec. split; [by eapply convertPemToPrivateKey_last|]. split.
  - intros nodeId keysDir nodeKeyFiles w material certPem cert rest chain
      Hnode Hdir Hkf Hcf Hfile -> Hfam Hcert Hcerts Hbuild.
    eexists _, _. split.
    { by apply (loadNodeKey_run _ _ _ _ _ pemStr certPem items material cert rest chain). }
    done.
  - intros nodeId keysDir nodeKeyFiles w w' loaded Hfile Hload.
    apply loadNodeKey_inr in Hload as (keyPem & key & Hfile' & Hconv & Hkey).
    rewrite Hfile in Hfile'. injection Hfile' as <-.
    rewrite (convertPemToPrivateKey_last _ _ _ _ _ Hdec) in Hconv.
    apply importKey_pkcs8_inr in Hconv as (material & _ & Hlast & _ & ->).
    exists material. eexists. split; [congruence|]. split; [done|]. done.
Qed.

(** C5.  Storing a key pair with [storeNodeKey] and loading it with
    [loadNodeKey] from the same files returns, for valid arguments and a key
    pair as the generators make them (an extractable private key of the
    algorithm that is loaded, a chain that starts with the certificate and
    that the chain builder accepts): the loaded certificate is the stored
    one, so it has the same serial number, subject and public key; the loaded
    private key has the key material of the stored one and may sign, so it
    signs as the stored key does, and whenever the certificate's public key
    verifies the signatures of the stored key it verifies those of the
    loaded key. *)
Theorem storeNodeKey_loadNodeKey_roundtrip `{CryptoProvider}
    (nodeId keysDir : string) (nodeKey : NodeKey) (nodeKeyFiles : NodeKeyFiles)
    (algo : Algorithm) (sk : CryptoKey) (cert : X509Certificate)
    (rest chain : list X509Certificate) (w : World) :
  nodeId ≠ "" →
  keysDir ≠ "" →
  privateKeyFile nodeKeyFiles ≠ "" →
  certificateFile nodeKeyFiles ≠ "" →
  privateKeyFile nodeKeyFiles ≠ certificateFile nodeKeyFiles →
  not_directory w (privateKeyFile nodeKeyFiles) →
  not_directory w (certificateFile nodeKeyFiles) →
  privateKey nodeKey = Some sk →
  key_type sk = private →
  key_extractable sk = true →
  subtle.matches_family algo (km_family (key_material sk)) = true →
  certificate nodeKey = Some cert →
  certificateChain nodeKey = Some (cert :: rest) →
  build_chain rest cert = inr chain →
  ∃ w1 loaded loadedKey loadedCert,
    storeNodeKey nodeId nodeKey keysDir nodeKeyFiles w = (w1, inr nodeKeyFiles) ∧
    loadNodeKey nodeId keysDir (Some algo) nodeKeyFiles w1 = (w1, inr loaded) ∧
    certificate loaded = Some loadedCert ∧
    serialNumber loadedCert = serialNumber cert ∧
    subject loadedCert = subject cert ∧
    publicKey loadedCert = publicKey cert ∧
    privateKey loaded = Some loadedKey ∧
    key_type loadedKey = private ∧
    usage_sign ∈ key_usages loadedKey ∧
    key_material loadedKey = key_material sk ∧
    ((∀ tbs, subtle_verify (publicKey cert) tbs
               (subtle_sign (key_material sk) tbs) = true) →
     ∀ tbs, subtle_verify (publicKey loadedCert) tbs
              (subtle_sign (key_material loadedKey) tbs) = true).
Proof.
  intros Hnode Hdir Hkf Hcf Hne Hkd Hcd Hsk Htype Hext Hfam Hcert Hchain Hbuild.
  eexists _, _, _, cert. split.
  { by apply (storeNodeKey_run _ _ _ _ sk (cert :: rest)). }
  split.
  { apply (loadNodeKey_run _ _ _ _ _
             (PemConverter.encode (DerPkcs8 (key_material sk)) "PRIVATE KEY")
             (chain_pem (cert :: rest)) [] (key_material sk) cert rest chain);
      try done.
    - simpl. rewrite lookup_insert_ne by done. by rewrite lookup_insert_eq.
    - simpl. by rewrite lookup_insert_eq.
    - apply decode_chain_pem. }
  simpl. repeat split; try done. by left.
Qed.

(** ** The chain builder has fuel enough *)

Section chain_fuel.
Context `{CryptoProvider}.

Lemma findIssuer_elem_of (certificates : list X509Certificate)
    (cert next : X509Certificate) :
  findIssuer certificates cert = Some next → next ∈ certificates.
Proof.
  unfold findIssuer. destruct (isSelfSigned cert); [done|].
  intros Hfind. apply find_some in Hfind as [Hin _]. by apply list_elem_of_In.
Qed.

(** [pushed] are the certificates that the loop has appended so far: they
    are different certificates of the pool, so there are no more of them
    than the pool has certificates, and the rounds that are left suffice. *)
Lemma build_loop_enough (certificates : list X509Certificate) (fuel extra : nat)
    (chain pushed : list X509Certificate) (current : X509Certificate) :
  NoDup pushed →
  (∀ x, x ∈ pushed → x ∈ certificates ∧ x ∈ chain) →
  length certificates < fuel + length pushed →
  build_loop (fuel + extra) certificates chain current =
  build_loop fuel certificates chain current.
Proof.
  revert chain pushed current.
  induction fuel as [|fuel IH]; intros chain pushed current Hnodup Hpushed Hlen.
  - assert (length pushed ≤ length certificates); [|lia].
    apply submseteq_length, NoDup_submseteq; [done|]. intros x Hx. by apply Hpushed.
  - simpl. destruct (findIssuer certificates current) as [next|] eqn:Hfind; [|done].
    case_bool_decide as Hin; [done|].
    apply (IH _ (next :: pushed)).
    + constructor; [|done]. intros Hp. apply Hin. by apply Hpushed.
    + intros x [->|Hx]%elem_of_cons.
      * split; [by eapply findIssuer_elem_of|]. apply elem_of_app. right. by left.
      * destruct (Hpushed x Hx). split; [done|]. apply elem_of_app. by left.
    + simpl. lia.
Qed.

(** More rounds than [build_chain] allows never change its result. *)
Lemma build_chain_enough (certificates : list X509Certificate)
    (cert : X509Certificate) (extra : nat) :
  build_loop (S (length certificates) + extra) certificates [cert] cert =
  build_chain certificates cert.
Proof.
  unfold build_chain. apply (build_loop_enough _ _ _ _ []).
  - constructor.
  - by intros x ?%elem_of_nil.
  - simpl. lia.
Qed.
End chain_fuel.

(** ** Generating keys *)

Section generate.
Context `{CryptoProvider} `{Constants} `{FriendlyName}.

Lemma findIssuer_nil (cert : X509Certificate) : findIssuer [] cert = None.
Proof. unfold findIssuer. by destruct (isSelfSigned cert). Qed.

Lemma build_chain_nil (cert : X509Certificate) : build_chain [] cert = inr [cert].
Proof. unfold build_chain. simpl. by rewrite findIssuer_nil. Qed.

(** A certificate is never found as its own issuer: that would make it
    self-signed, and then no issuer is looked for. *)
Lemma findIssuer_self (cert : X509Certificate) : findIssuer [cert] cert = None.
Proof.
  unfold findIssuer. destruct (isSelfSigned cert) eqn:Hself; [done|]. simpl.
  unfold isSelfSigned in Hself.
  destruct (bool_decide (subject cert = issuer cert)); simpl in *; [|done].
  rewrite Hself. by rewrite andb_false_r.
Qed.

(** The chain of a certificate over a pool of one certificate that issued
    it. *)
Lemma build_chain_issuer (sc cert : X509Certificate) :
  issuer cert = subject sc →
  getAuthorityKeyIdentifier (extensions cert) = None →
  cert_verify_signatureOnly cert (publicKey sc) = true →
  build_chain [sc] cert = inr (if isSelfSigned cert then [cert] else [cert; sc]).
Proof.
  intros Hissuer Haki Hverify. unfold build_chain. simpl.
  unfold findIssuer at 1. destruct (isSelfSigned cert) eqn:Hself; [done|].
  rewrite Haki. simpl. rewrite bool_decide_eq_true_2 by done. rewrite Hverify. simpl.
  assert (sc ≠ cert) as Hne.
  { intros ->. unfold isSelfSigned in Hself.
    rewrite bool_decide_eq_true_2, Hverify in Hself; done. }
  rewrite bool_decide_eq_false_2 by (by intros ->%list_elem_of_singleton).
  by rewrite findIssuer_self.
Qed.

Lemma ecKey_run (nodeId keyPrefix : string) (signingKey : NodeKey) (sk : CryptoKey)
    (sc : X509Certificate) (w : World) :
  nodeId ≠ "" →
  keyPrefix ≠ "" →
  privateKey signingKey = Some sk →
  certificate signingKey = Some sc →
  key_type sk = private →
  usage_sign ∈ key_usages sk →
  ecKey nodeId keyPrefix (Some signingKey) w =
    (after_generateKey w,
     if cert_verify_signatureOnly (ec_cert nodeId keyPrefix sk sc w) (publicKey sc)
     then inr {| privateKey := Some (pair_privateKey (ec_keypair w));
                 certificate := Some (ec_cert nodeId keyPrefix sk sc w);
                 certificateChain :=
                   Some (if isSelfSigned (ec_cert nodeId keyPrefix sk sc w)
                         then [ec_cert nodeId keyPrefix sk sc w]
                         else [ec_cert nodeId keyPrefix sk sc w; sc]) |}
     else inl (verification_failure nodeId keyPrefix)).
Proof.
  intros Hnode Hprefix Hsk Hsc Htype Husage.
  unfold ecKey. rewrite !falsy_false by done.
  unfold try_catch, bind, new_Date, subtle.generateKey. simpl.
  rewrite Hsc, Hsk. unfold X509CertificateGenerator_create. simpl.
  rewrite Htype.
  assert (existsb (subtle.is_usage usage_sign) (key_usages sk) = true) as ->.
  { apply existsb_exists. exists usage_sign. split; [|done]. by apply list_elem_of_In. }
  unfold ret. fold (ec_tbs nodeId keyPrefix sc w). fold (ec_cert nodeId keyPrefix sk sc w).
  destruct (cert_verify_signatureOnly (ec_cert nodeId keyPrefix sk sc w) (publicKey sc))
    eqn:Hverify; simpl; [|done].
  unfold X509ChainBuilder_build, lift_result.
  by rewrite (build_chain_issuer sc (ec_cert nodeId keyPrefix sk sc w)).
Qed.
End generate.

Section generate_claims.
Context `{CryptoProvider} `{Constants} `{FriendlyName}.

Lemma generateSigningKey_run (nodeId : string) (w : World) :
  generateSigningKey nodeId w = (after_generateKey w, inr (signing_key nodeId w)).
Proof.
  unfold generateSigningKey, try_catch, bind, new_Date, subtle.generateKey,
    X509CertificateGenerator_createSelfSigned, X509CertificateGenerator_create,
    X509ChainBuilder_build, lift_result.
  simpl. by rewrite build_chain_nil.
Qed.

Lemma ecKey_inr (nodeId keyPrefix : string) (signingKey : NodeKey)
    (w w' : World) (key : NodeKey) :
  ecKey nodeId keyPrefix (Some signingKey) w = (w', inr key) →
  ∃ sk sc,
    nodeId ≠ "" ∧ keyPrefix ≠ "" ∧
    privateKey signingKey = Some sk ∧ certificate signingKey = Some sc ∧
    key_type sk = private ∧ usage_sign ∈ key_usages sk.
Proof.
  unfold ecKey, falsy.
  case_bool_decide as Hnode; [done|]. case_bool_decide as Hprefix; [done|].
  unfold try_catch, bind, new_Date, subtle.generateKey. simpl.
  destruct (certificate signingKey) as [sc|]; [|done].
  destruct (privateKey signingKey) as [sk|]; [|done].
  unfold X509CertificateGenerator_create. simpl.
  destruct (key_type sk) eqn:Htype; [|done].
  destruct (existsb (subtle.is_usage usage_sign) (key_usages sk)) eqn:Husage; [|done].
  intros _. exists sk, sc. repeat split; try done.
  apply existsb_exists in Husage as (u & Hin & Hu).
  destruct u; [|done]. by apply list_elem_of_In.
Qed.
End generate_claims.

(** C4 (amended).  [generateAgreementKey], given a node ID and a signing key
    whose private key may sign, generates one EC P-384 key pair and issues
    one certificate for its public key: the issuer is the subject of the
    signing key's certificate and the signature is made with the signing
    key's private key.  Before returning it verifies that signature with the
    public key of the signing key's certificate.  When the verification
    succeeds it returns the EC private key with the certificate; when it
    fails it throws a [FullstackTestingError] whose cause is the
    [FullstackTestingError] of the failed verification.  Either way exactly
    one key pair was generated and nothing else happened: the failure is not
    retried. *)
Theorem generateAgreementKey_verifies_before_returning
    `{CryptoProvider} `{Constants} `{FriendlyName}
    (nodeId : string) (signingKey : NodeKey) (sk : CryptoKey) (sc : X509Certificate)
    (w : World) :
  nodeId ≠ "" →
  privateKey signingKey = Some sk →
  certificate signingKey = Some sc →
  key_type sk = private →
  usage_sign ∈ key_usages sk →
  let cert := ec_cert nodeId AGREEMENT_KEY_PREFIX sk sc w in
  let run := generateAgreementKey nodeId (Some signingKey) w in
  issuer cert = subject sc ∧
  cert_signature cert = subtle_sign (key_material sk) (cert_tbs cert) ∧
  km_family (publicKey cert) = EC "P-384" ∧
  run.1 = after_generateKey w ∧
  (cert_verify_signatureOnly cert (publicKey sc) = true →
   ∃ key k, run.2 = inr key ∧ certificate key = Some cert ∧
            privateKey key = Some k ∧ key_type k = private ∧
            key_algorithm k = KeyManager.ECKeyAlgo ∧
            key_material k = publicKey cert) ∧
  (cert_verify_signatureOnly cert (publicKey sc) = false →
   run.2 = inl (verification_failure nodeId AGREEMENT_KEY_PREFIX) ∧
   err_name (verification_failure nodeId AGREEMENT_KEY_PREFIX) = "FullstackTestingError").
Proof.
  intros Hnode Hsk Hsc Htype Husage cert run. subst cert run.
  unfold generateAgreementKey.
  rewrite (ecKey_run nodeId AGREEMENT_KEY_PREFIX signingKey sk sc w) by done.
  simpl. split; [done|]. split; [done|]. split; [done|]. split; [done|].
  destruct (cert_verify_signatureOnly _ _); split; intros Hv; try done.
  by eexists _, _.
Qed.

(** C6.  The key pair that [generateSigningKey] returns has a certificate
    whose issuer is its subject, signed with the private key of the pair,
    and its chain is that certificate alone.  A key pair that
    [generateAgreementKey] returns, for a signing key whose certificate has
    another subject than the agreement certificate, has a certificate whose
    issuer is the subject of the signing certificate, which the signing
    certificate's public key verifies, and its chain is the agreement
    certificate followed by the signing certificate, where it ends. *)
Theorem generated_certificate_chains `{CryptoProvider} `{Constants} `{FriendlyName}
    (nodeId : string) (w : World) :
  (∃ key sk cert,
     generateSigningKey nodeId w = (after_generateKey w, inr key) ∧
     privateKey key = Some sk ∧
     certificate key = Some cert ∧
     issuer cert = subject cert ∧
     publicKey cert = key_material sk ∧
     cert_signature cert = subtle_sign (key_material sk) (cert_tbs cert) ∧
     certificateChain key = Some [cert]) ∧
  (∀ signingKey sc w' agreementKey,
     certificate signingKey = Some sc →
     subject sc ≠ "CN=" +:+ renderNodeFriendlyName AGREEMENT_KEY_PREFIX nodeId →
     generateAgreementKey nodeId (Some signingKey) w = (w', inr agreementKey) →
     ∃ cert,
       certificate agreementKey = Some cert ∧
       issuer cert = subject sc ∧
       cert_verify_signatureOnly cert (publicKey sc) = true ∧
       certificateChain agreementKey = Some [cert; sc] ∧
       last [cert; sc] = Some sc).
Proof.
  split.
  - eexists _, _, _. split; [apply generateSigningKey_run|]. by simpl.
  - intros signingKey sc w' agreementKey Hsc Hsubject Hrun.
    unfold generateAgreementKey in Hrun.
    pose proof (ecKey_inr _ _ _ _ _ _ Hrun) as (sk & sc' & Hnode & _ & Hsk & Hsc' & Htype & Hus).
    rewrite Hsc in Hsc'. injection Hsc' as <-.
    rewrite (ecKey_run nodeId AGREEMENT_KEY_PREFIX signingKey sk sc w) in Hrun by done.
    destruct (cert_verify_signatureOnly _ _) eqn:Hverify; [|by simplify_eq].
    injection Hrun as <- <-. eexists. simpl. repeat split; try done.
    unfold isSelfSigned. rewrite bool_decide_eq_false_2; [done|].
    intros Heq. apply Hsubject. symmetry. exact Heq.
Qed.

(** ** The public store *)

Lemma certFile_ne_publicPfx (tmpDir keysDir nodeId keyPrefix : string) :
  String.length keyPrefix = 1 →
  has_char "/" keyPrefix = false →
  path.join [tmpDir; nodeId +:+ "-cert-" +:+ keyPrefix +:+ ".pfx"] ≠
  path.join [keysDir; "public.pfx"].
Proof.
  intros Hlen Hsep Heq.
  assert (has_char "/" ("-cert-" +:+ keyPrefix +:+ ".pfx") = false) as Hsuffix
    by (by rewrite !has_char_app, Hsep).
  assert (3 ≤ String.length ("-cert-" +:+ keyPrefix +:+ ".pfx")) as Hlong
    by (rewrite !string_app_length, Hlen; simpl; lia).
  pose proof (is_name_last_segment_suffix nodeId _ Hsuffix Hlong) as Hname.
  apply (f_equal last_segment) in Heq.
  rewrite !path_join_2_last_segment in Heq by done.
  rewrite last_segment_suffix in Heq by done.
  apply (f_equal String.length) in Heq.
  rewrite !string_app_length, Hlen in Heq. simpl in Heq. lia.
Qed.

Lemma trace_grows_keytool_run (Q : Event → Prop) command alias keystore target result :
  Q (EvKeytool command alias keystore) →
  preserves (trace_grows_with Q) (keytool_run command alias keystore target result).
Proof.
  intros HQ w. unfold keytool_run.
  destruct (result w) as [data|]; [destruct (w_fs w !! target) as [[?|]|]|]; simpl;
    exists [EvKeytool command alias keystore]; split; try done; by constructor.
Qed.

Lemma trace_grows_cpSync (Q : Event → Prop) src dest :
  Q (EvWriteFile dest) → preserves (trace_grows_with Q) (fs.cpSync src dest).
Proof.
  intros HQ w. unfold fs.cpSync.
  destruct (w_fs w !! src) as [[data|]|]; simpl; [|reflexivity..].
  destruct (decide (src = dest)); simpl; [reflexivity|].
  destruct (w_fs w !! dest) as [[?|]|]; simpl; try reflexivity;
    exists [EvWriteFile dest]; split; try done; by constructor.
Qed.

Lemma keytool_run_inr command alias keystore target result w w' :
  keytool_run command alias keystore target result w = (w', inr tt) →
  w_trace w' = w_trace w ++ [EvKeytool command alias keystore].
Proof.
  unfold keytool_run.
  destruct (result w) as [data|]; [destruct (w_fs w !! target) as [[?|]|]|];
    intros; by simplify_eq.
Qed.

Section public_pfx.
Context `{Constants}.
Context (kt : Keytool) (keysDir tmpDir : string).

#[local] Abbreviation publicPfxFile := (path.join [keysDir; "public.pfx"]).
#[local] Abbreviation tmpPublicPfxFile := (path.join [tmpDir; PUBLIC_PFX]).
#[local] Abbreviation validity := (CERTIFICATE_VALIDITY_YEARS * 365).

Lemma updatePublicPfxKey_unfold (nodeIds : list string) (w : World) :
  updatePublicPfxKey (Some kt) (Some nodeIds) keysDir tmpDir w =
  (if falsy keysDir then throw (MissingArgumentError "keysDir is required") else
   let* keysDir_present := fs.existsSync keysDir in
   if negb keysDir_present then throw (MissingArgumentError "keysDir does not exist") else
   updatePublicPfxKey_work kt keysDir tmpDir nodeIds >>
   fs.cpSync tmpPublicPfxFile publicPfxFile >>
   ret publicPfxFile) w.
Proof.
  unfold updatePublicPfxKey, updatePublicPfxKey_work.
  destruct (falsy keysDir); [done|].
  unfold bind. repeat case_match; by simplify_eq.
Qed.

Context (Hdirs : tmpPublicPfxFile ≠ publicPfxFile).

Lemma updatePublicPfxKey_node_frame nodeId :
  preserves (unchanged_at publicPfxFile)
    (updatePublicPfxKey_node kt keysDir tmpDir tmpPublicPfxFile validity nodeId).
Proof.
  unfold updatePublicPfxKey_node, exportAndImportCert, Keytool_exportCert,
    Keytool_importCert.
  cbn [for_each].
  repeat first
    [ preserves_step
    | apply unchanged_at_keytool_run; first [ exact Hdirs | by apply certFile_ne_publicPfx ] ].
Qed.

Lemma updatePublicPfxKey_node_trace nodeId :
  preserves (trace_grows_with (λ ev, ¬ touches publicPfxFile ev))
    (updatePublicPfxKey_node kt keysDir tmpDir tmpPublicPfxFile validity nodeId).
Proof.
  unfold updatePublicPfxKey_node, exportAndImportCert, Keytool_exportCert,
    Keytool_importCert.
  cbn [for_each].
  repeat first
    [ preserves_step
    | apply trace_grows_keytool_run; by intros [?|?] ].
Qed.

Lemma updatePublicPfxKey_work_frame nodeIds :
  preserves (unchanged_at publicPfxFile) (updatePublicPfxKey_work kt keysDir tmpDir nodeIds).
Proof.
  unfold updatePublicPfxKey_work.
  repeat first
    [ apply preserves_for_each; [apply _|intros ? _; apply updatePublicPfxKey_node_frame]
    | preserves_step
    | apply unchanged_at_cpSync; exact Hdirs ].
Qed.

Lemma updatePublicPfxKey_work_trace nodeIds :
  preserves (trace_grows_with (λ ev, ¬ touches publicPfxFile ev))
    (updatePublicPfxKey_work kt keysDir tmpDir nodeIds).
Proof.
  unfold updatePublicPfxKey_work.
  repeat first
    [ apply preserves_for_each; [apply _|intros ? _; apply updatePublicPfxKey_node_trace]
    | preserves_step
    | apply trace_grows_cpSync; intros [?|?]; simplify_eq ].
Qed.
End public_pfx.

Section public_pfx_success.
Context `{Constants}.
Context (kt : Keytool) (keysDir tmpDir : string).

#[local] Abbreviation publicPfxFile := (path.join [keysDir; "public.pfx"]).
#[local] Abbreviation tmpPublicPfxFile := (path.join [tmpDir; PUBLIC_PFX]).
#[local] Abbreviation validity := (CERTIFICATE_VALIDITY_YEARS * 365).
#[local] Abbreviation privatePfxFile nodeId :=
  (path.join [keysDir; "private-" +:+ nodeId +:+ ".pfx"]).

Lemma exportAndImportCert_inr nodeId keyPrefix w w' :
  exportAndImportCert kt nodeId tmpDir (privatePfxFile nodeId) tmpPublicPfxFile
    validity keyPrefix w = (w', inr tt) →
  w_trace w' = w_trace w ++
    [ EvKeytool "-exportcert" (keyPrefix +:+ "-" +:+ nodeId) (privatePfxFile nodeId);
      EvKeytool "-importcert" (keyPrefix +:+ "-" +:+ nodeId) tmpPublicPfxFile ].
Proof.
  unfold exportAndImportCert, Keytool_exportCert, Keytool_importCert. intros Hrun.
  apply bind_inr_inv in Hrun as (w1 & [] & Hexp & Himp).
  apply keytool_run_inr in Hexp. apply keytool_run_inr in Himp.
  rewrite Himp, Hexp. by rewrite <- app_assoc.
Qed.

Lemma updatePublicPfxKey_node_nothing_removed nodeId :
  preserves nothing_removed
    (updatePublicPfxKey_node kt keysDir tmpDir tmpPublicPfxFile validity nodeId).
Proof.
  unfold updatePublicPfxKey_node, exportAndImportCert, Keytool_exportCert,
    Keytool_importCert.
  cbn [for_each].
  repeat first [ preserves_step | apply nothing_removed_keytool_run ].
Qed.

Lemma updatePublicPfxKey_node_inr nodeId w w' :
  updatePublicPfxKey_node kt keysDir tmpDir tmpPublicPfxFile validity nodeId w =
    (w', inr tt) →
  is_Some (w_fs w !! privatePfxFile nodeId) ∧
  w_trace w' = w_trace w ++ publicPfx_node_events keysDir tmpPublicPfxFile nodeId.
Proof.
  unfold updatePublicPfxKey_node. intros Hrun.
  apply bind_inr_inv in Hrun as (w1 & present & Hex & Hrun).
  unfold fs.existsSync in Hex. injection Hex as <- <-.
  case_bool_decide as Hpresent; [|done]. split; [done|].
  cbn [negb for_each] in Hrun.
  apply bind_inr_inv in Hrun as (w1 & [] & Hs & Hrun).
  apply bind_inr_inv in Hrun as (w2 & [] & Ha & Hrun).
  apply bind_inr_inv in Hrun as (w3 & [] & He & Hrun).
  unfold ret in Hrun. injection Hrun as <-.
  apply exportAndImportCert_inr in Hs, Ha, He.
  rewrite He, Ha, Hs. unfold publicPfx_node_events. simpl.
  by rewrite <- !app_assoc.
Qed.

Lemma updatePublicPfxKey_loop_inr nodeIds w w' :
  for_each nodeIds
    (updatePublicPfxKey_node kt keysDir tmpDir tmpPublicPfxFile validity) w =
    (w', inr tt) →
  w_trace w' = w_trace w ++ publicPfx_events keysDir tmpPublicPfxFile nodeIds ∧
  ∀ nodeId, nodeId ∈ nodeIds → is_Some (w_fs w' !! privatePfxFile nodeId).
Proof.
  revert w. induction nodeIds as [|n rest IH]; intros w Hrun.
  - unfold for_each, ret in Hrun. injection Hrun as <-. split.
    + by rewrite app_nil_r.
    + by intros ? ?%elem_of_nil.
  - cbn [for_each] in Hrun.
    apply bind_inr_inv in Hrun as (w1 & [] & Hnode & Hrest).
    assert (nothing_removed w1 w') as Hmono.
    { eapply preserves_run; [|exact Hrest].
      apply preserves_for_each; [apply _|]. intros x _.
      apply updatePublicPfxKey_node_nothing_removed. }
    assert (nothing_removed w w1) as Hmono1.
    { eapply preserves_run; [|exact Hnode].
      apply updatePublicPfxKey_node_nothing_removed. }
    apply updatePublicPfxKey_node_inr in Hnode as [Hpresent Htrace].
    apply IH in Hrest as [Htrace' Hall]. split.
    + rewrite Htrace', Htrace. unfold publicPfx_events. simpl.
      by rewrite <- !app_assoc.
    + intros nodeId [->|Hin]%elem_of_cons; [|by apply Hall].
      by apply Hmono, Hmono1.
Qed.
End public_pfx_success.

(** C9.  With a temporary copy that is another file than [public.pfx] of
    the keys directory, [updatePublicPfxKey] changes that [public.pfx] only
    by its last step.  When the call throws (a missing argument, a missing
    [private-<nodeId>.pfx], a keytool invocation that fails, or any other
    error), the node at [public.pfx] in the keys directory is what it was
    and the trace holds no write and no removal of it.  When the call
    returns, every listed node has its [private-<nodeId>.pfx], the trace
    shows the copy to the temporary file (when there was a [public.pfx]),
    then an export and an import into the temporary copy for each node and
    each of its three keys, and last the one write of [public.pfx], which is
    then the temporary copy. *)
Theorem updatePublicPfxKey_atomic `{Constants} (keytool : option Keytool)
    (nodeIds : option (list string)) (keysDir tmpDir : string) (w : World) :
  path.join [tmpDir; PUBLIC_PFX] ≠ path.join [keysDir; "public.pfx"] →
  let publicPfxFile := path.join [keysDir; "public.pfx"] in
  let tmpPublicPfxFile := path.join [tmpDir; PUBLIC_PFX] in
  let run := updatePublicPfxKey keytool nodeIds keysDir tmpDir w in
  match run.2 with
  | inl e =>
      w_fs run.1 !! publicPfxFile = w_fs w !! publicPfxFile ∧
      trace_grows_with (λ ev, ¬ touches publicPfxFile ev) w run.1
  | inr p =>
      p = publicPfxFile ∧
      ∃ ids,
        nodeIds = Some ids ∧
        (∀ nodeId, nodeId ∈ ids →
           is_Some (w_fs run.1 !! path.join [keysDir; "private-" +:+ nodeId +:+ ".pfx"])) ∧
        w_trace run.1 =
          w_trace w ++
          (if bool_decide (is_Some (w_fs w !! publicPfxFile))
           then [EvWriteFile tmpPublicPfxFile] else []) ++
          publicPfx_events keysDir tmpPublicPfxFile ids ++
          [EvWriteFile publicPfxFile] ∧
        w_fs run.1 !! publicPfxFile = w_fs run.1 !! tmpPublicPfxFile
  end.
Proof.
  intros Hdirs publicPfxFile tmpPublicPfxFile run.
  destruct run as [w' r] eqn:Hrun. subst run publicPfxFile tmpPublicPfxFile.
  cbn [fst snd].
  assert (∀ e, (w, @inl JsError string e) = (w', r) →
            match r with
            | inl _ =>
                w_fs w' !! path.join [keysDir; "public.pfx"] =
                  w_fs w !! path.join [keysDir; "public.pfx"] ∧
                trace_grows_with
                  (λ ev, ¬ touches (path.join [keysDir; "public.pfx"]) ev) w w'
            | inr _ => False
            end) as Hthrow.
  { intros e [= <- <-]. split; [done|reflexivity]. }
  destruct keytool as [kt|]; [|apply Hthrow in Hrun; by destruct r].
  destruct nodeIds as [nodeIds|]; [|apply Hthrow in Hrun; by destruct r].
  rewrite updatePublicPfxKey_unfold in Hrun.
  destruct (falsy keysDir).
  { apply Hthrow in Hrun. by destruct r. }
  unfold bind at 1, fs.existsSync at 1 in Hrun.
  destruct (bool_decide (is_Some (w_fs w !! keysDir))); cbn [negb] in Hrun;
    [|apply Hthrow in Hrun; by destruct r].
  clear Hthrow.
  pose proof (updatePublicPfxKey_work_frame kt keysDir tmpDir Hdirs nodeIds w) as Hframe.
  pose proof (updatePublicPfxKey_work_trace kt keysDir tmpDir Hdirs nodeIds w) as Htrace.
  unfold bind at 1 in Hrun.
  destruct (updatePublicPfxKey_work kt keysDir tmpDir nodeIds w) as [w1 [e|[]]] eqn:Hwork;
    simpl in Hframe, Htrace.
  { by injection Hrun as <- <-. }
  unfold bind at 1 in Hrun.
  destruct (fs.cpSync (path.join [tmpDir; PUBLIC_PFX]) (path.join [keysDir; "public.pfx"]) w1)
    as [w2 [e|[]]] eqn:Hcp.
  - (* the copy back fails: nothing was written *)
    assert (w2 = w1) as ->.
    { unfold fs.cpSync in Hcp. repeat case_match; by simplify_eq. }
    by injection Hrun as <- <-.
  - (* the call returns *)
    unfold ret in Hrun. injection Hrun as <- <-.
    apply cpSync_inr in Hcp as (data & Htmp & ->). simpl.
    split; [done|]. exists nodeIds. split; [done|].
    unfold updatePublicPfxKey_work in Hwork.
    apply bind_inr_inv in Hwork as (w0 & present & Hex & Hwork).
    unfold fs.existsSync in Hex. injection Hex as <- <-.
    apply bind_inr_inv in Hwork as (w0 & [] & Hcopy & Hloop).
    apply updatePublicPfxKey_loop_inr in Hloop as [Hevents Hall].
    split; [|split].
    + intros nodeId Hin. specialize (Hall nodeId Hin).
      rewrite lookup_insert. by case_decide.
    + rewrite Hevents.
      case_bool_decide as Hpresent.
      * apply cpSync_inr in Hcopy as (data0 & _ & ->). simpl.
        by rewrite <- !app_assoc.
      * unfold ret in Hcopy. injection Hcopy as <-. simpl.
        by rewrite <- !app_assoc.
    + rewrite lookup_insert_eq. rewrite lookup_insert_ne by done.
      symmetry. exact Htmp.
Qed.

(** ** Backups *)

(** C10.  The three backup functions on one keys directory that holds the
    gossip PEM keys, the PFX keystore and the TLS key of [node1].
    [backupOldPfxKeys] and [backupOldTlsKeys] move the node's file into the
    dated backup directory and return that directory.  [backupOldPemKeys]
    returns its backup directory too, but it looks for
    [node1-private-undefined.pem]: the signing and agreement key files of the
    node stay where they are and no copy of them is made. *)
Theorem backupOldPemKeys_leaves_gossip_keys :
  let pem := backupOldPemKeys ["node1"] "keys" (Some sample_date) None sample_key_world in
  let pfx := backupOldPfxKeys ["node1"] "keys" (Some sample_date) None sample_key_world in
  let tls := backupOldTlsKeys ["node1"] "keys" (Some sample_date) None sample_key_world in
  (pem.2 = inr "keys/unused-gossip-pem/20240005_030405" ∧
   backup_fileMap "keys" "keys/unused-gossip-pem/20240005_030405"
     (λ nodeId, Templates.renderGossipPemPrivateKeyFile (Some nodeId) None) ["node1"] =
     [("keys/node1-private-undefined.pem",
       "keys/unused-gossip-pem/20240005_030405/node1-private-undefined.pem")] ∧
   w_fs pem.1 !! "keys/s-private-node1.pem" =
     Some (File [RawChunk "signing key of node1"]) ∧
   w_fs pem.1 !! "keys/a-private-node1.pem" =
     Some (File [RawChunk "agreement key of node1"]) ∧
   w_fs pem.1 !! "keys/unused-gossip-pem/20240005_030405/s-private-node1.pem" = None ∧
   w_fs pem.1 !! "keys/unused-gossip-pem/20240005_030405/a-private-node1.pem" = None ∧
   w_trace pem.1 = [EvMkdir "keys/unused-gossip-pem/20240005_030405"]) ∧
  (pfx.2 = inr "keys/unused-gossip-pfx/20240005_030405" ∧
   w_fs pfx.1 !! "keys/private-node1.pfx" = None ∧
   w_fs pfx.1 !! "keys/unused-gossip-pfx/20240005_030405/private-node1.pfx" =
     Some (File [RawChunk "keystore of node1"])) ∧
  (tls.2 = inr "keys/unused-tls/20240005_030405" ∧
   w_fs tls.1 !! "keys/hedera-node1.key" = None ∧
   w_fs tls.1 !! "keys/unused-tls/20240005_030405/hedera-node1.key" =
     Some (File [RawChunk "TLS key of node1"])).
Proof. vm_compute. repeat split. Qed.
(** ** Loading reads only *)

#[global] Instance same_files_preorder : PreOrder same_files.
Proof.
  split.
  - by intros w.
  - intros a b c (? & ? & ?) (? & ? & ?). repeat split; congruence.
Qed.

Section reads_only.
Context `{CryptoProvider} `{Constants} `{FriendlyName}.
Context (R : relation World) `{!PreOrder R}.

Lemma preserves_importKey_pkcs8 keyData algo extractable keyUsages :
  preserves R (subtle.importKey_pkcs8 keyData algo extractable keyUsages).
Proof. unfold subtle.importKey_pkcs8. repeat preserves_step. Qed.

Lemma preserves_convertPemToPrivateKey pemStr algo keyUsages :
  preserves R (convertPemToPrivateKey pemStr algo keyUsages).
Proof.
  unfold convertPemToPrivateKey.
  repeat first [ preserves_step | apply preserves_importKey_pkcs8 ].
Qed.

Lemma preserves_new_X509Certificate raw : preserves R (new_X509Certificate raw).
Proof. unfold new_X509Certificate. repeat preserves_step. Qed.

Lemma preserves_loadNodeKey nodeId keysDir algo nodeKeyFiles :
  preserves R (loadNodeKey nodeId keysDir algo nodeKeyFiles).
Proof.
  unfold loadNodeKey, X509ChainBuilder_build.
  repeat first
    [ preserves_step
    | apply preserves_convertPemToPrivateKey
    | apply preserves_map_each; [apply _|intros ?; apply preserves_new_X509Certificate] ].
Qed.

Lemma preserves_prepareNodeKeyFilePaths nodeId keysDir keyPrefix :
  preserves R (prepareNodeKeyFilePaths nodeId keysDir keyPrefix).
Proof. unfold prepareNodeKeyFilePaths. repeat preserves_step. Qed.

Lemma preserves_prepareTLSKeyFilePaths nodeId keysDir :
  preserves R (prepareTLSKeyFilePaths nodeId keysDir).
Proof. unfold prepareTLSKeyFilePaths. repeat preserves_step. Qed.
End reads_only.

(** X1.  Loading a key reads and never writes: whatever the arguments and
    whatever the files hold, and whether the call returns a key or throws,
    [loadNodeKey] and its three callers [loadSigningKey], [loadAgreementKey]
    and [loadTLSKey] end in the world they started in (same files, same
    trace of effects, same entropy). *)
Theorem loadNodeKey_reads_only `{CryptoProvider} `{Constants} `{FriendlyName}
    (nodeId keysDir : string) (algo : option Algorithm) (nodeKeyFiles : NodeKeyFiles)
    (w : World) :
  (loadNodeKey nodeId keysDir algo nodeKeyFiles w).1 = w ∧
  (loadSigningKey nodeId keysDir w).1 = w ∧
  (loadAgreementKey nodeId keysDir w).1 = w ∧
  (loadTLSKey nodeId keysDir w).1 = w.
Proof.
  repeat split; symmetry.
  - by apply (preserves_loadNodeKey eq).
  - apply (preserves_bind eq); [apply (preserves_prepareNodeKeyFilePaths eq)|].
    intros ?. apply (preserves_loadNodeKey eq).
  - apply (preserves_bind eq); [apply (preserves_prepareNodeKeyFilePaths eq)|].
    intros ?. apply (preserves_loadNodeKey eq).
  - apply (preserves_bind eq); [apply (preserves_prepareTLSKeyFilePaths eq)|].
    intros ?. apply (preserves_loadNodeKey eq).
Qed.

(** X2.  Generating a key writes nothing: [generateSigningKey],
    [generateAgreementKey] and [generateGrpcTLSKey] leave every file, the
    trace of file and keytool effects and the clock as they were, whether
    they return a key or throw; only the [store] functions write. *)
Theorem generators_write_nothing `{CryptoProvider} `{Constants} `{FriendlyName}
    (nodeId : string) (signingKey : option NodeKey) (distinguishedName : option string)
    (w : World) :
  same_files w (generateSigningKey nodeId w).1 ∧
  same_files w (generateAgreementKey nodeId signingKey w).1 ∧
  same_files w (generateGrpcTLSKey nodeId distinguishedName w).1.
Proof.
  repeat split.
  all: first
    [ by apply (preserves_generateSigningKey same_files)
    | by apply (preserves_ecKey same_files)
    | by apply (preserves_generateGrpcTLSKey same_files) ].
Qed.
(** ** The gRPC TLS key and the validity of generated certificates *)

Section generate_tls.
Context `{CryptoProvider} `{Constants} `{FriendlyName}.

Lemma generateGrpcTLSKey_run (nodeId : string) (distinguishedName : option string)
    (w : World) :
  nodeId ≠ "" →
  distinguishedName ≠ Some "" →
  generateGrpcTLSKey nodeId distinguishedName w =
    (after_generateKey w,
     inr (tls_key (default ("CN=" +:+ nodeId) distinguishedName) w)).
Proof.
  intros Hnode Hdn. unfold generateGrpcTLSKey.
  rewrite (falsy_false nodeId) by done.
  rewrite falsy_false
    by (destruct distinguishedName; simpl; [congruence | by rewrite string_app_cons]).
  unfold try_catch, bind, new_Date, subtle.generateKey,
    X509CertificateGenerator_createSelfSigned, X509CertificateGenerator_create,
    X509ChainBuilder_build, lift_result.
  simpl. by rewrite build_chain_nil.
Qed.

Lemma generateGrpcTLSKey_inr (nodeId : string) (distinguishedName : option string)
    (w w' : World) (key : NodeKey) :
  generateGrpcTLSKey nodeId distinguishedName w = (w', inr key) →
  nodeId ≠ "" ∧ distinguishedName ≠ Some "".
Proof.
  unfold generateGrpcTLSKey, falsy.
  case_bool_decide as Hnode; [done|].
  case_bool_decide as Hdn; [done|]. intros _. split; [done|].
  intros ->. by apply Hdn.
Qed.

Lemma getFullYear_setFullYear (d : Date) (y : nat) : getFullYear (setFullYear d y) = y.
Proof. unfold setFullYear. by case_match. Qed.
End generate_tls.

(** X3.  Whenever [generateGrpcTLSKey] returns, the node ID and the
    distinguished name were not empty, one RSA key pair of 4096 bits was
    generated and nothing else happened, and the certificate is self-signed:
    its issuer is its subject, its public key is the one of the returned
    private key, and that key made the signature.  It is a leaf certificate
    (basic constraints without CA), its subject and authority key
    identifiers name the same key, and the chain is the certificate alone.
    The spelling of the subject is the library's and is left open. *)
Theorem generateGrpcTLSKey_self_signed `{CryptoProvider} `{Constants} `{FriendlyName}
    (nodeId : string) (distinguishedName : option string) (w w' : World)
    (key : NodeKey) :
  generateGrpcTLSKey nodeId distinguishedName w = (w', inr key) →
  nodeId ≠ "" ∧
  distinguishedName ≠ Some "" ∧
  w' = after_generateKey w ∧
  ∃ sk cert,
    privateKey key = Some sk ∧
    key_type sk = private ∧
    key_extractable sk = true ∧
    km_family (key_material sk) = RSA 4096 [1; 0; 1]%N ∧
    certificate key = Some cert ∧
    issuer cert = subject cert ∧
    publicKey cert = key_material sk ∧
    cert_signature cert = subtle_sign (key_material sk) (cert_tbs cert) ∧
    BasicConstraintsExtension false 0 true ∈ extensions cert ∧
    getSubjectKeyIdentifier (extensions cert) =
      getAuthorityKeyIdentifier (extensions cert) ∧
    certificateChain key = Some [cert].
Proof.
  intros Hrun. pose proof (generateGrpcTLSKey_inr _ _ _ _ _ Hrun) as [Hnode Hdn].
  rewrite generateGrpcTLSKey_run in Hrun by done. injection Hrun as <- <-.
  split; [done|]. split; [done|]. split; [done|]. eexists _, _. simpl.
  repeat split. by left.
Qed.

(** ** Generated keys through the files *)

Lemma string_app_ne_nil_r (s t : string) : t ≠ "" → s +:+ t ≠ "".
Proof.
  intros Ht Heq. assert (String.length (s +:+ t) = 0) as Hlen by (by rewrite Heq).
  rewrite string_app_length in Hlen. destruct t; [done|]. simpl in Hlen. lia.
Qed.

Lemma prepareNodeKeyFilePaths_run (nodeId keysDir keyPrefix : string) (w : World) :
  nodeId ≠ "" → keysDir ≠ "" → keyPrefix ≠ "" →
  prepareNodeKeyFilePaths nodeId keysDir (Some keyPrefix) w =
    (w, inr (gossipKeyFiles keyPrefix nodeId keysDir)).
Proof.
  intros Hnode Hdir Hprefix. unfold prepareNodeKeyFilePaths. simpl.
  by rewrite !falsy_false.
Qed.

Lemma prepareTLSKeyFilePaths_run (nodeId keysDir : string) (w : World) :
  nodeId ≠ "" → keysDir ≠ "" →
  prepareTLSKeyFilePaths nodeId keysDir w = (w, inr (tlsKeyFiles nodeId keysDir)).
Proof.
  intros Hnode Hdir. unfold prepareTLSKeyFilePaths. by rewrite !falsy_false.
Qed.

Lemma is_name_gossip_file (keyPrefix kind nodeId : string) :
  has_char "/" keyPrefix = false →
  has_char "/" kind = false →
  has_char "/" nodeId = false →
  is_name (keyPrefix +:+ kind +:+ nodeId +:+ ".pem") = true.
Proof.
  intros Hprefix Hkind Hnode. rewrite <- !string_app_assoc.
  apply is_name_app; [|done|simpl; lia].
  by rewrite !has_char_app, Hprefix, Hkind, Hnode.
Qed.

Lemma gossipKeyFiles_ne (keyPrefix nodeId keysDir : string) :
  has_char "/" keyPrefix = false →
  has_char "/" nodeId = false →
  privateKeyFile (gossipKeyFiles keyPrefix nodeId keysDir) ≠
  certificateFile (gossipKeyFiles keyPrefix nodeId keysDir).
Proof.
  intros Hprefix Hnode. simpl.
  unfold Templates.renderGossipPemPrivateKeyFile, Templates.renderGossipPemPublicKeyFile.
  simpl.
  apply path_join_2_ne; [by apply is_name_gossip_file..|].
  intros Heq%(inj (String.app keyPrefix)). by string_norm.
Qed.

Lemma gossipKeyFiles_ne_nil (keyPrefix nodeId keysDir : string) :
  has_char "/" keyPrefix = false →
  has_char "/" nodeId = false →
  privateKeyFile (gossipKeyFiles keyPrefix nodeId keysDir) ≠ "" ∧
  certificateFile (gossipKeyFiles keyPrefix nodeId keysDir) ≠ "".
Proof.
  intros Hprefix Hnode. simpl.
  unfold Templates.renderGossipPemPrivateKeyFile, Templates.renderGossipPemPublicKeyFile.
  simpl.
  split; apply path_join_2_ne_nil; rewrite last_segment_name;
    first [ by apply is_name_gossip_file
          | by rewrite !has_char_app, Hprefix, Hnode ].
Qed.

Lemma tlsKeyFiles_ne (nodeId keysDir : string) :
  has_char "/" nodeId = false →
  privateKeyFile (tlsKeyFiles nodeId keysDir) ≠
  certificateFile (tlsKeyFiles nodeId keysDir).
Proof.
  intros Hnode. simpl. apply path_join_2_ne; [solve_is_name..|].
  intros Heq%(inj (String.app "hedera-")).
  apply string_app_inj_suffix in Heq as [_ ?]; done.
Qed.

Lemma tlsKeyFiles_ne_nil (nodeId keysDir : string) :
  has_char "/" nodeId = false →
  privateKeyFile (tlsKeyFiles nodeId keysDir) ≠ "" ∧
  certificateFile (tlsKeyFiles nodeId keysDir) ≠ "".
Proof.
  intros Hnode. simpl.
  split; apply path_join_2_ne_nil; rewrite last_segment_name;
    first [ solve_is_name | by rewrite !has_char_app, Hnode ].
Qed.

(** A stored key pair, loaded from the files it was stored in. *)
Lemma store_then_load `{CryptoProvider} (nodeId keysDir : string) (nodeKey : NodeKey)
    (nodeKeyFiles : NodeKeyFiles) (algo : Algorithm) (sk : CryptoKey)
    (cert : X509Certificate) (rest chain : list X509Certificate) (w : World) :
  nodeId ≠ "" →
  keysDir ≠ "" →
  privateKeyFile nodeKeyFiles ≠ "" →
  certificateFile nodeKeyFiles ≠ "" →
  privateKeyFile nodeKeyFiles ≠ certificateFile nodeKeyFiles →
  not_directory w (privateKeyFile nodeKeyFiles) →
  not_directory w (certificateFile nodeKeyFiles) →
  privateKey nodeKey = Some sk →
  key_type sk = private →
  key_extractable sk = true →
  subtle.matches_family algo (km_family (key_material sk)) = true →
  certificateChain nodeKey = Some (cert :: rest) →
  build_chain rest cert = inr chain →
  ∃ w1,
    storeNodeKey nodeId nodeKey keysDir nodeKeyFiles w = (w1, inr nodeKeyFiles) ∧
    loadNodeKey nodeId keysDir (Some algo) nodeKeyFiles w1 =
      (w1, inr (loaded_key (key_material sk) algo cert chain)).
Proof.
  intros Hnode Hdir Hkf Hcf Hne Hkd Hcd Hsk Htype Hext Hfam Hchain Hbuild.
  eexists. split.
  { by apply (storeNodeKey_run _ _ _ _ sk (cert :: rest)). }
  apply (loadNodeKey_run _ _ _ _ _
           (PemConverter.encode (DerPkcs8 (key_material sk)) "PRIVATE KEY")
           (chain_pem (cert :: rest)) [] (key_material sk) cert rest chain); try done.
  - simpl. rewrite lookup_insert_ne by done. by rewrite lookup_insert_eq.
  - simpl. by rewrite lookup_insert_eq.
  - apply decode_chain_pem.
Qed.

(** X5.  A signing key that [generateSigningKey] returned, stored with
    [storeSigningKey] and loaded with [loadSigningKey] from the same keys
    directory comes back with the certificate and the chain that were
    generated and with a private key of the generated key material and
    algorithm; the loaded private key is no longer extractable.  This holds
    for a node ID that is not empty and holds no path separator (so that the
    key and the certificate have two files), for every keys directory that
    is not empty, when neither of the two files is a directory. *)
Theorem signing_key_store_load_roundtrip `{CryptoProvider} `{Constants} `{FriendlyName}
    (nodeId keysDir : string) (key : NodeKey) (w w0 : World) :
  nodeId ≠ "" →
  has_char "/" nodeId = false →
  keysDir ≠ "" →
  generateSigningKey nodeId w = (w0, inr key) →
  not_directory w0 (privateKeyFile (gossipKeyFiles SIGNING_KEY_PREFIX nodeId keysDir)) →
  not_directory w0 (certificateFile (gossipKeyFiles SIGNING_KEY_PREFIX nodeId keysDir)) →
  ∃ generatedKey w1 loaded loadedKey,
    storeSigningKey nodeId key keysDir w0 =
      (w1, inr (gossipKeyFiles SIGNING_KEY_PREFIX nodeId keysDir)) ∧
    loadSigningKey nodeId keysDir w1 = (w1, inr loaded) ∧
    certificate loaded = certificate key ∧
    certificateChain loaded = certificateChain key ∧
    privateKey key = Some generatedKey ∧
    privateKey loaded = Some loadedKey ∧
    key_material loadedKey = key_material generatedKey ∧
    key_algorithm loadedKey = key_algorithm generatedKey ∧
    key_extractable loadedKey = false.
Proof.
  intros Hnode Hsep Hdir Hrun Hkd Hcd.
  rewrite generateSigningKey_run in Hrun. injection Hrun as <- <-.
  destruct (gossipKeyFiles_ne_nil SIGNING_KEY_PREFIX nodeId keysDir) as [Hkf Hcf];
    [done..|].
  destruct (store_then_load nodeId keysDir (signing_key nodeId w)
              (gossipKeyFiles SIGNING_KEY_PREFIX nodeId keysDir)
              KeyManager.SigningKeyAlgo
              (mkKey private (mkMaterial (w_seed w) (RSA 3072 [1; 0; 1]%N))
                 KeyManager.SigningKeyAlgo true [usage_sign])
              (signing_cert nodeId w) [] [signing_cert nodeId w] (after_generateKey w))
    as (w1 & Hstore & Hload);
    try done; try (by apply gossipKeyFiles_ne); try apply build_chain_nil.
  eexists _, w1, _, _. split.
  { unfold storeSigningKey.
    by rewrite (bind_inr _ _ _ _ _
      (prepareNodeKeyFilePaths_run nodeId keysDir SIGNING_KEY_PREFIX _ Hnode Hdir
         ltac:(done))). }
  split.
  { unfold loadSigningKey.
    by rewrite (bind_inr _ _ _ _ _
      (prepareNodeKeyFilePaths_run nodeId keysDir SIGNING_KEY_PREFIX _ Hnode Hdir
         ltac:(done))). }
  by simpl.
Qed.
(** X6.  An agreement key that [generateAgreementKey] returned, stored
    with [storeAgreementKey] and loaded with [loadAgreementKey] from the
    same keys directory comes back with the generated certificate and with
    the generated chain (the agreement certificate, then the signing
    certificate), which the chain builder accepts again from the file; the
    private key has the generated key material and algorithm and is no
    longer extractable.  The node ID holds no path separator, so that the
    key and the certificate have two files. *)
Theorem agreement_key_store_load_roundtrip `{CryptoProvider} `{Constants} `{FriendlyName}
    (nodeId keysDir : string) (signingKey key : NodeKey) (w w0 : World) :
  has_char "/" nodeId = false →
  keysDir ≠ "" →
  generateAgreementKey nodeId (Some signingKey) w = (w0, inr key) →
  not_directory w0 (privateKeyFile (gossipKeyFiles AGREEMENT_KEY_PREFIX nodeId keysDir)) →
  not_directory w0 (certificateFile (gossipKeyFiles AGREEMENT_KEY_PREFIX nodeId keysDir)) →
  ∃ generatedKey w1 loaded loadedKey,
    storeAgreementKey nodeId key keysDir w0 =
      (w1, inr (gossipKeyFiles AGREEMENT_KEY_PREFIX nodeId keysDir)) ∧
    loadAgreementKey nodeId keysDir w1 = (w1, inr loaded) ∧
    certificate loaded = certificate key ∧
    certificateChain loaded = certificateChain key ∧
    privateKey key = Some generatedKey ∧
    privateKey loaded = Some loadedKey ∧
    key_material loadedKey = key_material generatedKey ∧
    key_algorithm loadedKey = key_algorithm generatedKey ∧
    key_extractable loadedKey = false.
Proof.
  intros Hsep Hdir Hrun Hkd Hcd. unfold generateAgreementKey in Hrun.
  pose proof (ecKey_inr _ _ _ _ _ _ Hrun) as (sk & sc & Hnode & ? & Hsk & Hsc & Htype & Hus).
  rewrite (ecKey_run nodeId AGREEMENT_KEY_PREFIX signingKey sk sc w) in Hrun by done.
  destruct (cert_verify_signatureOnly _ _) eqn:Hverify; [|by simplify_eq].
  injection Hrun as <- <-.
  set (cert := ec_cert nodeId AGREEMENT_KEY_PREFIX sk sc w) in *.
  set (key := {| privateKey := _ |}).
  assert (∃ rest, certificateChain key = Some (cert :: rest) ∧
                  build_chain rest cert = inr (cert :: rest)) as (rest & Hchain & Hbuild).
  { subst key. simpl. destruct (isSelfSigned cert) eqn:Hself.
    - exists []. split; [done|]. apply build_chain_nil.
    - exists [sc]. split; [done|].
      rewrite (build_chain_issuer sc cert) by done. by rewrite Hself. }
  destruct (store_then_load nodeId keysDir key
              (gossipKeyFiles AGREEMENT_KEY_PREFIX nodeId keysDir)
              KeyManager.ECKeyAlgo (pair_privateKey (ec_keypair w))
              cert rest (cert :: rest) (after_generateKey w))
    as (w1 & Hstore & Hload);
    try done; try (by apply gossipKeyFiles_ne);
    try (by apply (gossipKeyFiles_ne_nil AGREEMENT_KEY_PREFIX nodeId keysDir)).
  eexists _, w1, _, _. split.
  { unfold storeAgreementKey.
    by rewrite (bind_inr _ _ _ _ _
      (prepareNodeKeyFilePaths_run nodeId keysDir AGREEMENT_KEY_PREFIX _ Hnode Hdir
         ltac:(done))). }
  split.
  { unfold loadAgreementKey.
    by rewrite (bind_inr _ _ _ _ _
      (prepareNodeKeyFilePaths_run nodeId keysDir AGREEMENT_KEY_PREFIX _ Hnode Hdir
         ltac:(done))). }
  repeat split; try done.
Qed.

(** X7.  A gRPC TLS key that [generateGrpcTLSKey] returned, stored with
    [storeTLSKey] and loaded with [loadTLSKey] from the same keys directory
    comes back with the generated certificate and chain and with a private
    key of the generated key material and algorithm, no longer extractable;
    the files are [hedera-<nodeId>.key] and [hedera-<nodeId>.crt] in the
    keys directory.  The node ID holds no path separator, so that these are
    two files. *)
Theorem tls_key_store_load_roundtrip `{CryptoProvider} `{Constants} `{FriendlyName}
    (nodeId keysDir : string) (distinguishedName : option string) (key : NodeKey)
    (w w0 : World) :
  has_char "/" nodeId = false →
  keysDir ≠ "" →
  generateGrpcTLSKey nodeId distinguishedName w = (w0, inr key) →
  not_directory w0 (path.join [keysDir; "hedera-" +:+ nodeId +:+ ".key"]) →
  not_directory w0 (path.join [keysDir; "hedera-" +:+ nodeId +:+ ".crt"]) →
  ∃ generatedKey w1 loaded loadedKey,
    storeTLSKey nodeId key keysDir w0 = (w1, inr (tlsKeyFiles nodeId keysDir)) ∧
    loadTLSKey nodeId keysDir w1 = (w1, inr loaded) ∧
    certificate loaded = certificate key ∧
    certificateChain loaded = certificateChain key ∧
    privateKey key = Some generatedKey ∧
    privateKey loaded = Some loadedKey ∧
    key_material loadedKey = key_material generatedKey ∧
    key_algorithm loadedKey = key_algorithm generatedKey ∧
    key_extractable loadedKey = false.
Proof.
  intros Hsep Hdir Hrun Hkd Hcd.
  pose proof (generateGrpcTLSKey_inr _ _ _ _ _ Hrun) as [Hnode Hdn].
  rewrite generateGrpcTLSKey_run in Hrun by done. injection Hrun as <- <-.
  set (dn := default ("CN=" +:+ nodeId) distinguishedName).
  destruct (tlsKeyFiles_ne_nil nodeId keysDir Hsep) as [Hkf Hcf].
  destruct (store_then_load nodeId keysDir (tls_key dn w)
              (tlsKeyFiles nodeId keysDir) KeyManager.TLSKeyAlgo
              (mkKey private (mkMaterial (w_seed w) (RSA 4096 [1; 0; 1]%N))
                 KeyManager.TLSKeyAlgo true [usage_sign])
              (tls_cert dn w) [] [tls_cert dn w] (after_generateKey w))
    as (w1 & Hstore & Hload);
    try done; try (by apply tlsKeyFiles_ne); try apply build_chain_nil.
  eexists _, w1, _, _. split.
  { unfold storeTLSKey.
    by rewrite (bind_inr _ _ _ _ _ (prepareTLSKeyFilePaths_run nodeId keysDir _ Hnode Hdir)). }
  split.
  { unfold loadTLSKey.
    by rewrite (bind_inr _ _ _ _ _ (prepareTLSKeyFilePaths_run nodeId keysDir _ Hnode Hdir)). }
  by simpl.
Qed.
(** ** What a loaded key is *)

Lemma new_X509Certificate_inr (raw : Der) (w w' : World) (cert : X509Certificate) :
  new_X509Certificate raw w = (w', inr cert) → raw = DerCertificate cert ∧ w' = w.
Proof. destruct raw; simpl; unfold ret, throw; intros; by simplify_eq. Qed.

Lemma map_each_new_X509Certificate_inr (raws : list Der) (w w' : World)
    (certs : list X509Certificate) :
  map_each raws new_X509Certificate w = (w', inr certs) →
  raws = map DerCertificate certs ∧ w' = w.
Proof.
  revert w w' certs. induction raws as [|raw raws IH]; intros w w' certs Hrun; simpl in *.
  - unfold ret in Hrun. by simplify_eq.
  - apply bind_inr_inv in Hrun as (w1 & cert & Hcert & Hrun).
    apply new_X509Certificate_inr in Hcert as [-> ->].
    apply bind_inr_inv in Hrun as (w2 & rest & Hrest & Hrun).
    apply IH in Hrest as [-> ->]. unfold ret in Hrun. by simplify_eq.
Qed.

Lemma convertPemToPrivateKey_inr (pemStr : Text) (algo : option Algorithm)
    (keyUsages : option (list KeyUsage)) (w w' : World) (key : CryptoKey) :
  convertPemToPrivateKey pemStr algo keyUsages w = (w', inr key) →
  ∃ algo' material,
    algo = Some algo' ∧ w' = w ∧
    last (PemConverter.decode pemStr) = Some (DerPkcs8 material) ∧
    subtle.matches_family algo' (km_family material) = true ∧
    key = mkKey private material
            (subtle.imported_algorithm algo' (km_family material)) false
            (remove_dups (default [usage_sign] keyUsages)).
Proof.
  unfold convertPemToPrivateKey. destruct algo as [algo'|]; [|done]. intros Hrun.
  apply importKey_pkcs8_inr in Hrun as (material & -> & Hlast & Hfam & ->).
  exists algo', material. repeat split; try done.
  rewrite last_lookup. rewrite <- Hlast. f_equal. lia.
Qed.

Section loaded.
Context `{CryptoProvider} `{Constants} `{FriendlyName}.

(** A call of [loadNodeKey] that returns: what it read and what it made of
    it. *)
Lemma loadNodeKey_inr_full (nodeId keysDir : string) (algo : option Algorithm)
    (nodeKeyFiles : NodeKeyFiles) (w w' : World) (loaded : NodeKey) :
  loadNodeKey nodeId keysDir algo nodeKeyFiles w = (w', inr loaded) →
  ∃ algo' keyPem material certBytes cert rest chain,
    algo = Some algo' ∧ w' = w ∧
    w_fs w !! privateKeyFile nodeKeyFiles = Some (File keyPem) ∧
    last (PemConverter.decode keyPem) = Some (DerPkcs8 material) ∧
    subtle.matches_family algo' (km_family material) = true ∧
    w_fs w !! certificateFile nodeKeyFiles = Some (File certBytes) ∧
    PemConverter.decode certBytes = map DerCertificate (cert :: rest) ∧
    build_chain rest cert = inr chain ∧
    loaded = loaded_key material algo' cert chain.
Proof.
  unfold loadNodeKey.
  destruct (falsy nodeId); [done|]. destruct (falsy keysDir); [done|].
  destruct algo as [algo'|]; [|done].
  destruct (falsy (privateKeyFile nodeKeyFiles)); [done|].
  destruct (falsy (certificateFile nodeKeyFiles)); [done|].
  intros Hrun.
  apply bind_inr_inv in Hrun as (w1 & keyPem & Hread & Hrun).
  apply readFileSync_inr in Hread as [-> Hkey].
  apply bind_inr_inv in Hrun as (w1 & key & Hconv & Hrun).
  apply convertPemToPrivateKey_inr in Hconv
    as (algo2 & material & [= <-] & -> & Hlast & Hfam & ->).
  apply bind_inr_inv in Hrun as (w1 & certBytes & Hread & Hrun).
  apply readFileSync_inr in Hread as [-> Hcert].
  apply bind_inr_inv in Hrun as (w2 & certs & Hcerts & Hrun).
  apply map_each_new_X509Certificate_inr in Hcerts as [Hdec ->].
  destruct certs as [|cert rest]; [done|].
  apply bind_inr_inv in Hrun as (w3 & chain & Hbuild & Hrun).
  unfold X509ChainBuilder_build, lift_result in Hbuild.
  unfold ret in Hrun. simplify_eq.
  by exists algo', keyPem, material, certBytes, cert, rest, chain.
Qed.

Lemma findIssuer_Some (certificates : list X509Certificate)
    (cert next : X509Certificate) :
  findIssuer certificates cert = Some next →
  next ∈ certificates ∧ issued_by cert next.
Proof.
  unfold findIssuer. destruct (isSelfSigned cert); [done|].
  intros Hfind. apply find_some in Hfind as [Hin Hnext].
  apply andb_prop in Hnext as [Hnext Hverify].
  apply andb_prop in Hnext as [Hsubject _].
  apply bool_decide_eq_true in Hsubject.
  split; [by apply list_elem_of_In|]. by split.
Qed.

Lemma linked_snoc (chain : list X509Certificate) (current next : X509Certificate) :
  linked chain → last chain = Some current → issued_by current next →
  linked (chain ++ [next]).
Proof.
  induction chain as [|c [|c' chain] IH]; intros Hlinked Hlast Hissued.
  - done.
  - simpl in *. by simplify_eq.
  - destruct Hlinked as [Hc Hrest]. split; [done|].
    apply IH; [done| |done]. by rewrite last_cons_cons in Hlast.
Qed.

(** The chain that the loop returns extends the chain it started from by
    certificates of the pool, each the issuer of the one before. *)
Lemma build_loop_linked (fuel : nat) (certificates chain result : list X509Certificate)
    (current : X509Certificate) :
  build_loop fuel certificates chain current = inr result →
  last chain = Some current →
  linked chain →
  linked result ∧ ∃ tail, result = chain ++ tail ∧ ∀ x, x ∈ tail → x ∈ certificates.
Proof.
  revert chain current. induction fuel as [|fuel IH]; intros chain current; [done|].
  simpl. destruct (findIssuer certificates current) as [next|] eqn:Hfind.
  - case_bool_decide; [done|]. intros Hloop Hlast Hlinked.
    apply findIssuer_Some in Hfind as [Hin Hissued].
    apply IH in Hloop as [Hres (tail & -> & Htail)].
    + split; [done|]. exists (next :: tail). split; [by rewrite <- app_assoc|].
      intros x [->|Hx]%elem_of_cons; auto.
    + by rewrite last_snoc.
    + by apply (linked_snoc chain current).
  - intros [= <-] _ Hlinked. split; [done|]. exists []. split; [by rewrite app_nil_r|].
    by intros x ?%elem_of_nil.
Qed.
End loaded.

(** X8.  A key that [loadNodeKey] returned cannot be stored again: the
    private key was imported as not extractable, so [storeNodeKey] with the
    loaded key and otherwise valid arguments throws when it exports the key,
    before it writes anything.  The error is the [DOMException] of
    [exportKey], which Node names [InvalidAccessException], and not an error
    of the key manager. *)
Theorem loaded_key_cannot_be_stored `{CryptoProvider} `{Constants} `{FriendlyName}
    (nodeId keysDir : string) (algo : option Algorithm) (nodeKeyFiles : NodeKeyFiles)
    (w w' : World) (loaded : NodeKey)
    (nodeId2 keysDir2 : string) (nodeKeyFiles2 : NodeKeyFiles) (w2 : World) :
  loadNodeKey nodeId keysDir algo nodeKeyFiles w = (w', inr loaded) →
  nodeId2 ≠ "" →
  keysDir2 ≠ "" →
  privateKeyFile nodeKeyFiles2 ≠ "" →
  certificateFile nodeKeyFiles2 ≠ "" →
  storeNodeKey nodeId2 loaded keysDir2 nodeKeyFiles2 w2 =
    (w2, inl (DOMException "InvalidAccessException" "key is not extractable")).
Proof.
  intros Hload Hnode Hdir Hkf Hcf.
  apply loadNodeKey_inr_full in Hload
    as (algo' & keyPem & material & certBytes & cert & rest & chain & _ & _ & _ & _ & _
        & _ & _ & _ & ->).
  unfold storeNodeKey. simpl. by rewrite !falsy_false.
Qed.

(** X9.  When [loadNodeKey] returns, every PEM block of the certificate
    file is a certificate, the returned certificate is the first of them,
    and the returned chain starts with it and continues with certificates of
    the rest of the file, each one the issuer of the one before it (its
    subject is the issuer name and its public key verifies the signature). *)
Theorem loadNodeKey_returns_linked_chain `{CryptoProvider} `{Constants} `{FriendlyName}
    (nodeId keysDir : string) (algo : option Algorithm) (nodeKeyFiles : NodeKeyFiles)
    (w w' : World) (loaded : NodeKey) :
  loadNodeKey nodeId keysDir algo nodeKeyFiles w = (w', inr loaded) →
  ∃ certBytes cert rest tail,
    w_fs w !! certificateFile nodeKeyFiles = Some (File certBytes) ∧
    PemConverter.decode certBytes = map DerCertificate (cert :: rest) ∧
    certificate loaded = Some cert ∧
    certificateChain loaded = Some (cert :: tail) ∧
    (∀ x, x ∈ tail → x ∈ rest) ∧
    linked (cert :: tail).
Proof.
  intros Hload.
  apply loadNodeKey_inr_full in Hload
    as (algo' & keyPem & material & certBytes & cert & rest & chain & _ & _ & _ & _ & _
        & Hfile & Hdec & Hbuild & ->).
  apply build_loop_linked in Hbuild as [Hlinked (tail & -> & Htail)]; [|done..].
  by exists certBytes, cert, rest, tail.
Qed.

(** X10.  Every failure of [ecKey], and so of [generateAgreementKey], is of
    one of two kinds.  A missing argument is reported as a
    [MissingArgumentError] without a cause, before anything happens (the
    world is unchanged).  Any later failure, of the library or of the
    verification, is wrapped: a [FullstackTestingError] with the message
    [failed to generate <prefix>-key: <message of the cause>] that keeps the
    original error as its cause. *)
Theorem ecKey_failures_are_wrapped `{CryptoProvider} `{Constants} `{FriendlyName}
    (nodeId keyPrefix : string) (signingKey : option NodeKey) (w w' : World)
    (e : JsError) :
  ecKey nodeId keyPrefix signingKey w = (w', inl e) →
  (err_name e = "MissingArgumentError" ∧ err_cause e = None ∧ w' = w) ∨
  (err_name e = "FullstackTestingError" ∧
   ∃ cause,
     err_cause e = Some cause ∧
     err_message e = "failed to generate " +:+ keyPrefix +:+ "-key: " +:+ err_message cause).
Proof.
  unfold ecKey.
  destruct (falsy nodeId); [intros [= <- <-]; by left|].
  destruct (falsy keyPrefix); [intros [= <- <-]; by left|].
  destruct signingKey as [signingKey|]; [|intros [= <- <-]; by left].
  unfold try_catch. destruct (bind _ _ w) as [w1 [cause|key]]; [|done].
  intros [= <- <-]. right. split; [done|]. by exists cause.
Qed.
(** ** What storing a key touches *)

Lemma trace_grows_writeFileSync (Q : Event → Prop) p data flag :
  Q (EvWriteFile p) → preserves (trace_grows_with Q) (fs.writeFileSync p data flag).
Proof.
  intros HQ w. unfold fs.writeFileSync.
  destruct (w_fs w !! p) as [[old|]|]; simpl; try reflexivity;
    exists [EvWriteFile p]; split; try done; by constructor.
Qed.

Lemma trace_grows_rmSync (Q : Event → Prop) p :
  Q (EvRm p) → preserves (trace_grows_with Q) (fs.rmSync p).
Proof.
  intros HQ w. unfold fs.rmSync.
  destruct (w_fs w !! p) as [[old|]|]; simpl; try reflexivity.
  exists [EvRm p]. split; [done|]. by constructor.
Qed.

Lemma storeNodeKey_trace nodeId nodeKey keysDir nodeKeyFiles :
  preserves
    (trace_grows_with (λ ev, touches (privateKeyFile nodeKeyFiles) ev ∨
                             touches (certificateFile nodeKeyFiles) ev))
    (storeNodeKey nodeId nodeKey keysDir nodeKeyFiles).
Proof.
  unfold storeNodeKey, convertPrivateKeyToPem, subtle.exportKey_pkcs8, touches.
  repeat first
    [ preserves_step
    | apply trace_grows_writeFileSync; auto
    | apply trace_grows_rmSync; auto
    | apply preserves_for_each; [..|intros ? _] ].
Qed.

(** An error of [storeNodeKey] that is not an error of the file system is
    thrown before the first write. *)
Lemma storeNodeKey_inl nodeId nodeKey keysDir nodeKeyFiles w w' e :
  storeNodeKey nodeId nodeKey keysDir nodeKeyFiles w = (w', inl e) →
  err_name e ≠ "Error" →
  w' = w ∧
  (err_name e = "MissingArgumentError" ∨ err_name e = "InvalidAccessException" ∨
   err_name e = "InvalidAccessError").
Proof.
  unfold storeNodeKey.
  destruct (falsy nodeId); [intros [= <- <-]; auto|].
  destruct (privateKey nodeKey) as [sk|]; [|intros [= <- <-]; auto].
  destruct (certificateChain nodeKey) as [chain|]; [|intros [= <- <-]; auto].
  destruct (falsy keysDir); [intros [= <- <-]; auto|].
  destruct (falsy (privateKeyFile nodeKeyFiles)); [intros [= <- <-]; auto|].
  destruct (falsy (certificateFile nodeKeyFiles)); [intros [= <- <-]; auto|].
  unfold convertPrivateKeyToPem, subtle.exportKey_pkcs8.
  destruct (key_extractable sk); cbn [negb]; [|intros [= <- <-]; auto].
  destruct (key_type sk); [|intros [= <- <-]; auto].
  intros Hrun Hname. exfalso. apply Hname. clear Hname.
  unfold bind at 1 2 in Hrun. simpl in Hrun.
  unfold bind at 1 in Hrun.
  destruct (fs.writeFileSync _ _ _ w) as [w1 [e1|[]]] eqn:Hw1.
  { unfold fs.writeFileSync in Hw1. repeat case_match; by simplify_eq. }
  unfold bind at 1 in Hrun. simpl in Hrun.
  unfold bind at 1 in Hrun.
  destruct (if bool_decide _ then _ else _) as [w2 [e2|[]]] eqn:Hw2.
  { case_bool_decide; [|done]. unfold fs.rmSync in Hw2.
    repeat case_match; by simplify_eq. }
  unfold bind at 1 in Hrun.
  destruct (for_each _ _ w2) as [w3 [e3|[]]] eqn:Hw3; [|done].
  injection Hrun as <- <-. clear Hw1 Hw2.
  revert w2 Hw3. generalize (map cert_toString_pem chain).
  intros certPems. induction certPems as [|x rest IH]; intros w2 Hw3; [done|].
  simpl in Hw3. unfold bind at 1 in Hw3.
  destruct (fs.writeFileSync _ _ _ w2) as [w4 [e4|[]]] eqn:Hw4.
  - unfold fs.writeFileSync in Hw4. repeat case_match; by simplify_eq.
  - by apply (IH w4).
Qed.

(** ** Flags *)

Lemma splitFlagInput_items (pieces acc : list string) :
  fold_left (λ items s,
    let item := JsString.trim s in
    if negb (falsy s) then items ++ [item] else items) pieces acc =
  acc ++ map JsString.trim (filter (λ s, s ≠ "") pieces).
Proof.
  revert acc. induction pieces as [|s pieces IH]; intros acc; simpl.
  - by rewrite app_nil_r.
  - rewrite IH. unfold falsy. rewrite filter_cons. case_bool_decide as Hs; simpl.
    + by rewrite decide_False by (by intros ?).
    + rewrite decide_True by done. simpl. by rewrite <- app_assoc.
Qed.

Lemma splitFlagInput_eq (input separator : string) :
  splitFlagInput (Some input) (Some separator) =
  inr (map JsString.trim (filter (λ s, s ≠ "") (JsString.split input separator))).
Proof. unfold splitFlagInput. simpl. by rewrite splitFlagInput_items. Qed.

(** X18.  [parseNodeIds] undoes the joining of node IDs with commas: for
    every list of node IDs that are not empty, contain no comma and have no
    white space at their ends, parsing the IDs joined by [,] gives back the
    list, whatever its length; the empty list, joined to the empty string,
    comes back as the empty list. *)
Theorem parseNodeIds_join_roundtrip (nodeIds : list string) :
  (∀ nodeId, nodeId ∈ nodeIds →
     nodeId ≠ "" ∧ has_char "," nodeId = false ∧ JsString.trim nodeId = nodeId) →
  parseNodeIds (Some (JsString.join nodeIds ",")) = inr nodeIds.
Proof.
  intros Hids. unfold parseNodeIds. rewrite splitFlagInput_eq. f_equal.
  destruct (decide (nodeIds = [])) as [->|Hne]; [done|].
  rewrite (split_join "," nodeIds) by (done || intros s Hs; by apply Hids).
  induction nodeIds as [|x rest IH]; [done|].
  rewrite filter_cons, decide_True by (apply Hids; by left).
  simpl. f_equal.
  - apply Hids. by left.
  - destruct rest as [|y rest]; [done|]. apply IH; [|done].
    intros s Hs. apply Hids. by right.
Qed.

(** X19.  No item that [splitFlagInput] returns for a one-character
    separator contains the separator, and every item is trimmed: it has no
    white space at its ends.  For [parseNodeIds] the separator is the comma:
    a parsed node ID never contains a comma and never has white space
    around it. *)
Theorem splitFlagInput_items_clean (input : string) (c : ascii) (items : list string)
    (item : string) :
  splitFlagInput (Some input) (Some (String c "")) = inr items ∨
  (c = ","%char ∧ parseNodeIds (Some input) = inr items) →
  item ∈ items →
  has_char c item = false ∧ JsString.trim item = item.
Proof.
  intros Hrun Hin.
  assert (splitFlagInput (Some input) (Some (String c "")) = inr items) as Hitems.
  { destruct Hrun as [?|[-> ?]]; done. }
  rewrite splitFlagInput_eq in Hitems. injection Hitems as <-.
  apply list_elem_of_fmap in Hin as (piece & -> & Hin).
  apply list_elem_of_filter in Hin as [_ Hin].
  split; [|apply trim_idem].
  apply has_char_trim. by apply (split_go_pieces c "" input).
Qed.

(** X20.  [splitFlagInput] keeps a piece that consists of white space: it
    tests the piece before trimming it, and pushes the trimmed, empty item.
    So for a separator that is not white space, an input of white space
    only gives one empty item, while the empty input gives no item at all;
    [parseNodeIds] of a blank string returns one empty node ID. *)
Theorem splitFlagInput_blank_item (input : string) (c : ascii) :
  blank input = true →
  input ≠ "" →
  JsString.is_white_space c = false →
  splitFlagInput (Some input) (Some (String c "")) = inr [""] ∧
  splitFlagInput (Some "") (Some (String c "")) = inr [] ∧
  (c = ","%char → parseNodeIds (Some input) = inr [""]).
Proof.
  intros Hblank Hne Hc.
  assert (has_char c input = false) as Hno.
  { clear Hne. induction input as [|a s IH]; [done|].
    unfold blank in Hblank. simpl in Hblank. apply andb_prop in Hblank as [Ha Hs].
    simpl. rewrite IH by done. rewrite bool_decide_eq_false_2; [done|].
    intros ->. congruence. }
  assert (splitFlagInput (Some input) (Some (String c "")) = inr [""]) as Hrun.
  { rewrite splitFlagInput_eq. unfold JsString.split.
    rewrite split_go_no_char, string_app_nil_l by done.
    rewrite filter_cons, decide_True by done. simpl. by rewrite trim_blank. }
  split; [done|]. split; [done | by intros ->].
Qed.
(** ** Environment values and paths *)

Lemma find_first {A} (p : A → bool) (before after : list A) (x : A) :
  (∀ y, y ∈ before → p y = false) → p x = true →
  find p (before ++ x :: after) = Some x.
Proof.
  intros Hbefore Hx. induction before as [|y before IH]; simpl.
  - by rewrite Hx.
  - rewrite (Hbefore y) by (by left). apply IH. intros z Hz. apply Hbefore. by right.
Qed.

Lemma find_none_iff {A} (p : A → bool) (l : list A) :
  find p l = None ↔ ∀ y, y ∈ l → p y = false.
Proof.
  induction l as [|x l IH]; simpl.
  - split; [|done]. by intros _ y ?%elem_of_nil.
  - destruct (p x) eqn:Hx.
    + split; [done|]. intros Hall. rewrite Hall in Hx; [done | by left].
    + rewrite IH. split.
      * intros Hall y [->|Hy]%elem_of_cons; auto.
      * intros Hall y Hy. apply Hall. by right.
Qed.

Lemma find_some_prop {A} (p : A → bool) (l : list A) (x : A) :
  find p l = Some x → p x = true.
Proof.
  induction l as [|y l IH]; simpl; [done|].
  destruct (p y) eqn:Hy; [by intros [= <-] | done].
Qed.

(** X21.  [getEnvValue] returns the value of the first entry that starts
    with [name=], cut at the first [=] of the value: for a name without [=]
    and a first matching entry [name=value], the result is the part of
    [value] before its first [=].  So a value without [=] is returned whole,
    and a value such as [a=b] comes back as [a]. *)
Theorem getEnvValue_first_match (before after : list string) (name value : string) :
  has_char "=" name = false →
  (∀ entry, entry ∈ before → JsString.startsWith entry (name +:+ "=") = false) →
  getEnvValue (before ++ (name +:+ "=" +:+ value) :: after) name =
    js_string (before_char "=" value) ∧
  (has_char "=" value = false →
   getEnvValue (before ++ (name +:+ "=" +:+ value) :: after) name = js_string value).
Proof.
  intros Hname Hbefore.
  assert (getEnvValue (before ++ (name +:+ "=" +:+ value) :: after) name =
          js_string (before_char "=" value)) as Hrun.
  { unfold getEnvValue. rewrite find_first; [|done|]; last first.
    { unfold JsString.startsWith. rewrite <- string_app_assoc. apply prefix_app. }
    rewrite falsy_false by (apply string_app_ne_nil_r; by string_norm).
    unfold JsString.split.
    change (name +:+ "=" +:+ value) with (name +:+ String "=" value).
    rewrite split_go_piece by done.
    rewrite lookup_cons_ne_0 by done. simpl pred.
    by rewrite <- head_lookup, split_go_head, string_app_nil_l. }
  split; [done|]. intros Hvalue. by rewrite Hrun, before_char_no_char.
Qed.

(** X22.  [getEnvValue] returns [null] exactly when no entry of the array
    starts with [name=], and it never returns [undefined]: an entry that
    matches contains a [=], so the split has a second part. *)
Theorem getEnvValue_null_iff (envVarArray : list string) (name : string) :
  (getEnvValue envVarArray name = js_null ↔
   ∀ entry, entry ∈ envVarArray → JsString.startsWith entry (name +:+ "=") = false) ∧
  getEnvValue envVarArray name ≠ js_undefined.
Proof.
  unfold getEnvValue.
  destruct (find _ envVarArray) as [kvPair|] eqn:Hfind.
  - pose proof (find_some_prop _ _ _ Hfind) as Hstarts.
    unfold JsString.startsWith in Hstarts.
    apply prefix_inv in Hstarts as (rest & ->).
    rewrite falsy_false by (rewrite string_app_assoc; apply string_app_ne_nil_r;
                            by string_norm).
    assert (2 ≤ length (JsString.split ((name +:+ "=") +:+ rest) "=")) as Hlen.
    { apply split_go_length. rewrite !has_char_app. simpl. by rewrite orb_true_r. }
    destruct (JsString.split ((name +:+ "=") +:+ rest) "=" !! 1) as [value|] eqn:Hvalue;
      [|apply lookup_ge_None in Hvalue; lia].
    split; [|done]. split; [done|].
    intros Hall. apply find_none_iff in Hall. congruence.
  - split; [|done]. split; [|done]. intros _. by apply find_none_iff.
Qed.

(** X23.  [validatePath] accepts exactly the strings without a NUL code
    unit and returns an accepted string as it is; a string with a NUL is
    refused with a [FullstackTestingError].  Nothing else is checked or
    changed: a path with [..] segments is returned unchanged. *)
Theorem validatePath_accepts (input : string) :
  (has_char Ascii.zero input = false → validatePath input = inr input) ∧
  (has_char Ascii.zero input = true →
   validatePath input =
     inl (FullstackTestingError ("access denied for path: " +:+ input))) ∧
  (∀ dir name,
     has_char Ascii.zero dir = false → has_char Ascii.zero name = false →
     validatePath (dir +:+ "/../" +:+ name) = inr (dir +:+ "/../" +:+ name)).
Proof.
  assert (∀ s, String.index 0 NUL s = None ↔ has_char Ascii.zero s = false) as Hindex.
  { intros s. induction s as [|a s IH]; [done|].
    cbn [String.index]. unfold NUL at 1. rewrite prefix_char. simpl.
    case_bool_decide; simpl; [done|].
    destruct (String.index 0 NUL s); [|by apply IH].
    split; [done|]. intros Hs. by apply IH in Hs. }
  assert (∀ s, has_char Ascii.zero s = false → validatePath s = inr s) as Hok.
  { intros s Hs%Hindex. unfold validatePath, JsString.indexOf. rewrite Hs.
    by rewrite bool_decide_eq_false_2 by (by intros ?). }
  split; [apply Hok|]. split.
  - intros Hs. unfold validatePath, JsString.indexOf.
    destruct (String.index 0 NUL input) as [position|] eqn:Hi.
    + rewrite bool_decide_eq_true_2; [done|]. lia.
    + apply Hindex in Hi. congruence.
  - intros dir name Hdir Hname. apply Hok.
    rewrite !has_char_app, Hdir, Hname. done.
Qed.
(** ** Numbers in decimal *)

Section decimal.
Import JsString NumericLiteral.

Lemma pretty_N_char_digit (d : N) :
  (d < 10)%N →
  Ascii.is_nat (pretty_N_char d) = Some (N.to_nat d) ∧
  is_digit (pretty_N_char d) = true.
Proof.
  intros Hd.
  assert (d = 0 ∨ d = 1 ∨ d = 2 ∨ d = 3 ∨ d = 4 ∨ d = 5 ∨ d = 6 ∨ d = 7 ∨ d = 8 ∨ d = 9)%N
    as Hcases by lia.
  repeat destruct Hcases as [->|Hcases]; try subst d; done.
Qed.

Lemma pretty_N_go_digits (x : N) (s : string) :
  all_chars is_digit s = true → all_chars is_digit (pretty_N_go x s) = true.
Proof.
  revert s. induction (N.lt_wf_0 x) as [x _ IH]. intros s Hs.
  destruct (decide (x = 0)%N) as [->|Hx]; [by rewrite pretty_N_go_0|].
  rewrite pretty_N_go_step by lia. apply IH.
  - apply N.div_lt; lia.
  - simpl. rewrite Hs, andb_true_r. apply pretty_N_char_digit. by apply N.mod_lt.
Qed.

Lemma pretty_N_go_ne_nil (x : N) (s : string) : s ≠ "" → pretty_N_go x s ≠ "".
Proof.
  revert s. induction (N.lt_wf_0 x) as [x _ IH]. intros s Hs.
  destruct (decide (x = 0)%N) as [->|Hx]; [by rewrite pretty_N_go_0|].
  rewrite pretty_N_go_step by lia. apply IH; [apply N.div_lt; lia | done].
Qed.

(** The decimal form of a number starts with a digit and has digits only. *)
Lemma pretty_N_digits (n : N) :
  ∃ c rest, pretty n = String c rest ∧ is_digit c = true ∧
            all_chars is_digit rest = true.
Proof.
  assert (all_chars is_digit (pretty n) = true ∧ pretty n ≠ "") as [Hall Hne].
  { unfold pretty, pretty_N. case_decide as Hn; [done|]. split.
    - by apply pretty_N_go_digits.
    - rewrite pretty_N_go_step by lia. by apply pretty_N_go_ne_nil. }
  destruct (pretty n) as [|c rest]; [done|]. simpl in Hall.
  apply andb_prop in Hall as [Hc Hrest]. by exists c, rest.
Qed.

Lemma leading_digits_pretty_N_go (x : N) :
  (0 < x)%N →
  ∃ k, ∀ acc s,
    leading_digits acc (pretty_N_go x s) =
    leading_digits (Some (default 0 acc * 10 ^ k + x)%N) s.
Proof.
  induction (N.lt_wf_0 x) as [x _ IH]. intros Hx.
  pose proof (N.mod_lt x 10 ltac:(done)) as Hmod.
  pose proof (N.div_mod x 10 ltac:(done)) as Hdiv.
  destruct (pretty_N_char_digit (x `mod` 10)%N Hmod) as [Hnat _].
  destruct (decide (x `div` 10 = 0)%N) as [Hsmall|Hbig].
  - exists 1%N. intros acc s.
    rewrite pretty_N_go_step, Hsmall, pretty_N_go_0 by done.
    cbn [leading_digits]. rewrite Hnat. f_equal. f_equal. lia.
  - destruct (IH (x `div` 10)%N) as (k & Hk); [apply N.div_lt; lia | lia |].
    exists (N.succ k). intros acc s.
    rewrite pretty_N_go_step, Hk by done.
    cbn [leading_digits]. rewrite Hnat. simpl default. f_equal. f_equal.
    rewrite N.pow_succ_r'. lia.
Qed.

Lemma leading_digits_pretty (n : N) : leading_digits None (pretty n) = Some n.
Proof.
  unfold pretty, pretty_N. case_decide as Hn; [by subst|].
  destruct (leading_digits_pretty_N_go n) as (k & Hk); [lia|].
  by rewrite Hk.
Qed.

Lemma parseInt_10_digit (c : ascii) (rest : string) :
  is_digit c = true →
  parseInt_10 (String c rest) =
  match leading_digits None (String c rest) with
  | Some mathInt => Number_of_Z (1 * Z.of_N mathInt)
  | None => NaN
  end.
Proof.
  intros Hc. destruct c as [[] [] [] [] [] [] [] []]; done.
Qed.

Lemma Number_of_Z_exact (z : Z) : (Z.abs z ≤ 2 ^ 53)%Z → Number_of_Z z = Integer z.
Proof.
  intros Hz. unfold Number_of_Z.
  destruct (Z.leb_spec (Z.abs z) (2 ^ 53)) as [_|Hgt]; [done | lia].
Qed.

Lemma parseInt_10_pretty (n : N) :
  (n ≤ 2 ^ 53)%N → parseInt_10 (pretty n) = Integer (Z.of_N n).
Proof.
  intros Hn. destruct (pretty_N_digits n) as (c & rest & Heq & Hc & _).
  pose proof (leading_digits_pretty n) as Hlead. rewrite Heq in *.
  rewrite parseInt_10_digit, Hlead, Z.mul_1_l by done.
  apply Number_of_Z_exact. lia.
Qed.

Lemma ToUint8_of_N (n : N) : ToUint8 (Integer (Z.of_N n)) = (n `mod` 256)%N.
Proof.
  unfold ToUint8. change 256%Z with (Z.of_N 256).
  by rewrite <- N2Z.inj_mod, N2Z.id.
Qed.

Lemma all_chars_no_char (p : ascii → bool) (c : ascii) (s : string) :
  all_chars p s = true → p c = false → has_char c s = false.
Proof.
  intros Hs Hc. induction s as [|a s IH]; [done|]. simpl in *.
  apply andb_prop in Hs as [Ha Hs]. rewrite IH by done.
  rewrite bool_decide_eq_false_2; [done|]. intros ->. congruence.
Qed.

Lemma pretty_N_no_char (n : N) (c : ascii) :
  is_digit c = false → has_char c (pretty n) = false.
Proof.
  intros Hc. destruct (pretty_N_digits n) as (a & rest & -> & Ha & Hrest).
  simpl. rewrite (all_chars_no_char is_digit c rest) by done.
  rewrite bool_decide_eq_false_2; [done|]. intros ->. congruence.
Qed.
End decimal.

(** ** Addresses *)

Lemma parseIpAddressToUint8Array_parts (ipAddress : string) :
  parseIpAddressToUint8Array ipAddress =
  (λ i, ToUint8 (parseInt_10 (js_str (JsString.split ipAddress "." !! i))))
    <$> [0; 1; 2; 3].
Proof. reflexivity. Qed.

Lemma parseIpAddressToUint8Array_decimal (octets : list N) :
  (∀ n, n ∈ octets → (n ≤ 2 ^ 53)%N) →
  parseIpAddressToUint8Array (JsString.join (pretty <$> octets) ".") =
  (λ i, default 0%N ((λ n, n `mod` 256)%N <$> octets !! i)) <$> [0; 1; 2; 3].
Proof.
  intros Hexact.
  rewrite parseIpAddressToUint8Array_parts. apply list_fmap_ext. intros _ i _.
  destruct octets as [|n octets].
  - simpl. by destruct i.
  - rewrite split_join; [|done|].
    + rewrite list_lookup_fmap.
      destruct ((n :: octets) !! i) as [m|] eqn:Hm; simpl; [|done].
      rewrite parseInt_10_pretty, ToUint8_of_N; [done|].
      apply Hexact. by eapply list_elem_of_lookup_2.
    + intros s (m & -> & _)%list_elem_of_fmap. by apply pretty_N_no_char.
Qed.

(** X24.  [parseIpAddressToUint8Array] of a dotted quad of four numbers
    below 256, written in decimal, is the four numbers: the address
    [a.b.c.d] comes back as the bytes [a], [b], [c], [d]. *)
Theorem parseIpAddressToUint8Array_roundtrip (a b c d : N) :
  (a < 256)%N → (b < 256)%N → (c < 256)%N → (d < 256)%N →
  parseIpAddressToUint8Array
    (pretty a +:+ "." +:+ pretty b +:+ "." +:+ pretty c +:+ "." +:+ pretty d) =
  [a; b; c; d].
Proof.
  intros Ha Hb Hc Hd.
  change (pretty a +:+ "." +:+ pretty b +:+ "." +:+ pretty c +:+ "." +:+ pretty d)
    with (JsString.join (pretty <$> [a; b; c; d]) ".").
  rewrite parseIpAddressToUint8Array_decimal.
  - simpl. by rewrite !N.mod_small.
  - intros n Hn. assert (n < 256)%N; [|lia].
    repeat (apply elem_of_cons in Hn as [->|Hn]; [done|]). by apply elem_of_nil in Hn.
Qed.

(** X25.  [parseIpAddressToUint8Array] does not validate the address.  For
    any list of numbers written in decimal and joined by dots it returns
    four bytes: a number from 256 on is stored modulo 256, a part that is
    missing is stored as 0, and parts after the fourth are ignored.  The
    numbers are at most [2^53], up to where a Number holds every integer
    exactly. *)
Theorem parseIpAddressToUint8Array_wraps (octets : list N) :
  (∀ n, n ∈ octets → (n ≤ 2 ^ 53)%N) →
  parseIpAddressToUint8Array (JsString.join (pretty <$> octets) ".") =
    (λ i, default 0%N ((λ n, n `mod` 256)%N <$> octets !! i)) <$> [0; 1; 2; 3] ∧
  length (parseIpAddressToUint8Array (JsString.join (pretty <$> octets) ".")) = 4.
Proof.
  intros Hexact. by rewrite parseIpAddressToUint8Array_decimal.
Qed.
(** ** Numeric strings *)

Section numeric.
Import JsString NumericLiteral.

Lemma digit_not_white_space (c : ascii) : is_digit c = true → is_white_space c = false.
Proof. destruct c as [[] [] [] [] [] [] [] []]; done. Qed.

Lemma strip_sign_digit (c : ascii) (rest : string) :
  is_digit c = true → strip_sign (String c rest) = String c rest.
Proof. destruct c as [[] [] [] [] [] [] [] []]; done. Qed.

Lemma trimEnd_not_white_space (s : string) :
  all_chars (λ c, negb (is_white_space c)) s = true → trimEnd s = s.
Proof.
  induction s as [|a s IH]; [done|]. simpl. intros [Ha Hs]%andb_prop.
  rewrite IH by done. apply negb_true_iff in Ha. by rewrite Ha.
Qed.

Lemma all_chars_impl (p q : ascii → bool) (s : string) :
  (∀ c, p c = true → q c = true) → all_chars p s = true → all_chars q s = true.
Proof.
  intros Hpq. induction s as [|a s IH]; [done|]. simpl.
  intros [Ha Hs]%andb_prop. by rewrite Hpq, IH.
Qed.

Lemma skip_digits_all (s : string) : all_chars is_digit s = true → skip_digits s = "".
Proof.
  induction s as [|a s IH]; [done|]. simpl. intros [Ha Hs]%andb_prop.
  rewrite Ha. by apply IH.
Qed.

Lemma StrUnsignedDecimalLiteral_digits (c : ascii) (rest : string) :
  is_digit c = true → all_chars is_digit rest = true →
  StrUnsignedDecimalLiteral (String c rest) = true.
Proof.
  intros Hc Hrest. unfold StrUnsignedDecimalLiteral. apply orb_true_iff. right.
  assert (skip_digits (String c rest) = "") as Hskip
    by (apply skip_digits_all; simpl; by rewrite Hc).
  destruct c as [[] [] [] [] [] [] [] []]; try done; by rewrite Hskip.
Qed.

Lemma trim_not_white_space (s : string) :
  all_chars (λ c, negb (is_white_space c)) s = true → trim s = s.
Proof.
  intros Hs. unfold trim.
  assert (trimStart s = s) as ->.
  { destruct s as [|a s]; [done|]. simpl in *. apply andb_prop in Hs as [Ha _].
    apply negb_true_iff in Ha. by rewrite Ha. }
  by apply trimEnd_not_white_space.
Qed.

(** A string of digits, with or without a minus sign before it. *)
Lemma isNumeric_digits (sign : string) (c : ascii) (rest : string) :
  sign = "-" ∨ sign = "" →
  is_digit c = true → all_chars is_digit rest = true →
  isNumeric (Some (sign +:+ String c rest)) = true.
Proof.
  intros Hsign Hc Hrest.
  assert (all_chars (λ a, negb (is_white_space a)) (String c rest) = true) as Hnw.
  { apply (all_chars_impl is_digit); [|simpl; by rewrite Hc].
    intros a Ha. by rewrite digit_not_white_space. }
  assert (StrDecimalLiteral (sign +:+ String c rest) = true) as Hdec.
  { unfold StrDecimalLiteral. destruct Hsign as [->| ->].
    - change (strip_sign ("-" +:+ String c rest)) with (String c rest).
      by apply StrUnsignedDecimalLiteral_digits.
    - rewrite string_app_nil_l, strip_sign_digit by done.
      by apply StrUnsignedDecimalLiteral_digits. }
  assert (trim (sign +:+ String c rest) = sign +:+ String c rest) as Htrim.
  { apply trim_not_white_space. destruct Hsign as [->| ->]; [|done].
    change ("-" +:+ String c rest) with (String "-" (String c rest)).
    change (all_chars (λ a, negb (is_white_space a)) (String "-" (String c rest)))
      with (true && all_chars (λ a, negb (is_white_space a)) (String c rest)).
    by rewrite Hnw. }
  assert (trimStart (sign +:+ String c rest) = sign +:+ String c rest) as Hstart.
  { destruct Hsign as [->| ->].
    - done.
    - rewrite string_app_nil_l. simpl. by rewrite digit_not_white_space. }
  unfold isNumeric, Number_isNaN, parseFloat_isNaN.
  rewrite Htrim, Hstart, Hdec, orb_true_r. simpl negb at 1.
  assert (strip_sign (sign +:+ String c rest) = String c rest) as ->.
  { destruct Hsign as [->| ->]; [done|].
    by rewrite string_app_nil_l, strip_sign_digit. }
  unfold decimal_prefix. cbn [starts_with_digit]. by rewrite Hc, orb_true_r.
Qed.

Lemma trimEnd_split (s : string) : ∃ ws, s = trimEnd s +:+ ws ∧ blank ws = true.
Proof.
  induction s as [|a s (ws & Hs & Hws)]; [by exists ""|]. simpl.
  destruct (is_white_space a) eqn:Ha; simpl.
  - case_bool_decide as Ht.
    + exists (String a s). split; [done|]. unfold blank. simpl. rewrite Ha. simpl.
      rewrite Ht in Hs. rewrite string_app_nil_l in Hs. by subst ws.
    + exists ws. split; [|done]. by rewrite string_app_cons, <- Hs.
  - exists ws. split; [|done]. by rewrite string_app_cons, <- Hs.
Qed.

Lemma starts_with_digit_app (s t : string) :
  starts_with_digit s = true → starts_with_digit (s +:+ t) = true.
Proof. by destruct s. Qed.

Lemma decimal_prefix_unsigned (s ws : string) :
  StrUnsignedDecimalLiteral s = true → decimal_prefix (s +:+ ws) = true.
Proof.
  unfold StrUnsignedDecimalLiteral, decimal_prefix.
  intros [Hinf|Hs]%orb_true_iff.
  - apply bool_decide_eq_true in Hinf as ->. by rewrite prefix_app.
  - destruct s as [|c s]; [done|]. rewrite string_app_cons.
    destruct (decide (c = "."%char)) as [->|Hc].
    + apply andb_prop in Hs as [Hd _].
      rewrite (starts_with_digit_app s ws Hd). by rewrite !orb_true_r.
    + assert (is_digit c = true) as Hd.
      { destruct c as [[] [] [] [] [] [] [] []]; try done;
          by apply andb_prop in Hs as [? _]. }
      simpl. by rewrite Hd, orb_true_r.
Qed.

Lemma decimal_prefix_literal (s ws : string) :
  s ≠ "" →
  StrDecimalLiteral s || NonDecimalIntegerLiteral s = true →
  decimal_prefix (strip_sign (s +:+ ws)) = true.
Proof.
  intros Hne [Hdec|Hnon]%orb_true_iff.
  - unfold StrDecimalLiteral in Hdec.
    assert (strip_sign (s +:+ ws) = strip_sign s +:+ ws) as ->.
    { destruct s as [|c s]; [done|]. rewrite string_app_cons.
      destruct c as [[] [] [] [] [] [] [] []]; done. }
    by apply decimal_prefix_unsigned.
  - destruct s as [|c s]; [done|].
    assert (c = "0"%char) as ->.
    { destruct c as [[] [] [] [] [] [] [] []]; done. }
    rewrite string_app_cons. done.
Qed.
End numeric.

(** X26.  [isNumeric] accepts a string exactly when [Number] converts it to
    a number and it is not blank: the second test, with [parseFloat], rejects
    the empty string and the strings of white space only, which [Number]
    converts to 0, and nothing else.  A value that is not a string is never
    numeric. *)
Theorem isNumeric_iff (str : string) :
  (isNumeric (Some str) = true ↔
   NumericLiteral.Number_isNaN str = false ∧ blank str = false) ∧
  isNumeric None = false.
Proof.
  split; [|done]. unfold isNumeric. rewrite andb_true_iff, !negb_true_iff.
  split.
  - intros [Hnum Hfloat]. split; [done|].
    destruct (blank str) eqn:Hblank; [|done].
    unfold NumericLiteral.parseFloat_isNaN in Hfloat.
    by rewrite trimStart_blank in Hfloat.
  - intros [Hnum Hblank]. split; [done|].
    unfold NumericLiteral.Number_isNaN, JsString.trim in Hnum.
    apply negb_false_iff in Hnum.
    set (u := JsString.trimStart str) in *.
    destruct (trimEnd_split u) as (ws & Hu & Hws).
    assert (JsString.trimEnd u ≠ "") as Hne.
    { intros Hnil. apply trimEnd_nil in Hnil.
      apply trimStart_blank in Hnil. unfold u in Hnil.
      rewrite trimStart_idem in Hnil. apply trimStart_blank_inv in Hnil. congruence. }
    rewrite bool_decide_eq_false_2 in Hnum by done. simpl in Hnum.
    unfold NumericLiteral.parseFloat_isNaN. fold u. rewrite Hu.
    apply negb_false_iff. by apply decimal_prefix_literal.
Qed.

(** X27.  Every integer in decimal notation is numeric: [isNumeric] accepts
    the decimal form of every natural number, and that form with a minus
    sign before it. *)
Theorem isNumeric_decimal (n : N) :
  isNumeric (Some (pretty n)) = true ∧
  isNumeric (Some ("-" +:+ pretty n)) = true.
Proof.
  destruct (pretty_N_digits n) as (c & rest & -> & Hc & Hrest). split.
  - apply (isNumeric_digits ""); auto.
  - apply (isNumeric_digits "-"); auto.
Qed.
(** ** The account map as a whole *)

Lemma JsMap_set_fresh {V} (k : string) (v : V) (m : list (string * V)) :
  k ∉ m.*1 → JsMap.set k v m = m ++ [(k, v)].
Proof.
  induction m as [|[k' v'] m IH]; intros Hk; simpl; [done|].
  rewrite fmap_cons, not_elem_of_cons in Hk. destruct Hk as [Hne Hk]. simpl in Hne.
  rewrite decide_False by done. by rewrite IH.
Qed.

Lemma JsMap_set_keys {V} (k k' : string) (v : V) (m : list (string * V)) :
  k' ∈ (JsMap.set k v m).*1 ↔ k' = k ∨ k' ∈ m.*1.
Proof.
  induction m as [|[k0 v0] m IH]; simpl.
  - rewrite list_elem_of_singleton, elem_of_nil. tauto.
  - destruct (decide (k0 = k)) as [->|Hne]; simpl; rewrite !elem_of_cons; [tauto|].
    rewrite IH. tauto.
Qed.

Lemma JsMap_get_is_Some {V} (k : string) (m : list (string * V)) :
  is_Some (JsMap.get k m) ↔ k ∈ m.*1.
Proof.
  induction m as [|[k0 v0] m IH]; simpl.
  - rewrite elem_of_nil. split; [by intros [? ?]|done].
  - rewrite elem_of_cons. simpl. destruct (decide (k0 = k)) as [->|Hne].
    + split; [by left | by eexists].
    + rewrite IH. split; [by right|]. intros [->|?]; done.
Qed.

Lemma last_occurrence (k : string) (l : list string) :
  k ∈ l → ∃ i, l !! i = Some k ∧ k ∉ drop (S i) l.
Proof.
  induction l as [|x l IH]; intros Hk; [by apply elem_of_nil in Hk|].
  destruct (decide (k ∈ l)) as [Hin|Hnin].
  - destruct (IH Hin) as (i & Hi & Hlast). by exists (S i).
  - apply elem_of_cons in Hk as [->|?]; [|done]. exists 0. split; [done|].
    simpl. by rewrite drop_0.
Qed.

Section account_map_whole.
Context `{Constants}.

Lemma account_of_inj (n m : N) : account_of n = account_of m → n = m.
Proof.
  unfold account_of. intros Heq.
  apply (inj (String.app _)) in Heq. apply (inj (String.app ".")) in Heq.
  apply (inj (String.app _)) in Heq. apply (inj (String.app ".")) in Heq.
  by apply (inj pretty) in Heq.
Qed.

Lemma getNodeAccountMap_keys (nodeIDs : list string) (nodeID : string) :
  nodeID ∈ (getNodeAccountMap nodeIDs).*1 ↔ nodeID ∈ nodeIDs.
Proof.
  induction nodeIDs as [|x l IH] using rev_ind.
  - done.
  - rewrite getNodeAccountMap_snoc, JsMap_set_keys, IH, elem_of_app,
      list_elem_of_singleton. tauto.
Qed.

Lemma getNodeAccountMap_NoDup (nodeIDs : list string) :
  NoDup nodeIDs →
  getNodeAccountMap nodeIDs =
  imap (λ i nodeID,
          (nodeID, account_of (num HEDERA_NODE_ACCOUNT_ID_START + N.of_nat i))) nodeIDs.
Proof.
  induction nodeIDs as [|x l IH] using rev_ind; intros Hnodup; [done|].
  apply NoDup_app in Hnodup as (Hl & Hx & _).
  rewrite getNodeAccountMap_snoc, imap_app. simpl.
  rewrite JsMap_set_fresh.
  - rewrite IH by done. by rewrite Nat.add_0_r.
  - rewrite getNodeAccountMap_keys. intros Hin. apply (Hx x Hin). by left.
Qed.
End account_map_whole.

(** X12.  For a list of node names without repetition the account map has
    exactly one entry per node, in the order of the list, and the node at
    position [i] has the account [realm.shard.(num + i)]: the numbers are
    consecutive from the start constant.  The empty list gives the empty
    map. *)
Theorem getNodeAccountMap_consecutive `{Constants} (nodeIDs : list string) :
  NoDup nodeIDs →
  getNodeAccountMap nodeIDs =
    imap (λ i nodeID,
            (nodeID, account_of (num HEDERA_NODE_ACCOUNT_ID_START + N.of_nat i)))
      nodeIDs ∧
  (getNodeAccountMap nodeIDs).*1 = nodeIDs ∧
  length (getNodeAccountMap nodeIDs) = length nodeIDs.
Proof.
  intros Hnodup. rewrite getNodeAccountMap_NoDup by done. split; [done|]. split.
  - rewrite fmap_imap. simpl. clear Hnodup.
    generalize 0. induction nodeIDs as [|x l IH]; intros n; simpl; [done|].
    f_equal. rewrite <- (IH (S n)) at 2. apply imap_ext. intros i y _. simpl. done.
  - by rewrite length_imap.
Qed.

(** X13.  Whatever the list of node names, with or without repetitions, the
    account map is defined exactly on the names of the list, and no two
    names share an account identifier: two names with the same account are
    the same name.  A name that is not listed has no account. *)
Theorem getNodeAccountMap_injective `{Constants} (nodeIDs : list string)
    (a b : string) :
  (is_Some (JsMap.get a (getNodeAccountMap nodeIDs)) ↔ a ∈ nodeIDs) ∧
  (∀ account,
     JsMap.get a (getNodeAccountMap nodeIDs) = Some account →
     JsMap.get b (getNodeAccountMap nodeIDs) = Some account →
     a = b).
Proof.
  split.
  - by rewrite JsMap_get_is_Some, getNodeAccountMap_keys.
  - intros account Ha Hb.
    assert (a ∈ nodeIDs) as Hain
      by (rewrite <- getNodeAccountMap_keys, <- JsMap_get_is_Some; by eexists).
    assert (b ∈ nodeIDs) as Hbin
      by (rewrite <- getNodeAccountMap_keys, <- JsMap_get_is_Some; by eexists).
    destruct (last_occurrence a nodeIDs Hain) as (i & Hi & Hilast).
    destruct (last_occurrence b nodeIDs Hbin) as (j & Hj & Hjlast).
    rewrite (getNodeAccountMap_at nodeIDs i a Hi Hilast) in Ha.
    rewrite (getNodeAccountMap_at nodeIDs j b Hj Hjlast) in Hb.
    assert (i = j) as ->.
    { rewrite <- Hb in Ha. injection Ha as Ha. apply account_of_inj in Ha. lia. }
    congruence.
Qed.
(** ** Backups *)

Lemma has_char_string_repeat (c : ascii) (n : nat) (fill : string) :
  has_char c fill = false → has_char c (string_repeat n fill) = false.
Proof.
  intros Hfill. induction n as [|n IH]; [done|].
  simpl. by rewrite has_char_app, Hfill, IH.
Qed.

Lemma has_char_padStart (c : ascii) (n : nat) (fill s : string) :
  has_char c fill = false → has_char c s = false →
  has_char c (padStart n fill s) = false.
Proof.
  intros Hfill Hs. unfold padStart.
  by rewrite has_char_app, has_char_string_repeat, Hs.
Qed.

Lemma string_app_ne_self (s t : string) : t ≠ "" → s +:+ t ≠ s.
Proof.
  intros Ht Heq. assert (String.length (s +:+ t) = String.length s) as Hlen
    by (by rewrite Heq).
  rewrite string_app_length in Hlen. destruct t; [done|]. simpl in Hlen. lia.
Qed.

Lemma pretty_nat_no_separator (n : nat) : has_char "/" (pretty n) = false.
Proof. by apply (pretty_N_no_char (N.of_nat n)). Qed.

(** The name of a backup directory is a file name: digits and one
    underscore. *)
Lemma is_name_backup_dateDir (curDate : Date) : is_name (backup_dateDir curDate) = true.
Proof.
  apply is_name_spec.
  assert (has_char "_" (backup_dateDir curDate) = true) as Hunderscore.
  { unfold backup_dateDir. rewrite !has_char_app.
    change (has_char "_" "_") with true. by rewrite !orb_true_r. }
  repeat split; try (intros Heq; rewrite Heq in Hunderscore; by vm_compute in Hunderscore).
  unfold backup_dateDir. rewrite !has_char_app.
  by rewrite !has_char_padStart, pretty_nat_no_separator
    by (done || apply pretty_nat_no_separator).
Qed.

(** A directory above a path is a part of the path that a separator
    follows. *)
Lemma parents_go_prefix (cur name p dir : string) :
  dir ∈ fs.parents_go cur name p →
  ∃ before rest, dir = cur +:+ before ∧ p = before +:+ "/" +:+ rest.
Proof.
  revert cur name. induction p as [|c p IH]; intros cur name Hdir.
  { by apply elem_of_nil in Hdir. }
  simpl in Hdir. case_bool_decide as Hc.
  - subst c. apply elem_of_app in Hdir as [Hdir|Hdir].
    + exists "", p. split; [|done]. rewrite string_app_nil_r.
      destruct (_ || _); [by apply elem_of_nil in Hdir|].
      by apply list_elem_of_singleton in Hdir.
    + apply IH in Hdir as (before & rest & -> & ->).
      exists ("/" +:+ before), rest. by rewrite <- string_app_assoc.
  - apply IH in Hdir as (before & rest & -> & ->).
    exists (String c before), rest. split; [|done].
    by rewrite string_app_snoc.
Qed.

Lemma parents_prefix (p dir : string) :
  dir ∈ fs.parents p → ∃ rest, p = dir +:+ "/" +:+ rest.
Proof.
  intros (before & rest & -> & ->)%parents_go_prefix. exists rest.
  by rewrite string_app_nil_l.
Qed.

Lemma parents_ne (p : string) : p ∉ fs.parents p.
Proof.
  intros (rest & Hp)%parents_prefix. symmetry in Hp.
  by apply string_app_ne_self in Hp.
Qed.

(** Making directories where no file is in the way makes them all. *)
Lemma make_directories_ok (dirs : list string) (files : gmap string Node) :
  (∀ dir data, dir ∈ dirs → files !! dir ≠ Some (File data)) →
  ∃ files',
    fs.make_directories dirs files = (files', None) ∧
    ∀ dir, dir ∈ dirs → files' !! dir = Some Directory.
Proof.
  revert files. induction dirs as [|dir rest IH]; intros files Hfiles.
  { eexists. split; [done|]. by intros dir ?%elem_of_nil. }
  simpl. destruct (files !! dir) as [[data|]|] eqn:Hdir.
  - by destruct (Hfiles dir data); [left|].
  - destruct (IH files) as (files' & Hrun & Hmade).
    { intros d data Hd. apply Hfiles. by right. }
    exists files'. split; [done|]. intros d [->|Hd]%elem_of_cons; [|by apply Hmade].
    pose proof (make_directories_keeps rest files dir Directory Hdir) as Hkeep.
    by rewrite Hrun in Hkeep.
  - destruct (IH (<[dir := Directory]> files)) as (files' & Hrun & Hmade).
    { intros d data Hd. destruct (decide (d = dir)) as [->|Hne].
      - by rewrite lookup_insert_eq.
      - rewrite lookup_insert_ne by done. apply Hfiles. by right. }
    exists files'. split; [done|]. intros d [->|Hd]%elem_of_cons; [|by apply Hmade].
    pose proof (make_directories_keeps rest (<[dir := Directory]> files) dir Directory)
      as Hkeep.
    rewrite Hrun in Hkeep. apply Hkeep. by rewrite lookup_insert_eq.
Qed.

Lemma createBackupDir_run (destDir : string) (prefix : option string) (curDate : Date)
    (w : World) :
  let backupDir := path.join [destDir; default "backup" prefix; backup_dateDir curDate] in
  createBackupDir destDir prefix (Some curDate) w =
    (if bool_decide (is_Some (w_fs w !! backupDir)) then (w, inr backupDir)
     else ((fs.mkdirSync backupDir w).1,
           match (fs.mkdirSync backupDir w).2 with
           | inl e => inl e
           | inr _ => inr backupDir
           end)).
Proof.
  intros backupDir. subst backupDir.
  unfold createBackupDir, backup_dateDir, bind, ret, fs.existsSync.
  cbv beta zeta. set (backupDir := path.join _).
  destruct (bool_decide (is_Some (w_fs w !! backupDir))); [done|].
  unfold negb. cbv beta iota. by destruct (fs.mkdirSync backupDir w) as [w1 [e|[]]].
Qed.

(** What [createBackupDir] does where no file stands above the backup
    directory. *)
Lemma createBackupDir_made (destDir : string) (prefix : option string) (curDate : Date)
    (w : World) :
  let backupDir := path.join [destDir; default "backup" prefix; backup_dateDir curDate] in
  (∀ dir data, dir ∈ fs.parents backupDir → w_fs w !! dir ≠ Some (File data)) →
  ∃ w',
    createBackupDir destDir prefix (Some curDate) w = (w', inr backupDir) ∧
    is_Some (w_fs w' !! backupDir) ∧
    (∀ p node, w_fs w !! p = Some node → w_fs w' !! p = Some node) ∧
    (∀ p, p ≠ backupDir → p ∉ fs.parents backupDir → w_fs w' !! p = w_fs w !! p) ∧
    (is_Some (w_fs w !! backupDir) → w' = w) ∧
    (w_fs w !! backupDir = None →
     ∀ dir, dir ∈ fs.parents backupDir ++ [backupDir] → w_fs w' !! dir = Some Directory).
Proof.
  intros backupDir Hparents. rewrite createBackupDir_run. fold backupDir.
  case_bool_decide as Hdir.
  { exists w. repeat split; try done. intros Hnone. rewrite Hnone in Hdir.
    by destruct Hdir. }
  assert (w_fs w !! backupDir = None) as Hnone.
  { destruct (w_fs w !! backupDir) eqn:Heq; [|done]. by destruct Hdir. }
  destruct (make_directories_ok (fs.parents backupDir ++ [backupDir]) (w_fs w))
    as (files & Hrun & Hmade).
  { intros dir data [Hdir'| ->%list_elem_of_singleton]%elem_of_app.
    - by apply Hparents.
    - by rewrite Hnone. }
  pose proof (λ p, make_directories_other (fs.parents backupDir ++ [backupDir])
                     (w_fs w) p) as Hother.
  pose proof (λ p node, make_directories_keeps (fs.parents backupDir ++ [backupDir])
                          (w_fs w) p node) as Hkeep.
  unfold fs.mkdirSync. rewrite Hnone, Hrun. rewrite Hrun in Hother, Hkeep.
  eexists. split; [done|]. simpl in *.
  split; [rewrite Hmade; [done|]; apply elem_of_app; right; by left|].
  split; [done|].
  split.
  { intros p Hp1 Hp2. apply Hother. rewrite elem_of_app, list_elem_of_singleton.
    by intros [?|?]. }
  split; [by intros [? ?]|].
  intros _. exact Hmade.
Qed.

(** X14.  Where no file stands at a directory above it, [createBackupDir]
    returns the path that [path.join] makes of [destDir], the prefix and the
    directory name [YYYYMMDD_hhmmss] built from the fields of the date (the
    month field is the zero-based [getMonth]); the last segment of the path
    is that directory name, and for a [destDir] in normal spelling and a
    prefix that is a file name the path is [destDir/prefix/YYYYMMDD_hhmmss].
    Afterwards something exists at the path; no node that existed has
    changed, and no path other than the backup directory and the
    directories above it.  When the path existed before (as a directory or
    as a file) the call changes nothing; when it did not, it and every
    directory above it are directories afterwards.  A second call for the
    same date is without effect. *)
Theorem createBackupDir_returns (destDir : string) (prefix : option string)
    (curDate : Date) (w : World) :
  let backupDir := path.join [destDir; default "backup" prefix; backup_dateDir curDate] in
  (∀ dir data, dir ∈ fs.parents backupDir → w_fs w !! dir ≠ Some (File data)) →
  ∃ w',
    createBackupDir destDir prefix (Some curDate) w = (w', inr backupDir) ∧
    last_segment backupDir = backup_dateDir curDate ∧
    (is_clean destDir = true → is_name (default "backup" prefix) = true →
     backupDir =
       destDir +:+ "/" +:+ default "backup" prefix +:+ "/" +:+ backup_dateDir curDate) ∧
    is_Some (w_fs w' !! backupDir) ∧
    (∀ p node, w_fs w !! p = Some node → w_fs w' !! p = Some node) ∧
    (∀ p, p ≠ backupDir → p ∉ fs.parents backupDir → w_fs w' !! p = w_fs w !! p) ∧
    (is_Some (w_fs w !! backupDir) → w' = w) ∧
    (w_fs w !! backupDir = None →
     ∀ dir, dir ∈ fs.parents backupDir ++ [backupDir] → w_fs w' !! dir = Some Directory) ∧
    createBackupDir destDir prefix (Some curDate) w' = (w', inr backupDir).
Proof.
  intros backupDir Hparents.
  destruct (createBackupDir_made destDir prefix curDate w Hparents)
    as (w' & Hrun & Hsome & Hkeep & Hframe & Hsame & Hmade).
  fold backupDir in Hrun, Hsome, Hkeep, Hframe, Hsame, Hmade.
  exists w'. split; [done|].
  split.
  { pose proof (is_name_backup_dateDir curDate) as Hname.
    pose proof Hname as (_ & _ & _ & Hsep)%is_name_spec.
    unfold backupDir.
    pose proof (join_last_segment [destDir; default "backup" prefix]
                  (backup_dateDir curDate)) as Hlast.
    rewrite last_segment_name in Hlast by done. by apply Hlast. }
  split.
  { intros Hclean Hprefix. apply path_join_3_clean; [done..|].
    apply is_name_backup_dateDir. }
  do 5 (split; [done|]).
  rewrite createBackupDir_run. fold backupDir. by rewrite bool_decide_eq_true_2.
Qed.

Lemma cpSync_run (src dest : string) (data : Text) (w : World) :
  w_fs w !! src = Some (File data) →
  src ≠ dest →
  not_directory w dest →
  fs.cpSync src dest w =
    (with_fs w (<[dest := File data]> (w_fs w)) (EvWriteFile dest), inr tt).
Proof.
  intros Hsrc Hne Hdest. unfold fs.cpSync, not_directory in *.
  rewrite Hsrc, decide_False by done. by destruct (w_fs w !! dest) as [[old|]|].
Qed.

Lemma rmSync_run (p : string) (data : Text) (w : World) :
  w_fs w !! p = Some (File data) →
  fs.rmSync p w = (with_fs w (delete p (w_fs w)) (EvRm p), inr tt).
Proof. intros Hp. unfold fs.rmSync. by rewrite Hp. Qed.

(** One entry of the file map. *)
Lemma makeBackup_entry (srcPath destPath : string) (removeOld : bool) (w : World) :
  srcPath ≠ destPath →
  not_directory w srcPath →
  not_directory w destPath →
  ∃ w',
    (let* present := fs.existsSync srcPath in
     if present then
       fs.cpSync srcPath destPath >>
       (if removeOld then fs.rmSync srcPath else ret tt)
     else ret tt) w = (w', inr tt) ∧
    w_fs w' !! destPath = backed_up (w_fs w) srcPath destPath ∧
    w_fs w' !! srcPath = (if removeOld then None else w_fs w !! srcPath) ∧
    (∀ p, p ≠ srcPath → p ≠ destPath → w_fs w' !! p = w_fs w !! p).
Proof.
  intros Hne Hsrc Hdest. unfold backed_up.
  unfold bind at 1, fs.existsSync at 1.
  destruct (w_fs w !! srcPath) as [[data|]|] eqn:Hs; [|by destruct Hsrc|].
  - rewrite bool_decide_eq_true_2 by eauto.
    rewrite (bind_inr _ _ _ _ _ (cpSync_run _ _ _ _ Hs Hne Hdest)).
    destruct removeOld.
    + erewrite rmSync_run by (simpl; by rewrite lookup_insert_ne).
      eexists. split; [done|]. simpl.
      rewrite lookup_delete_ne, lookup_insert_eq, lookup_delete_eq by done.
      repeat split. intros p Hp1 Hp2. by rewrite lookup_delete_ne, lookup_insert_ne.
    + eexists. split; [done|]. simpl.
      rewrite lookup_insert_eq, lookup_insert_ne, Hs by done.
      repeat split. intros p Hp1 Hp2. by rewrite lookup_insert_ne.
  - rewrite bool_decide_eq_false_2 by (by intros [? ?]).
    eexists. split; [done|]. rewrite Hs. repeat split. by destruct removeOld.
Qed.

Lemma backup_paths_elem (fileMap : list (string * string)) (p : string) :
  p ∈ backup_paths fileMap ↔
  ∃ srcPath destPath, (srcPath, destPath) ∈ fileMap ∧ (p = srcPath ∨ p = destPath).
Proof.
  induction fileMap as [|[s d] rest IH]; simpl.
  - rewrite elem_of_nil. split; [done|]. by intros (? & ? & ?%elem_of_nil & _).
  - rewrite !elem_of_cons, IH. split.
    + intros [->|[->|(s' & d' & Hin & Hp)]].
      * exists s, d. split; [by left | by left].
      * exists s, d. split; [by left | by right].
      * exists s', d'. split; [by right | done].
    + intros (s' & d' & [[= -> ->]|Hin]%elem_of_cons & Hp).
      * destruct Hp; auto.
      * do 2 right. by exists s', d'.
Qed.

Lemma makeBackup_run (fileMap : list (string * string)) (removeOld : bool) (w : World) :
  NoDup (backup_paths fileMap) →
  (∀ p, p ∈ backup_paths fileMap → not_directory w p) →
  ∃ w',
    makeBackup fileMap removeOld w = (w', inr tt) ∧
    (∀ srcPath destPath, (srcPath, destPath) ∈ fileMap →
       w_fs w' !! destPath = backed_up (w_fs w) srcPath destPath ∧
       w_fs w' !! srcPath = (if removeOld then None else w_fs w !! srcPath)) ∧
    (∀ p, p ∉ backup_paths fileMap → w_fs w' !! p = w_fs w !! p).
Proof.
  revert w. induction fileMap as [|[s d] rest IH]; intros w Hnodup Hdirs.
  - exists w. split; [done|]. split; [|done]. by intros s d ?%elem_of_nil.
  - simpl in Hnodup. apply NoDup_cons in Hnodup as [Hs Hnodup].
    apply NoDup_cons in Hnodup as [Hd Hnodup].
    apply not_elem_of_cons in Hs as [Hsd Hs].
    destruct (makeBackup_entry s d removeOld w) as (w1 & Hrun1 & Hd1 & Hs1 & Hframe1).
    { done. }
    { apply Hdirs. simpl. by left. }
    { apply Hdirs. simpl. right. by left. }
    destruct (IH w1 Hnodup) as (w' & Hrun & Hmoved & Hframe).
    { intros p Hp. unfold not_directory. rewrite Hframe1.
      - apply Hdirs. simpl. by do 2 right.
      - by intros ->.
      - by intros ->. }
    exists w'. split.
    { unfold makeBackup. simpl. unfold bind at 1. simpl in Hrun1. by rewrite Hrun1. }
    split.
    + intros s' d' [[= -> ->]|Hin]%elem_of_cons.
      * by rewrite !Hframe.
      * destruct (Hmoved s' d' Hin) as [Hd' Hs'].
        assert (s' ∈ backup_paths rest ∧ d' ∈ backup_paths rest) as [Hsin Hdin].
        { rewrite !backup_paths_elem. split; exists s', d'; auto. }
        rewrite Hd', Hs'. unfold backed_up.
        rewrite !Hframe1 by (by intros ->). done.
    + intros p Hp. simpl in Hp.
      apply not_elem_of_cons in Hp as [Hps Hp].
      apply not_elem_of_cons in Hp as [Hpd Hp].
      rewrite Hframe by done. by apply Hframe1.
Qed.

(** X15.  [makeBackup] over a file map whose source and destination paths
    are pairwise distinct and none of them a directory returns, and for
    every entry: a source file that exists is at the destination afterwards
    with its content (replacing what was there), and it is gone from the
    source when [removeOld] is set and still there otherwise; an entry
    without a source file changes nothing.  Paths that the map does not name
    keep what they held. *)
Theorem makeBackup_moves (fileMap : list (string * string)) (removeOld : bool)
    (w : World) :
  NoDup (backup_paths fileMap) →
  (∀ p, p ∈ backup_paths fileMap → not_directory w p) →
  ∃ w',
    makeBackup fileMap removeOld w = (w', inr tt) ∧
    (∀ srcPath destPath, (srcPath, destPath) ∈ fileMap →
       w_fs w' !! destPath = backed_up (w_fs w) srcPath destPath ∧
       w_fs w' !! srcPath = (if removeOld then None else w_fs w !! srcPath)) ∧
    (∀ p, p ∉ backup_paths fileMap → w_fs w' !! p = w_fs w !! p).
Proof. apply makeBackup_run. Qed.
(** ** The backups of the key files *)

Lemma JsMap_set_same {V} (k : string) (v : V) (m : list (string * V)) :
  NoDup m.*1 → (k, v) ∈ m → JsMap.set k v m = m.
Proof.
  induction m as [|[k' v'] m IH]; intros Hnodup Hin; [by apply elem_of_nil in Hin|].
  simpl in *. apply NoDup_cons in Hnodup as [Hk' Hnodup].
  apply elem_of_cons in Hin as [[= <- <-]|Hin].
  - by rewrite decide_True.
  - rewrite decide_False, IH; [done..|].
    intros ->. apply Hk'. apply list_elem_of_fmap. by exists (k, v).
Qed.

Lemma backup_fileMap_named (keysDir backupDir : string) (fileName : string → string)
    (nodeIds : list string) :
  backup_fileMap keysDir backupDir fileName nodeIds =
  named_fileMap keysDir backupDir (map fileName nodeIds).
Proof.
  unfold backup_fileMap, named_fileMap. generalize (@nil (string * string)).
  induction nodeIds as [|x l IH]; intros m; simpl; [done|]. by rewrite IH.
Qed.

(** The file map has one entry per name, and its keys are distinct, as the
    keys of a [Map] are. *)
Lemma named_fileMap_spec (keysDir backupDir : string) (names : list string) :
  (∀ name, name ∈ names → is_name name = true) →
  NoDup (named_fileMap keysDir backupDir names).*1 ∧
  ∀ entry,
    entry ∈ named_fileMap keysDir backupDir names ↔
    ∃ name, name ∈ names ∧
            entry = (path.join [keysDir; name], path.join [backupDir; name]).
Proof.
  unfold named_fileMap.
  induction names as [|x l IHl] using rev_ind; intros Hnames.
  - split; [constructor|]. intros entry. simpl. rewrite elem_of_nil.
    split; [done|]. by intros (? & ?%elem_of_nil & _).
  - destruct IHl as [IHnodup IH].
    { intros name Hname. apply Hnames, elem_of_app. by left. }
    assert (is_name x = true) as Hx.
    { apply Hnames, elem_of_app. right. by left. }
    rewrite fold_left_app. simpl.
    set (m := fold_left _ l []) in *.
    destruct (decide (path.join [keysDir; x] ∈ m.*1)) as [Hin|Hnin].
    + apply list_elem_of_fmap in Hin as ([k v] & Hk & Hin). simpl in Hk. subst k.
      pose proof (proj1 (IH _) Hin) as (name & Hname & [= Hsrc ->]).
      apply path_join_2_name_inj in Hsrc as <-;
        [|done|apply Hnames, elem_of_app; by left].
      rewrite JsMap_set_same by done. split; [done|].
      intros entry. rewrite IH. setoid_rewrite elem_of_app.
      setoid_rewrite list_elem_of_singleton. split.
      * intros (n & Hn & ->). exists n. auto.
      * intros (n & [Hn| ->] & ->); [by exists n | by exists x].
    + rewrite JsMap_set_fresh by done. split.
      * rewrite fmap_app. apply NoDup_app. split; [done|]. split.
        -- intros k Hk ->%list_elem_of_singleton. done.
        -- apply NoDup_singleton.
      * intros entry. rewrite elem_of_app, list_elem_of_singleton, IH.
        setoid_rewrite elem_of_app. setoid_rewrite list_elem_of_singleton. split.
        -- intros [(n & Hn & ->)| ->]; [exists n | exists x]; auto.
        -- intros (n & [Hn| ->] & ->); [left; by exists n | by right].
Qed.

Lemma NoDup_backup_paths (fileMap : list (string * string)) :
  NoDup fileMap.*1 →
  (∀ s1 d1 s2 d2, (s1, d1) ∈ fileMap → (s2, d2) ∈ fileMap → d1 = d2 → s1 = s2) →
  (∀ s1 d1 s2 d2, (s1, d1) ∈ fileMap → (s2, d2) ∈ fileMap → s1 ≠ d2) →
  NoDup (backup_paths fileMap).
Proof.
  induction fileMap as [|[s d] rest IH]; intros Hnodup Hdet Hsep; [constructor|].
  simpl in *. apply NoDup_cons in Hnodup as [Hs Hnodup].
  apply NoDup_cons. split; [|apply NoDup_cons; split].
  - rewrite not_elem_of_cons. split.
    + apply (Hsep s d s d); by left.
    + rewrite backup_paths_elem. intros (s' & d' & Hin & [<-| <-]).
      * apply Hs. apply list_elem_of_fmap. by exists (s, d').
      * apply (Hsep s d s' s); [by left | by right | done].
  - rewrite backup_paths_elem. intros (s' & d' & Hin & [<-| <-]).
    + apply (Hsep d d' s d); [by right | by left | done].
    + apply Hs. apply list_elem_of_fmap. exists (s', d). split; [|done]. simpl.
      apply (Hdet s d s' d); [by left | by right | done].
  - apply IH; [done| |].
    + intros s1 d1 s2 d2 H1 H2. apply (Hdet s1 d1 s2 d2); by right.
    + intros s1 d1 s2 d2 H1 H2. apply (Hsep s1 d1 s2 d2); by right.
Qed.

(** Two paths that start with different names are different paths. *)
Lemma app_separator_inj (a b x y : string) :
  has_char "/" a = false → has_char "/" b = false →
  a +:+ "/" +:+ x = b +:+ "/" +:+ y → a = b ∧ x = y.
Proof.
  revert b. induction a as [|c a IH]; intros [|d b] Ha Hb Heq;
    string_norm; simpl in Ha, Hb.
  - by simplify_eq.
  - injection Heq as <- _. by rewrite bool_decide_eq_true_2 in Hb.
  - injection Heq as -> _. by rewrite bool_decide_eq_true_2 in Ha.
  - apply orb_false_elim in Ha as [_ Ha]. apply orb_false_elim in Hb as [_ Hb].
    injection Heq as -> Heq. by destruct (IH b Ha Hb Heq) as [-> ->].
Qed.

Lemma has_char_separator_app (s t : string) : has_char "/" (s +:+ "/" +:+ t) = true.
Proof.
  rewrite has_char_app. change (has_char "/" ("/" +:+ t)) with true.
  by rewrite orb_true_r.
Qed.

Lemma is_name_unused (dirPrefix : string) :
  has_char "/" dirPrefix = false → is_name ("unused-" +:+ dirPrefix) = true.
Proof.
  intros Hsep. apply is_name_spec. string_norm.
  repeat split; first [done | simpl; by rewrite Hsep].
Qed.

(** The shared course of the backup functions: the backup directory is
    made, and every named file that exists is moved into it. *)
Lemma backup_named_run (keysDir sub : string) (curDate : Date) (names : list string)
    (w : World) :
  let backupDir := path.join [keysDir; sub; backup_dateDir curDate] in
  is_clean keysDir = true →
  is_name sub = true →
  (∀ n, n ∈ names → is_name n = true) →
  sub ∉ names →
  (∀ dir data, dir ∈ fs.parents backupDir → w_fs w !! dir ≠ Some (File data)) →
  (∀ n, n ∈ names → not_directory w (path.join [keysDir; n]) ∧
                     not_directory w (path.join [backupDir; n])) →
  ∃ w',
    (let* backupDir := createBackupDir keysDir (Some sub) (Some curDate) in
     makeBackup (named_fileMap keysDir backupDir names) true >>
     ret backupDir) w = (w', inr backupDir) ∧
    backupDir = keysDir +:+ "/" +:+ sub +:+ "/" +:+ backup_dateDir curDate ∧
    is_Some (w_fs w' !! backupDir) ∧
    (∀ n, n ∈ names →
       w_fs w' !! path.join [keysDir; n] = None ∧
       w_fs w' !! path.join [backupDir; n] =
         backed_up (w_fs w) (path.join [keysDir; n]) (path.join [backupDir; n])) ∧
    (∀ p, p ≠ backupDir → p ∉ fs.parents backupDir →
       (∀ n, n ∈ names → p ≠ path.join [keysDir; n] ∧ p ≠ path.join [backupDir; n]) →
       w_fs w' !! p = w_fs w !! p).
Proof.
  intros backupDir Hclean Hsub Hnames Hfresh Hparents Hnd.
  pose proof (is_name_backup_dateDir curDate) as Hdate.
  assert (backupDir = keysDir +:+ "/" +:+ sub +:+ "/" +:+ backup_dateDir curDate) as Hbd
    by (by apply path_join_3_clean).
  assert (is_clean backupDir = true) as Hclean_bd.
  { pose proof (is_clean_snoc _ (backup_dateDir curDate)
                  (is_clean_snoc keysDir sub Hclean Hsub) Hdate) as Hsnoc.
    rewrite !string_app_assoc in Hsnoc. by rewrite Hbd. }
  assert (∀ n, n ∈ names → path.join [keysDir; n] = keysDir +:+ "/" +:+ n) as Hsrc.
  { intros n Hn. apply path_join_2_clean; [done | by apply Hnames]. }
  assert (∀ n, n ∈ names → path.join [backupDir; n] = backupDir +:+ "/" +:+ n) as Hdst.
  { intros n Hn. apply path_join_2_clean; [done | by apply Hnames]. }
  assert (∀ n1 n2, n1 ∈ names → n2 ∈ names →
            path.join [keysDir; n1] ≠ path.join [backupDir; n2]) as Hsep.
  { intros n1 n2 Hn1 Hn2. rewrite Hsrc, Hdst, Hbd, !string_app_assoc by done.
    intros Heq%(inj (String.app keysDir)). apply (inj (String.app "/")) in Heq.
    apply Hnames, is_name_spec in Hn1 as (_ & _ & _ & Hn1).
    by rewrite Heq, has_char_separator_app in Hn1. }
  assert (∀ n, n ∈ names → path.join [keysDir; n] ≠ backupDir) as Hdir.
  { intros n Hn. rewrite Hsrc, Hbd by done.
    intros Heq%(inj (String.app keysDir)). apply (inj (String.app "/")) in Heq.
    apply Hnames, is_name_spec in Hn as (_ & _ & _ & Hn).
    by rewrite Heq, has_char_separator_app in Hn. }
  assert (∀ n, n ∈ names → path.join [backupDir; n] ≠ backupDir) as Hdest.
  { intros n Hn. rewrite Hdst by done. by apply string_app_ne_self. }
  assert (∀ n, n ∈ names → path.join [keysDir; n] ∉ fs.parents backupDir) as Hsrc_above.
  { intros n Hn (rest & Heq)%parents_prefix.
    rewrite Hsrc, Hbd, !string_app_assoc in Heq by done.
    apply (inj (String.app keysDir)) in Heq. apply (inj (String.app "/")) in Heq.
    pose proof (Hnames n Hn) as (_ & _ & _ & Hsep_n)%is_name_spec.
    pose proof Hsub as (_ & _ & _ & Hsep_sub)%is_name_spec.
    apply app_separator_inj in Heq as [-> _]; done. }
  assert (∀ n, n ∈ names → path.join [backupDir; n] ∉ fs.parents backupDir) as Hdst_above.
  { intros n Hn (rest & Heq)%parents_prefix. rewrite Hdst in Heq by done.
    rewrite !string_app_assoc in Heq. symmetry in Heq.
    by apply string_app_ne_self in Heq. }
  destruct (createBackupDir_made keysDir (Some sub) curDate w Hparents)
    as (w1 & Hrun1 & Hsome1 & _ & Hframe1 & _).
  simpl in Hrun1, Hsome1, Hframe1. fold backupDir in Hrun1, Hsome1, Hframe1.
  destruct (named_fileMap_spec keysDir backupDir names Hnames) as [Hkeys Hentries].
  assert (∀ p, p ∈ backup_paths (named_fileMap keysDir backupDir names) →
               ∃ n, n ∈ names ∧
                    (p = path.join [keysDir; n] ∨ p = path.join [backupDir; n]))
    as Hpaths.
  { intros p (s & d & Hin & Hp)%backup_paths_elem.
    apply Hentries in Hin as (n & Hn & [= -> ->]). by exists n. }
  destruct (makeBackup_run (named_fileMap keysDir backupDir names) true w1)
    as (w' & Hrun & Hmoved & Hframe).
  { apply NoDup_backup_paths; [done| |].
    - intros s1 d1 s2 d2 (n1 & Hn1 & [= -> ->])%Hentries (n2 & Hn2 & [= -> ->])%Hentries.
      intros Heq%path_join_2_name_inj; [by subst | by apply Hnames..].
    - intros s1 d1 s2 d2 (n1 & Hn1 & [= -> ->])%Hentries (n2 & Hn2 & [= -> ->])%Hentries.
      by apply Hsep. }
  { intros p (n & Hn & [->| ->])%Hpaths; unfold not_directory;
      rewrite Hframe1 by (first [by apply Hdir | by apply Hdest
                                | by apply Hsrc_above | by apply Hdst_above]);
      by apply Hnd. }
  exists w'. split; [by rewrite (bind_inr _ _ _ _ _ Hrun1), (bind_inr _ _ _ _ _ Hrun)|].
  split; [done|].
  split.
  { rewrite Hframe; [done|]. intros (n & Hn & [Hp|Hp])%Hpaths.
    - by apply (Hdir n).
    - by apply (Hdest n). }
  split.
  - intros n Hn.
    destruct (Hmoved (path.join [keysDir; n]) (path.join [backupDir; n])) as [Hd Hs].
    { apply Hentries. by exists n. }
    split; [done|]. rewrite Hd. unfold backed_up.
    by rewrite !Hframe1 by (first [by apply Hdir | by apply Hdest
                                  | by apply Hsrc_above | by apply Hdst_above]).
  - intros p Hp Habove Hother. rewrite Hframe, Hframe1; [done..|].
    intros (n & Hn & Hpn)%Hpaths. destruct (Hother n Hn). by destruct Hpn.
Qed.
(** X16.  For a keys directory in normal spelling, node names and a
    directory prefix without a separator, and no file standing at a directory
    above the backup directory, [backupOldPfxKeys] makes the backup directory
    [keysDir/unused-<dirPrefix>/<date>] and moves into it the private store
    [private-<nodeId>.pfx] of every listed node and the public store
    [public.pfx]: each of these files that exists is afterwards in the
    backup directory with its content and gone from the keys directory; a
    file that does not exist is skipped.  Nothing else changes but the
    backup directory and the directories above it, which are made when
    they are missing.  The files and their destinations must not be
    directories. *)
Theorem backupOldPfxKeys_moves (nodeIds : list string) (keysDir : string)
    (curDate : Date) (dirPrefix : option string) (w : World) :
  let backupDir :=
    path.join [keysDir; "unused-" +:+ default "gossip-pfx" dirPrefix;
               backup_dateDir curDate] in
  let names :=
    map (λ nodeId, "private-" +:+ nodeId +:+ ".pfx") nodeIds ++ ["public.pfx"] in
  is_clean keysDir = true →
  has_char "/" (default "gossip-pfx" dirPrefix) = false →
  (∀ nodeId, nodeId ∈ nodeIds → has_char "/" nodeId = false) →
  (∀ dir data, dir ∈ fs.parents backupDir → w_fs w !! dir ≠ Some (File data)) →
  (∀ name, name ∈ names →
     not_directory w (path.join [keysDir; name]) ∧
     not_directory w (path.join [backupDir; name])) →
  ∃ w',
    backupOldPfxKeys nodeIds keysDir (Some curDate) dirPrefix w = (w', inr backupDir) ∧
    backupDir =
      keysDir +:+ "/" +:+ ("unused-" +:+ default "gossip-pfx" dirPrefix) +:+ "/" +:+
      backup_dateDir curDate ∧
    is_Some (w_fs w' !! backupDir) ∧
    (∀ name, name ∈ names →
       path.join [keysDir; name] = keysDir +:+ "/" +:+ name ∧
       path.join [backupDir; name] = backupDir +:+ "/" +:+ name ∧
       w_fs w' !! path.join [keysDir; name] = None ∧
       w_fs w' !! path.join [backupDir; name] =
         backed_up (w_fs w) (path.join [keysDir; name]) (path.join [backupDir; name])) ∧
    (∀ p, p ≠ backupDir → p ∉ fs.parents backupDir →
       (∀ name, name ∈ names →
          p ≠ path.join [keysDir; name] ∧ p ≠ path.join [backupDir; name]) →
       w_fs w' !! p = w_fs w !! p).
Proof.
  intros backupDir names Hclean Hprefix Hnodes Hparents Hnd.
  assert (∀ n, n ∈ names → is_name n = true ∧ ∃ rest, n = String "p" rest) as Hp.
  { intros n [(id & -> & Hid)%list_elem_of_fmap | ->%list_elem_of_singleton]%elem_of_app.
    - split; [|eexists; by string_norm].
      apply (is_name_node_file "private-" id ".pfx"); [done|by apply Hnodes|done|].
      simpl. lia.
    - split; [done | by eexists]. }
  destruct (backup_named_run keysDir ("unused-" +:+ default "gossip-pfx" dirPrefix)
              curDate names w) as (w' & Hrun & Hbd & Hsome & Hmoved & Hframe);
    [done | by apply is_name_unused | by intros n [? _]%Hp | | done | done |].
  { intros [_ (rest & Heq)]%Hp. by string_norm. }
  fold backupDir in Hbd.
  assert (is_clean backupDir = true) as Hclean_bd.
  { pose proof (is_clean_snoc _ (backup_dateDir curDate)
                  (is_clean_snoc keysDir _ Hclean (is_name_unused _ Hprefix))
                  (is_name_backup_dateDir curDate)) as Hsnoc.
    rewrite !string_app_assoc in Hsnoc. by rewrite Hbd, !string_app_assoc. }
  exists w'. split.
  { etrans; [|exact Hrun]. unfold backupOldPfxKeys. unfold bind at 1, ret at 1.
    unfold bind. destruct (createBackupDir _ _ _ w) as [w1 [e|dir]]; [done|].
    rewrite backup_fileMap_named. unfold names, named_fileMap.
    by rewrite fold_left_app. }
  split; [done|]. split; [done|]. split; [|done].
  intros name Hname. destruct (Hp name Hname) as [Hn _].
  destruct (Hmoved name Hname) as [Hsrc Hdst].
  by rewrite <- !path_join_2_clean.
Qed.

(** X17.  For a keys directory in normal spelling, node names and a
    directory prefix without a separator, and no file standing at a directory
    above the backup directory, [backupOldTlsKeys] makes the backup directory
    [keysDir/unused-<dirPrefix>/<date>] and moves into it the TLS private
    key [hedera-<nodeId>.key] of every listed node that has one: afterwards
    the key is in the backup directory with its content and gone from the
    keys directory.  The TLS certificates [hedera-<nodeId>.crt] are not part
    of the backup: they stay in the keys directory as they were, as does
    every other path but the backup directory and the directories above
    it. *)
Theorem backupOldTlsKeys_moves (nodeIds : list string) (keysDir : string)
    (curDate : Date) (dirPrefix : option string) (w : World) :
  let backupDir :=
    path.join [keysDir; "unused-" +:+ default "tls" dirPrefix; backup_dateDir curDate] in
  let names := map (λ nodeId, "hedera-" +:+ nodeId +:+ ".key") nodeIds in
  is_clean keysDir = true →
  has_char "/" (default "tls" dirPrefix) = false →
  (∀ nodeId, nodeId ∈ nodeIds → has_char "/" nodeId = false) →
  (∀ dir data, dir ∈ fs.parents backupDir → w_fs w !! dir ≠ Some (File data)) →
  (∀ name, name ∈ names →
     not_directory w (path.join [keysDir; name]) ∧
     not_directory w (path.join [backupDir; name])) →
  ∃ w',
    backupOldTlsKeys nodeIds keysDir (Some curDate) dirPrefix w = (w', inr backupDir) ∧
    backupDir =
      keysDir +:+ "/" +:+ ("unused-" +:+ default "tls" dirPrefix) +:+ "/" +:+
      backup_dateDir curDate ∧
    is_Some (w_fs w' !! backupDir) ∧
    (∀ name, name ∈ names →
       path.join [keysDir; name] = keysDir +:+ "/" +:+ name ∧
       path.join [backupDir; name] = backupDir +:+ "/" +:+ name ∧
       w_fs w' !! path.join [keysDir; name] = None ∧
       w_fs w' !! path.join [backupDir; name] =
         backed_up (w_fs w) (path.join [keysDir; name]) (path.join [backupDir; name])) ∧
    (∀ nodeId, has_char "/" nodeId = false →
       w_fs w' !! path.join [keysDir; "hedera-" +:+ nodeId +:+ ".crt"] =
       w_fs w !! path.join [keysDir; "hedera-" +:+ nodeId +:+ ".crt"]) ∧
    (∀ p, p ≠ backupDir → p ∉ fs.parents backupDir →
       (∀ name, name ∈ names →
          p ≠ path.join [keysDir; name] ∧ p ≠ path.join [backupDir; name]) →
       w_fs w' !! p = w_fs w !! p).
Proof.
  intros backupDir names Hclean Hprefix Hnodes Hparents Hnd.
  assert (∀ n, n ∈ names → is_name n = true ∧ ∃ rest, n = String "h" rest) as Hp.
  { intros n (id & -> & Hid)%list_elem_of_fmap.
    split; [|eexists; by string_norm].
    apply (is_name_node_file "hedera-" id ".key"); [done|by apply Hnodes|done|].
    simpl. lia. }
  pose proof (is_name_unused _ Hprefix) as Hsub.
  pose proof Hsub as (_ & _ & _ & Hsub_sep)%is_name_spec.
  destruct (backup_named_run keysDir ("unused-" +:+ default "tls" dirPrefix)
              curDate names w) as (w' & Hrun & Hbd & Hsome & Hmoved & Hframe);
    [done | done | by intros n [? _]%Hp | | done | done |].
  { intros [_ (rest & Heq)]%Hp. by string_norm. }
  fold backupDir in Hbd.
  assert (is_clean backupDir = true) as Hclean_bd.
  { pose proof (is_clean_snoc _ (backup_dateDir curDate)
                  (is_clean_snoc keysDir _ Hclean Hsub)
                  (is_name_backup_dateDir curDate)) as Hsnoc.
    rewrite !string_app_assoc in Hsnoc. by rewrite Hbd, !string_app_assoc. }
  exists w'. split.
  { etrans; [|exact Hrun]. unfold backupOldTlsKeys. unfold bind at 1, ret at 1.
    unfold bind. destruct (createBackupDir _ _ _ w) as [w1 [e|dir]]; [done|].
    by rewrite backup_fileMap_named. }
  split; [done|]. split; [done|]. split; [|split; [|done]].
  - intros name Hname. destruct (Hp name Hname) as [Hn _].
    destruct (Hmoved name Hname) as [Hsrc Hdst].
    by rewrite <- !path_join_2_clean.
  - intros nodeId Hnode.
    assert (is_name ("hedera-" +:+ nodeId +:+ ".crt") = true) as Hcrt.
    { apply (is_name_node_file "hedera-" nodeId ".crt"); [done..|]. simpl. lia. }
    pose proof Hcrt as (_ & _ & _ & Hcrt_sep)%is_name_spec.
    assert (path.join [keysDir; "hedera-" +:+ nodeId +:+ ".crt"] =
            keysDir +:+ "/" +:+ "hedera-" +:+ nodeId +:+ ".crt") as Hpath
      by (by apply path_join_2_clean).
    apply Hframe; fold backupDir.
    + rewrite Hpath, Hbd. intros Heq%(inj (String.app keysDir)).
      apply (inj (String.app "/")) in Heq. by string_norm.
    + intros (rest & Heq)%parents_prefix. rewrite Hpath, Hbd in Heq.
      rewrite !string_app_assoc in Heq.
      apply (inj (String.app keysDir)) in Heq. apply (inj (String.app "/")) in Heq.
      by string_norm.
    + intros n Hn. destruct (Hp n Hn) as [Hname (r & Hr)]. split.
      * apply path_join_2_ne; [done..|].
        apply list_elem_of_fmap in Hn as (id & -> & _).
        intros Heq%(inj (String.app "hedera-")).
        apply string_app_inj_suffix in Heq as [_ ?]; done.
      * rewrite Hpath, (path_join_2_clean backupDir n), Hbd by done.
        rewrite !string_app_assoc.
        intros Heq%(inj (String.app keysDir)). apply (inj (String.app "/")) in Heq.
        by string_norm.
Qed.
(** ** The private store *)

Section private_pfx_atomic.
Context `{Constants}.
Context (kt : Keytool) (nodeId keysDir tmpDir : string).

#[local] Abbreviation privatePfxFile :=
  (path.join [keysDir; "private-" +:+ nodeId +:+ ".pfx"]).
#[local] Abbreviation tmpPrivatePfxFile :=
  (path.join [tmpDir; "private-" +:+ nodeId +:+ ".pfx"]).

Context (Htmp : privatePfxFile ∉ privatePfx_tmpFiles nodeId tmpDir).

Lemma privatePfx_tmpFile_ne (p : string) :
  p ∈ privatePfx_tmpFiles nodeId tmpDir → p ≠ privatePfxFile.
Proof. by intros Hp ->. Qed.

Ltac tmp_file :=
  apply privatePfx_tmpFile_ne; unfold privatePfx_tmpFiles; cbn [flat_map app];
  rewrite !elem_of_cons; auto 10.

Lemma generatePrivatePfxKeys_work_frame :
  preserves (unchanged_at privatePfxFile) (generatePrivatePfxKeys_work kt nodeId tmpDir).
Proof.
  unfold generatePrivatePfxKeys_work, generateSignedKey, Keytool_genKeyPair,
    Keytool_certReq, Keytool_genCert, Keytool_importCert.
  cbn [for_each].
  repeat first [ preserves_step | apply unchanged_at_keytool_run; tmp_file ].
Qed.

Lemma generateSignedKey_inr keyPrefix w w' :
  generateSignedKey kt nodeId tmpDir tmpPrivatePfxFile
    (SIGNING_KEY_PREFIX +:+ "-" +:+ nodeId) (CERTIFICATE_VALIDITY_YEARS * 365)
    keyPrefix w = (w', inr tt) →
  w_trace w' = w_trace w ++
    [ EvKeytool "-genkeypair" (keyPrefix +:+ "-" +:+ nodeId) tmpPrivatePfxFile;
      EvKeytool "-certreq" (keyPrefix +:+ "-" +:+ nodeId) tmpPrivatePfxFile;
      EvKeytool "-gencert" (SIGNING_KEY_PREFIX +:+ "-" +:+ nodeId) tmpPrivatePfxFile;
      EvKeytool "-importcert" (keyPrefix +:+ "-" +:+ nodeId) tmpPrivatePfxFile ].
Proof.
  unfold generateSignedKey, Keytool_genKeyPair, Keytool_certReq, Keytool_genCert,
    Keytool_importCert. intros Hrun.
  apply bind_inr_inv in Hrun as (w1 & [] & H1 & Hrun).
  apply bind_inr_inv in Hrun as (w2 & [] & H2 & Hrun).
  apply bind_inr_inv in Hrun as (w3 & [] & H3 & H4).
  apply keytool_run_inr in H1, H2, H3, H4.
  rewrite H4, H3, H2, H1. by rewrite <- !app_assoc.
Qed.

Lemma generatePrivatePfxKeys_work_inr w w' :
  generatePrivatePfxKeys_work kt nodeId tmpDir w = (w', inr tt) →
  w_trace w' = w_trace w ++ privatePfx_events nodeId tmpPrivatePfxFile.
Proof.
  unfold generatePrivatePfxKeys_work, Keytool_genKeyPair. cbn [for_each]. intros Hrun.
  apply bind_inr_inv in Hrun as (w1 & [] & Hs & Hrun).
  apply bind_inr_inv in Hrun as (w2 & [] & Ha & Hrun).
  apply bind_inr_inv in Hrun as (w3 & [] & He & Hrun).
  unfold ret in Hrun. injection Hrun as <-.
  apply keytool_run_inr in Hs. apply generateSignedKey_inr in Ha, He.
  rewrite He, Ha, Hs. unfold privatePfx_events. simpl. by rewrite <- !app_assoc.
Qed.

Lemma generatePrivatePfxKeys_absent w :
  w_fs w !! privatePfxFile = None →
  generatePrivatePfxKeys (Some kt) nodeId keysDir tmpDir w =
  (if falsy nodeId then throw (MissingArgumentError "nodeId is required") else
   if falsy keysDir then throw (MissingArgumentError "keysDir is required") else
   let* keysDir_present := fs.existsSync keysDir in
   if negb keysDir_present then throw (MissingArgumentError "keysDir does not exist") else
   generatePrivatePfxKeys_work kt nodeId tmpDir >>
   fs.cpSync tmpPrivatePfxFile privatePfxFile >>
   ret privatePfxFile) w.
Proof.
  intros Habsent. unfold generatePrivatePfxKeys, generatePrivatePfxKeys_work.
  destruct (falsy nodeId); [done|]. destruct (falsy keysDir); [done|].
  unfold bind, fs.existsSync. cbv beta iota.
  destruct (bool_decide (is_Some (w_fs w !! keysDir))); [|done].
  cbn [negb]. cbv beta iota.
  rewrite bool_decide_eq_false_2 by (rewrite Habsent; by intros [? ?]).
  repeat case_match; by simplify_eq.
Qed.
End private_pfx_atomic.

(** X28.  [generatePrivatePfxKeys] builds the keystore in the temporary
    directory and puts it into the keys directory by its last step only.
    When [private-<nodeId>.pfx] does not exist and none of the files that
    the function writes in the temporary directory is that path: a call that throws (a missing argument, a
    keytool invocation that fails, a copy that fails) leaves
    [private-<nodeId>.pfx] absent; a call that returns has run the nine
    keytool invocations in order (the signing key pair; then key pair,
    certificate request, signed certificate and import for the agreement and
    for the encryption key) followed by the one write of
    [private-<nodeId>.pfx], which then holds the temporary keystore. *)
Theorem generatePrivatePfxKeys_atomic `{Constants} (kt : Keytool)
    (nodeId keysDir tmpDir : string) (w : World) :
  let privatePfxFile := path.join [keysDir; "private-" +:+ nodeId +:+ ".pfx"] in
  let tmpPrivatePfxFile := path.join [tmpDir; "private-" +:+ nodeId +:+ ".pfx"] in
  privatePfxFile ∉ privatePfx_tmpFiles nodeId tmpDir →
  w_fs w !! privatePfxFile = None →
  let run := generatePrivatePfxKeys (Some kt) nodeId keysDir tmpDir w in
  match run.2 with
  | inl e => w_fs run.1 !! privatePfxFile = None
  | inr p =>
      p = privatePfxFile ∧
      (∃ data,
         w_fs run.1 !! tmpPrivatePfxFile = Some (File data) ∧
         w_fs run.1 !! privatePfxFile = Some (File data)) ∧
      w_trace run.1 =
        w_trace w ++ privatePfx_events nodeId tmpPrivatePfxFile ++
        [EvWriteFile privatePfxFile]
  end.
Proof.
  intros privatePfxFile tmpPrivatePfxFile Htmp Habsent run.
  destruct run as [w' r] eqn:Hrun. subst run privatePfxFile tmpPrivatePfxFile.
  cbn [fst snd].
  rewrite generatePrivatePfxKeys_absent in Hrun by done.
  destruct (falsy nodeId); [by injection Hrun as <- <-|].
  destruct (falsy keysDir); [by injection Hrun as <- <-|].
  unfold bind at 1, fs.existsSync at 1 in Hrun.
  destruct (bool_decide (is_Some (w_fs w !! keysDir))); cbn [negb] in Hrun;
    [|by injection Hrun as <- <-].
  unfold bind at 1 in Hrun.
  destruct (generatePrivatePfxKeys_work kt nodeId tmpDir w) as [w1 [e|[]]] eqn:Hwork.
  all: pose proof (preserves_run _ _ _ _ _
         (generatePrivatePfxKeys_work_frame kt nodeId keysDir tmpDir Htmp) Hwork)
         as Hframe.
  all: unfold unchanged_at in Hframe.
  { injection Hrun as <- <-. by rewrite Hframe. }
  unfold bind at 1 in Hrun.
  destruct (fs.cpSync _ _ w1) as [w2 [e|[]]] eqn:Hcp.
  - assert (w2 = w1) as ->.
    { unfold fs.cpSync in Hcp. repeat case_match; by simplify_eq. }
    injection Hrun as <- <-. by rewrite Hframe.
  - unfold ret in Hrun. injection Hrun as <- <-.
    apply cpSync_inr in Hcp as (data & Hdata & ->).
    unfold with_fs. cbn [w_fs w_trace].
    split; [done|]. split.
    + exists data. rewrite lookup_insert_eq.
      rewrite lookup_insert_ne; [done|].
      intros Heq. apply Htmp. rewrite Heq. by left.
    + apply generatePrivatePfxKeys_work_inr in Hwork. rewrite Hwork.
      by rewrite <- app_assoc.
Qed.
(** ** The key files of a node *)

Ltac key_path_ne :=
  let Heq := fresh "Heq" in
  intros Heq;
  unfold Templates.renderGossipPemPrivateKeyFile, Templates.renderGossipPemPublicKeyFile,
    SIGNING_KEY_PREFIX, AGREEMENT_KEY_PREFIX, js_str in Heq;
  apply path_join_2_name_inj in Heq; [|solve_is_name..];
  string_norm; simplify_eq;
  try match goal with
      | H : _ +:+ _ = _ +:+ _ |- _ =>
          apply string_app_inj_suffix in H as [? ?]; [congruence | reflexivity]
      end.

(** X29.  For two different nodes, the file paths that
    [prepareNodeKeyFilePaths] returns for the signing and the agreement key
    and that [prepareTLSKeyFilePaths] returns for the TLS key are twelve
    different paths: no two keys of a node, and no two nodes, share a private
    key file or a certificate file.  Every call returns for a node ID and a
    keys directory that are not empty. *)
Theorem key_file_paths_distinct (nodeId1 nodeId2 keysDir : string) (w : World) :
  nodeId1 ≠ "" →
  nodeId2 ≠ "" →
  keysDir ≠ "" →
  nodeId1 ≠ nodeId2 →
  has_char "/" nodeId1 = false →
  has_char "/" nodeId2 = false →
  ∃ s1 a1 t1 s2 a2 t2,
    prepareNodeKeyFilePaths nodeId1 keysDir (Some SIGNING_KEY_PREFIX) w = (w, inr s1) ∧
    prepareNodeKeyFilePaths nodeId1 keysDir (Some AGREEMENT_KEY_PREFIX) w = (w, inr a1) ∧
    prepareTLSKeyFilePaths nodeId1 keysDir w = (w, inr t1) ∧
    prepareNodeKeyFilePaths nodeId2 keysDir (Some SIGNING_KEY_PREFIX) w = (w, inr s2) ∧
    prepareNodeKeyFilePaths nodeId2 keysDir (Some AGREEMENT_KEY_PREFIX) w = (w, inr a2) ∧
    prepareTLSKeyFilePaths nodeId2 keysDir w = (w, inr t2) ∧
    NoDup (key_paths s1 ++ key_paths a1 ++ key_paths t1 ++
           key_paths s2 ++ key_paths a2 ++ key_paths t2).
Proof.
  intros H1 H2 Hdir Hne Hsep1 Hsep2.
  eexists _, _, _, _, _, _.
  rewrite !prepareNodeKeyFilePaths_run, !prepareTLSKeyFilePaths_run by done.
  repeat (split; [reflexivity|]).
  unfold key_paths, gossipKeyFiles, tlsKeyFiles. cbn [privateKeyFile certificateFile app].
  repeat (apply NoDup_cons; split;
          [rewrite ?not_elem_of_cons; repeat split;
           first [apply not_elem_of_nil | key_path_ne]|]).
  apply NoDup_nil_2.
Qed.

(** ** The public store without nodes *)

(** X30.  [updatePublicPfxKey] with an empty list of nodes, on an existing
    keys directory.  When the keys directory holds [public.pfx], the file is
    copied to the temporary directory and back: the call returns and both
    files hold what [public.pfx] held.  When it holds none, the temporary
    copy from an earlier run is not cleared: a file [public.pfx] that the
    temporary directory still holds is installed as the new [public.pfx],
    and without one the call throws the [ENOENT] error of the copy. *)
Theorem updatePublicPfxKey_no_nodes `{Constants} (kt : Keytool) (keysDir tmpDir : string)
    (w : World) :
  let publicPfxFile := path.join [keysDir; "public.pfx"] in
  let tmpPublicPfxFile := path.join [tmpDir; PUBLIC_PFX] in
  keysDir ≠ "" →
  is_Some (w_fs w !! keysDir) →
  tmpPublicPfxFile ≠ publicPfxFile →
  not_directory w publicPfxFile →
  not_directory w tmpPublicPfxFile →
  let run := updatePublicPfxKey (Some kt) (Some []) keysDir tmpDir w in
  match w_fs w !! publicPfxFile, w_fs w !! tmpPublicPfxFile with
  | Some node, _ =>
      run.2 = inr publicPfxFile ∧
      w_fs run.1 !! publicPfxFile = Some node ∧
      w_fs run.1 !! tmpPublicPfxFile = Some node
  | None, Some stale =>
      run.2 = inr publicPfxFile ∧
      w_fs run.1 !! publicPfxFile = Some stale
  | None, None =>
      run = (w, inl (SystemError "ENOENT" tmpPublicPfxFile))
  end.
Proof.
  intros publicPfxFile tmpPublicPfxFile Hdir Hkeys Hne Hpub Htmp run.
  destruct run as [w' r] eqn:Hrun. subst run. cbn [fst snd].
  rewrite updatePublicPfxKey_unfold, falsy_false in Hrun by done.
  unfold bind at 1, fs.existsSync at 1 in Hrun.
  rewrite bool_decide_eq_true_2 in Hrun by done.
  cbn [negb] in Hrun. unfold updatePublicPfxKey_work in Hrun.
  fold publicPfxFile tmpPublicPfxFile in Hrun. cbn [for_each] in Hrun.
  unfold bind, fs.existsSync, ret in Hrun. cbv beta iota in Hrun.
  unfold not_directory in *.
  destruct (w_fs w !! publicPfxFile) as [[data|]|] eqn:Hp; [|done|].
  - rewrite bool_decide_eq_true_2 in Hrun by eauto.
    rewrite (cpSync_run publicPfxFile tmpPublicPfxFile data w Hp
               ltac:(congruence) Htmp) in Hrun.
    cbv beta iota in Hrun.
    rewrite (cpSync_run tmpPublicPfxFile publicPfxFile data) in Hrun; [| |done|].
    + injection Hrun as <- <-. cbn [with_fs w_fs].
      split; [done|]. split; [by rewrite lookup_insert_eq|].
      rewrite lookup_insert_ne by congruence. by rewrite lookup_insert_eq.
    + cbn [with_fs w_fs]. by rewrite lookup_insert_eq.
    + unfold not_directory. cbn [with_fs w_fs].
      rewrite lookup_insert_ne by done. by rewrite Hp.
  - rewrite bool_decide_eq_false_2 in Hrun by (by intros [? ?]).
    cbv beta iota in Hrun.
    destruct (w_fs w !! tmpPublicPfxFile) as [[stale|]|] eqn:Ht; [|done|].
    + rewrite (cpSync_run tmpPublicPfxFile publicPfxFile stale) in Hrun; [|done..|].
      * injection Hrun as <- <-. cbn [with_fs w_fs].
        split; [done|]. by rewrite lookup_insert_eq.
      * unfold not_directory. by rewrite Hp.
    + unfold fs.cpSync in Hrun. rewrite Ht in Hrun. by injection Hrun as <- <-.
Qed.

(** ** The theorems at concrete inputs *)



Lemma generatePrivatePfxKeys_existing_noop_witness :
  @generatePrivatePfxKeys sample_constants (Some sample_keytool) "node1" "keys" "tmp"
    sample_key_world = (sample_key_world, inr "keys/private-node1.pfx") ∧
  ∃ w1 p,
    @generatePrivatePfxKeys sample_constants (Some sample_keytool) "node2" "keys" "tmp"
      sample_key_world = (w1, inr p) ∧
    @generatePrivatePfxKeys sample_constants (Some sample_keytool) "node2" "keys" "tmp"
      w1 = (w1, inr p).
Proof.
  split.
  - apply (proj1 (@generatePrivatePfxKeys_existing_noop sample_constants sample_keytool
                    "node1" "keys" "tmp" sample_key_world)).
    + discriminate.
    + discriminate.
    + by eexists.
    + by eexists.
  - eexists _, _. split; [vm_compute; reflexivity|].
    apply (proj2 (@generatePrivatePfxKeys_existing_noop sample_constants sample_keytool
                    "node2" "keys" "tmp" sample_key_world)).
    vm_compute. reflexivity.
Defined.
Lemma getNodeAccountMap_deterministic_stable_witness :
  JsMap.get "node1" (@getNodeAccountMap sample_constants ["node0"; "node1"; "node2"]) =
    Some "0.0.4" ∧
  JsMap.get "node1"
    (@getNodeAccountMap sample_constants (["node0"; "node1"; "node2"] ++ ["node3"])) =
    JsMap.get "node1" (@getNodeAccountMap sample_constants ["node0"; "node1"; "node2"]).
Proof.
  apply (@getNodeAccountMap_deterministic_stable sample_constants
           ["node0"; "node1"; "node2"] 1 "node1" "node3").
  - reflexivity.
  - apply (bool_decide_unpack _). vm_compute. exact I.
  - discriminate.
Defined.

Lemma generateAgreementKey_verifies_before_returning_witness :
  ∃ key,
    (@generateAgreementKey ideal_crypto sample_constants sample_names "node1"
       (Some sample_signing_key) sample_world).2 = inr key ∧
    certificate key =
      Some (@ec_cert ideal_crypto sample_constants sample_names "node1"
              AGREEMENT_KEY_PREFIX sample_sk sample_sc sample_world).
Proof.
  pose proof (@generateAgreementKey_verifies_before_returning ideal_crypto
                sample_constants sample_names "node1" sample_signing_key sample_sk
                sample_sc sample_world) as Hthm.
  destruct Hthm as (_ & _ & _ & _ & Hok & _).
  - discriminate.
  - reflexivity.
  - reflexivity.
  - reflexivity.
  - by left.
  - destruct Hok as (key & k & Hrun & Hcert & _); [vm_compute; reflexivity|].
    by exists key.
Defined.

(** C4, as stated, at a corrupt signing key, whose certificate does not
    verify what its private key signs: the error that [generateAgreementKey]
    throws there is a [FullstackTestingError], and so is its cause; no
    [CertificateVerificationError] is thrown. *)
Lemma generateAgreementKey_error_class_counterexample :
  (∃ e,
     (@generateAgreementKey ideal_crypto sample_constants sample_names "node1"
        (Some sample_corrupt_signing_key) sample_world).2 = inl e) ∧
  ¬ ∃ e,
      (@generateAgreementKey ideal_crypto sample_constants sample_names "node1"
         (Some sample_corrupt_signing_key) sample_world).2 = inl e ∧
      (err_name e = "CertificateVerificationError" ∨
       err_name <$> err_cause e = Some "CertificateVerificationError").
Proof.
  split.
  - eexists. vm_compute. reflexivity.
  - intros (e & Hrun & Hname). vm_compute in Hrun. injection Hrun as <-.
    vm_compute in Hname. destruct Hname as [Hname|Hname]; discriminate Hname.
Qed.

Lemma storeNodeKey_loadNodeKey_roundtrip_witness :
  ∃ w1 loaded loadedCert,
    storeNodeKey "node1" sample_signing_key "keys" sample_files sample_key_world =
      (w1, inr sample_files) ∧
    @loadNodeKey ideal_crypto "node1" "keys" (Some KeyManager.SigningKeyAlgo)
      sample_files w1 = (w1, inr loaded) ∧
    certificate loaded = Some loadedCert ∧
    serialNumber loadedCert = serialNumber sample_sc ∧
    subject loadedCert = subject sample_sc ∧
    publicKey loadedCert = publicKey sample_sc.
Proof.
  destruct (@storeNodeKey_loadNodeKey_roundtrip ideal_crypto "node1" "keys"
              sample_signing_key sample_files KeyManager.SigningKeyAlgo sample_sk
              sample_sc [] [sample_sc] sample_key_world)
    as (w1 & loaded & loadedKey & loadedCert & Hstore & Hload & Hcert & Hserial &
        Hsubject & Hpublic & _).
  - discriminate.
  - discriminate.
  - discriminate.
  - discriminate.
  - discriminate.
  - by vm_compute.
  - by vm_compute.
  - reflexivity.
  - reflexivity.
  - reflexivity.
  - reflexivity.
  - reflexivity.
  - reflexivity.
  - vm_compute. reflexivity.
  - by exists w1, loaded, loadedCert.
Defined.

Lemma generated_certificate_chains_witness :
  ∃ w' agreementKey cert,
    @generateAgreementKey ideal_crypto sample_constants sample_names "node1"
      (Some sample_signing_key) sample_world = (w', inr agreementKey) ∧
    certificate agreementKey = Some cert ∧
    issuer cert = subject sample_sc ∧
    certificateChain agreementKey = Some [cert; sample_sc].
Proof.
  destruct (@generateAgreementKey ideal_crypto sample_constants sample_names "node1"
              (Some sample_signing_key) sample_world) as [w' [e|agreementKey]] eqn:Hrun.
  { vm_compute in Hrun. discriminate Hrun. }
  destruct (proj2 (@generated_certificate_chains ideal_crypto sample_constants
                     sample_names "node1" sample_world)
              sample_signing_key sample_sc w' agreementKey)
    as (cert & Hcert & Hissuer & _ & Hchain & _).
  - reflexivity.
  - intros Heq. vm_compute in Heq. discriminate Heq.
  - exact Hrun.
  - by exists w', agreementKey, cert.
Defined.

Lemma storeNodeKey_replaces_certificates_witness :
  ∃ w',
    storeNodeKey "node1" sample_signing_key "keys" sample_files sample_key_world =
      (w', inr sample_files) ∧
    w_fs w' !! "keys/s-public-node1.pem" = Some (File (chain_pem [sample_sc])).
Proof.
  destruct (storeNodeKey_replaces_certificates "node1" "keys" sample_signing_key
              sample_files sample_sk [sample_sc] sample_key_world)
    as (w' & Hstore & _ & Hcert & _).
  - discriminate.
  - discriminate.
  - discriminate.
  - discriminate.
  - discriminate.
  - reflexivity.
  - reflexivity.
  - reflexivity.
  - reflexivity.
  - by vm_compute.
  - by vm_compute.
  - by exists w'.
Defined.

Lemma convertPemToPrivateKey_takes_last_block_witness :
  convertPemToPrivateKey sample_bundle (Some KeyManager.SigningKeyAlgo) None sample_world =
    (sample_world,
     inr (mkKey private (mkMaterial 0 (RSA 3072 [1; 0; 1]%N)) KeyManager.SigningKeyAlgo
            false [usage_sign])) ∧
  ∃ loaded loadedKey,
    @loadNodeKey ideal_crypto "node1" "keys" (Some KeyManager.SigningKeyAlgo)
      sample_files sample_bundle_world = (sample_bundle_world, inr loaded) ∧
    privateKey loaded = Some loadedKey ∧
    key_material loadedKey = mkMaterial 0 (RSA 3072 [1; 0; 1]%N).
Proof.
  destruct (@convertPemToPrivateKey_takes_last_block ideal_crypto sample_bundle
              KeyManager.SigningKeyAlgo None [DerCertificate sample_sc]
              (DerPkcs8 (mkMaterial 0 (RSA 3072 [1; 0; 1]%N))) eq_refl)
    as (Hconvert & Hload & _).
  split; [by rewrite Hconvert|].
  destruct (Hload "node1" "keys" sample_files sample_bundle_world
              (mkMaterial 0 (RSA 3072 [1; 0; 1]%N)) (chain_pem [sample_sc]) sample_sc []
              [sample_sc])
    as (loaded & loadedKey & Hrun & Hkey & Hmaterial & _).
  - discriminate.
  - discriminate.
  - discriminate.
  - discriminate.
  - vm_compute. reflexivity.
  - reflexivity.
  - reflexivity.
  - vm_compute. reflexivity.
  - reflexivity.
  - vm_compute. reflexivity.
  - by exists loaded, loadedKey.
Defined.

Lemma updatePublicPfxKey_atomic_witness :
  (∃ e,
     (@updatePublicPfxKey sample_constants (Some sample_keytool) (Some ["node2"])
        "keys" "tmp" sample_key_world).2 = inl e ∧
     w_fs (@updatePublicPfxKey sample_constants (Some sample_keytool) (Some ["node2"])
             "keys" "tmp" sample_key_world).1 !! "keys/public.pfx" =
     w_fs sample_key_world !! "keys/public.pfx") ∧
  (∃ w',
     @updatePublicPfxKey sample_constants (Some sample_keytool) (Some ["node2"])
       "keys" "tmp" sample_pfx_world = (w', inr "keys/public.pfx") ∧
     is_Some (w_fs w' !! "keys/public.pfx") ∧
     w_fs w' !! "keys/public.pfx" = w_fs w' !! "tmp/public.pfx").
Proof.
  split.
  - pose proof (@updatePublicPfxKey_atomic sample_constants (Some sample_keytool)
                  (Some ["node2"]) "keys" "tmp" sample_key_world) as Hthm.
    cbn zeta in Hthm.
    destruct (@updatePublicPfxKey sample_constants (Some sample_keytool) (Some ["node2"])
                "keys" "tmp" sample_key_world) as [w' [e|p]] eqn:Hrun.
    + exists e. split; [done|]. apply Hthm. intros Heq. vm_compute in Heq.
      discriminate Heq.
    + vm_compute in Hrun. discriminate Hrun.
  - pose proof (@updatePublicPfxKey_atomic sample_constants (Some sample_keytool)
                  (Some ["node2"]) "keys" "tmp" sample_pfx_world) as Hthm.
    cbn zeta in Hthm.
    destruct (@updatePublicPfxKey sample_constants (Some sample_keytool) (Some ["node2"])
                "keys" "tmp" sample_pfx_world) as [w' [e|p]] eqn:Hrun.
    { vm_compute in Hrun. discriminate Hrun. }
    destruct Hthm as (-> & ids & _ & _ & _ & Hsame).
    { intros Heq. vm_compute in Heq. discriminate Heq. }
    exists w'. split; [done|]. split; [|exact Hsame].
    vm_compute in Hrun. injection Hrun as <-. eexists. vm_compute. reflexivity.
Defined.
Lemma generateGrpcTLSKey_self_signed_witness :
  ∃ key cert,
    @generateGrpcTLSKey ideal_crypto sample_constants "node1" None
      sample_world = (after_generateKey sample_world, inr key) ∧
    certificate key = Some cert ∧
    issuer cert = subject cert ∧
    publicKey cert = mkMaterial 0 (RSA 4096 [1; 0; 1]%N) ∧
    certificateChain key = Some [cert].
Proof.
  destruct (@generateGrpcTLSKey ideal_crypto sample_constants "node1" None sample_world)
    as [w' [e|key]] eqn:Hrun.
  { vm_compute in Hrun. discriminate Hrun. }
  destruct (@generateGrpcTLSKey_self_signed ideal_crypto sample_constants sample_names
              "node1" None sample_world w' key Hrun)
    as (_ & _ & -> & sk & cert & Hsk & _ & _ & _ & Hcert & Hissuer & Hpublic & _ & _ & _
        & Hchain).
  exists key, cert. split; [done|]. split; [done|]. split; [done|]. split; [|done].
  vm_compute in Hrun. injection Hrun as <-. vm_compute in Hcert. injection Hcert as <-.
  reflexivity.
Defined.


Lemma signing_key_store_load_roundtrip_witness :
  ∃ key w1 loaded,
    @generateSigningKey ideal_crypto sample_constants sample_names "node1" sample_world =
      (after_generateKey sample_world, inr key) ∧
    storeSigningKey "node1" key "keys" (after_generateKey sample_world) =
      (w1, inr (gossipKeyFiles SIGNING_KEY_PREFIX "node1" "keys")) ∧
    @loadSigningKey ideal_crypto "node1" "keys" w1 = (w1, inr loaded) ∧
    certificate loaded = certificate key ∧
    certificateChain loaded = certificateChain key.
Proof.
  destruct (@signing_key_store_load_roundtrip ideal_crypto sample_constants sample_names
              "node1" "keys"
              (@signing_key ideal_crypto sample_constants sample_names "node1"
                 sample_world)
              sample_world (after_generateKey sample_world))
    as (generatedKey & w1 & loaded & loadedKey & Hstore & Hload & Hcert & Hchain & _).
  - discriminate.
  - reflexivity.
  - discriminate.
  - apply generateSigningKey_run.
  - by vm_compute.
  - by vm_compute.
  - eexists _, w1, loaded. split; [apply generateSigningKey_run|]. done.
Defined.

Lemma agreement_key_store_load_roundtrip_witness :
  ∃ w0 key w1 loaded,
    @generateAgreementKey ideal_crypto sample_constants sample_names "node1"
      (Some sample_signing_key) sample_world = (w0, inr key) ∧
    storeAgreementKey "node1" key "keys" w0 =
      (w1, inr (gossipKeyFiles AGREEMENT_KEY_PREFIX "node1" "keys")) ∧
    @loadAgreementKey ideal_crypto "node1" "keys" w1 = (w1, inr loaded) ∧
    certificate loaded = certificate key ∧
    certificateChain loaded = certificateChain key.
Proof.
  destruct (@generateAgreementKey ideal_crypto sample_constants sample_names "node1"
              (Some sample_signing_key) sample_world) as [w0 [e|key]] eqn:Hrun.
  { vm_compute in Hrun. discriminate Hrun. }
  assert (w0 = after_generateKey sample_world) as Hw0.
  { vm_compute in Hrun. by injection Hrun as <- _. }
  destruct (@agreement_key_store_load_roundtrip ideal_crypto sample_constants
              sample_names "node1" "keys" sample_signing_key key sample_world w0)
    as (generatedKey & w1 & loaded & loadedKey & Hstore & Hload & Hcert & Hchain & _).
  - reflexivity.
  - discriminate.
  - exact Hrun.
  - rewrite Hw0. by vm_compute.
  - rewrite Hw0. by vm_compute.
  - by exists w0, key, w1, loaded.
Defined.

Lemma tls_key_store_load_roundtrip_witness :
  ∃ key w1 loaded,
    @generateGrpcTLSKey ideal_crypto sample_constants "node1" None
      sample_world = (after_generateKey sample_world, inr key) ∧
    storeTLSKey "node1" key "keys" (after_generateKey sample_world) =
      (w1, inr (tlsKeyFiles "node1" "keys")) ∧
    @loadTLSKey ideal_crypto "node1" "keys" w1 = (w1, inr loaded) ∧
    certificate loaded = certificate key ∧
    certificateChain loaded = certificateChain key.
Proof.
  destruct (@generateGrpcTLSKey ideal_crypto sample_constants "node1" None sample_world)
    as [w0 [e|key]] eqn:Hrun.
  { vm_compute in Hrun. discriminate Hrun. }
  assert (w0 = after_generateKey sample_world) as Hw0.
  { vm_compute in Hrun. by injection Hrun as <- _. }
  destruct (@tls_key_store_load_roundtrip ideal_crypto sample_constants sample_names
              "node1" "keys" None key sample_world w0)
    as (generatedKey & w1 & loaded & loadedKey & Hstore & Hload & Hcert & Hchain & _).
  - reflexivity.
  - discriminate.
  - exact Hrun.
  - rewrite Hw0. by vm_compute.
  - rewrite Hw0. by vm_compute.
  - subst w0. by exists key, w1, loaded.
Defined.

Lemma loaded_key_cannot_be_stored_witness :
  ∃ loaded,
    @loadNodeKey ideal_crypto "node1" "keys" (Some KeyManager.SigningKeyAlgo)
      sample_files sample_stored_world = (sample_stored_world, inr loaded) ∧
    storeNodeKey "node1" loaded "keys" sample_files sample_stored_world =
      (sample_stored_world,
       inl (DOMException "InvalidAccessException" "key is not extractable")).
Proof.
  destruct (@loadNodeKey ideal_crypto "node1" "keys" (Some KeyManager.SigningKeyAlgo)
              sample_files sample_stored_world) as [w' [e|loaded]] eqn:Hload.
  { vm_compute in Hload. discriminate Hload. }
  assert (w' = sample_stored_world) as ->.
  { symmetry. eapply (preserves_run eq); [|exact Hload].
    apply (@preserves_loadNodeKey ideal_crypto eq _). }
  exists loaded. split; [done|].
  apply (@loaded_key_cannot_be_stored ideal_crypto sample_constants sample_names
           "node1" "keys" (Some KeyManager.SigningKeyAlgo) sample_files
           sample_stored_world sample_stored_world loaded "node1" "keys" sample_files
           sample_stored_world Hload); discriminate.
Defined.

Lemma loadNodeKey_returns_linked_chain_witness :
  ∃ w' loaded tail,
    @loadNodeKey ideal_crypto "node1" "keys" (Some KeyManager.SigningKeyAlgo)
      sample_files sample_stored_world = (w', inr loaded) ∧
    certificate loaded = Some sample_sc ∧
    certificateChain loaded = Some (sample_sc :: tail) ∧
    @linked ideal_crypto (sample_sc :: tail).
Proof.
  destruct (@loadNodeKey ideal_crypto "node1" "keys" (Some KeyManager.SigningKeyAlgo)
              sample_files sample_stored_world) as [w' [e|loaded]] eqn:Hload.
  { vm_compute in Hload. discriminate Hload. }
  destruct (@loadNodeKey_returns_linked_chain ideal_crypto sample_constants sample_names
              "node1" "keys" (Some KeyManager.SigningKeyAlgo) sample_files
              sample_stored_world w' loaded Hload)
    as (certBytes & cert & rest & tail & Hfile & Hdec & Hcert & Hchain & _ & Hlinked).
  assert (cert = sample_sc) as ->.
  { vm_compute in Hfile. injection Hfile as <-. vm_compute in Hdec.
    injection Hdec as <- _. reflexivity. }
  by exists w', loaded, tail.
Defined.

Lemma ecKey_failures_are_wrapped_witness :
  ∃ w' e cause,
    @ecKey ideal_crypto sample_constants sample_names "node1" AGREEMENT_KEY_PREFIX
      (Some sample_corrupt_signing_key) sample_world = (w', inl e) ∧
    err_name e = "FullstackTestingError" ∧
    err_cause e = Some cause.
Proof.
  destruct (@ecKey ideal_crypto sample_constants sample_names "node1"
              AGREEMENT_KEY_PREFIX (Some sample_corrupt_signing_key) sample_world)
    as [w' [e|key]] eqn:Hrun; [|vm_compute in Hrun; discriminate Hrun].
  destruct (@ecKey_failures_are_wrapped ideal_crypto sample_constants sample_names
              "node1" AGREEMENT_KEY_PREFIX (Some sample_corrupt_signing_key)
              sample_world w' e Hrun) as [(Hname & _)|(Hname & cause & Hcause & _)].
  - vm_compute in Hrun. injection Hrun as _ <-. discriminate Hname.
  - by exists w', e, cause.
Defined.


Lemma getNodeAccountMap_consecutive_witness :
  @getNodeAccountMap sample_constants ["node0"; "node1"; "node2"] =
    [("node0", "0.0.3"); ("node1", "0.0.4"); ("node2", "0.0.5")].
Proof.
  rewrite (proj1 (@getNodeAccountMap_consecutive sample_constants
                    ["node0"; "node1"; "node2"]
                    ltac:(apply (bool_decide_unpack _); vm_compute; exact I))).
  reflexivity.
Defined.

(** The directories above a path at which no file stands, and paths that
    are no directories, in a world that is given in full. *)
Ltac no_file_above :=
  let dir := fresh "dir" in
  let data := fresh "data" in
  let Hdir := fresh "Hdir" in
  intros dir data Hdir; vm_compute in Hdir;
  repeat (apply elem_of_cons in Hdir as [->|Hdir]; [by vm_compute|]);
  by apply elem_of_nil in Hdir.

Ltac no_directories :=
  let name := fresh "name" in
  let Hname := fresh "Hname" in
  intros name Hname; simpl in Hname;
  repeat (apply elem_of_cons in Hname as [->|Hname]; [by vm_compute|]);
  by apply elem_of_nil in Hname.

Lemma createBackupDir_returns_witness :
  ∃ w',
    createBackupDir "keys" None (Some sample_date) sample_key_world =
      (w', inr "keys/backup/20240005_030405") ∧
    w_fs w' !! "keys/backup/20240005_030405" = Some Directory ∧
    w_fs w' !! "keys/backup" = Some Directory ∧
    w_fs w' !! "keys/private-node1.pfx" = Some (File [RawChunk "keystore of node1"]).
Proof.
  destruct (createBackupDir_returns "keys" None sample_date sample_key_world)
    as (w' & Hrun & _ & Hpath & _ & Hkeep & _ & _ & Hmade & _).
  - no_file_above.
  - rewrite Hpath in Hrun, Hmade by reflexivity.
    exists w'. split; [exact Hrun|].
    split; [|split].
    + apply Hmade; [by vm_compute|]. vm_compute. apply elem_of_cons. right.
      apply elem_of_cons. right. by left.
    + apply Hmade; [by vm_compute|]. vm_compute. apply elem_of_cons. right. by left.
    + apply Hkeep. by vm_compute.
Defined.

Lemma makeBackup_moves_witness :
  ∃ w',
    makeBackup [("keys/private-node1.pfx", "keys/old/private-node1.pfx")] true
      sample_key_world = (w', inr tt) ∧
    w_fs w' !! "keys/old/private-node1.pfx" = Some (File [RawChunk "keystore of node1"]) ∧
    w_fs w' !! "keys/private-node1.pfx" = None.
Proof.
  destruct (makeBackup_moves [("keys/private-node1.pfx", "keys/old/private-node1.pfx")]
              true sample_key_world) as (w' & Hrun & Hmoved & _).
  - apply (bool_decide_unpack _). vm_compute. exact I.
  - intros p Hp. simpl in Hp.
    repeat (apply elem_of_cons in Hp as [->|Hp]; [by vm_compute|]).
    by apply elem_of_nil in Hp.
  - destruct (Hmoved "keys/private-node1.pfx" "keys/old/private-node1.pfx") as [Hd Hs];
      [by left|].
    exists w'. split; [done|]. split; [|done]. rewrite Hd. reflexivity.
Defined.

Lemma backupOldPfxKeys_moves_witness :
  ∃ w',
    backupOldPfxKeys ["node1"] "keys" (Some sample_date) None sample_key_world =
      (w', inr "keys/unused-gossip-pfx/20240005_030405") ∧
    w_fs w' !! "keys/private-node1.pfx" = None ∧
    w_fs w' !! "keys/unused-gossip-pfx/20240005_030405/private-node1.pfx" =
      Some (File [RawChunk "keystore of node1"]).
Proof.
  destruct (backupOldPfxKeys_moves ["node1"] "keys" sample_date None sample_key_world)
    as (w' & Hrun & Hpath & _ & Hmoved & _).
  - reflexivity.
  - reflexivity.
  - intros nodeId Hin. apply list_elem_of_singleton in Hin as ->. reflexivity.
  - no_file_above.
  - no_directories.
  - destruct (Hmoved "private-node1.pfx") as (Hsrc & Hdst & Hs & Hd); [by left|].
    rewrite Hpath in Hrun. rewrite Hdst, Hpath in Hd. rewrite Hsrc in Hs.
    exists w'. split; [exact Hrun|]. split; [exact Hs|].
    etrans; [exact Hd|]. by vm_compute.
Defined.

Lemma backupOldTlsKeys_moves_witness :
  ∃ w',
    backupOldTlsKeys ["node1"] "keys" (Some sample_date) None sample_key_world =
      (w', inr "keys/unused-tls/20240005_030405") ∧
    w_fs w' !! "keys/hedera-node1.key" = None ∧
    w_fs w' !! "keys/unused-tls/20240005_030405/hedera-node1.key" =
      Some (File [RawChunk "TLS key of node1"]).
Proof.
  destruct (backupOldTlsKeys_moves ["node1"] "keys" sample_date None sample_key_world)
    as (w' & Hrun & Hpath & _ & Hmoved & _).
  - reflexivity.
  - reflexivity.
  - intros nodeId Hin. apply list_elem_of_singleton in Hin as ->. reflexivity.
  - no_file_above.
  - no_directories.
  - destruct (Hmoved "hedera-node1.key") as (Hsrc & Hdst & Hs & Hd); [by left|].
    rewrite Hpath in Hrun. rewrite Hdst, Hpath in Hd. rewrite Hsrc in Hs.
    exists w'. split; [exact Hrun|]. split; [exact Hs|].
    etrans; [exact Hd|]. by vm_compute.
Defined.

Lemma parseNodeIds_join_roundtrip_witness :
  parseNodeIds (Some "node1,node2,node3") = inr ["node1"; "node2"; "node3"].
Proof.
  apply (parseNodeIds_join_roundtrip ["node1"; "node2"; "node3"]).
  intros nodeId Hin.
  repeat (apply elem_of_cons in Hin as [->|Hin]; [by vm_compute|]).
  by apply elem_of_nil in Hin.
Defined.

Lemma splitFlagInput_items_clean_witness :
  parseNodeIds (Some " node1 , node2") = inr ["node1"; "node2"] ∧
  has_char "," "node2" = false ∧ JsString.trim "node2" = "node2".
Proof.
  split; [reflexivity|].
  apply (splitFlagInput_items_clean " node1 , node2" "," ["node1"; "node2"] "node2").
  - right. split; reflexivity.
  - right. by left.
Defined.

Lemma splitFlagInput_blank_item_witness :
  parseNodeIds (Some "  ") = inr [""] ∧ parseNodeIds (Some "") = inr [].
Proof.
  destruct (splitFlagInput_blank_item "  " ",") as (_ & Hempty & Hblank);
    [reflexivity | discriminate | reflexivity |].
  split; [by apply Hblank | exact Hempty].
Defined.

Lemma getEnvValue_first_match_witness :
  getEnvValue ["A=1"; "FOO=bar=baz"; "FOO=2"] "FOO" = js_string "bar".
Proof.
  apply (proj1 (getEnvValue_first_match ["A=1"] ["FOO=2"] "FOO" "bar=baz" eq_refl
                  ltac:(intros entry ->%list_elem_of_singleton; reflexivity))).
Defined.

Lemma parseIpAddressToUint8Array_roundtrip_witness :
  parseIpAddressToUint8Array "192.168.1.10" = [192; 168; 1; 10]%N.
Proof.
  apply (parseIpAddressToUint8Array_roundtrip 192 168 1 10); reflexivity.
Defined.

Lemma parseIpAddressToUint8Array_wraps_witness :
  parseIpAddressToUint8Array "300.1" = [44; 1; 0; 0]%N.
Proof.
  apply (proj1 (parseIpAddressToUint8Array_wraps [300; 1]%N
                  ltac:(intros n Hn;
                        repeat (apply elem_of_cons in Hn as [->|Hn]; [by vm_compute|]);
                        by apply elem_of_nil in Hn))).
Defined.

Lemma generatePrivatePfxKeys_atomic_witness :
  ∃ w',
    @generatePrivatePfxKeys sample_constants (Some sample_keytool) "node2" "keys" "tmp"
      sample_key_world = (w', inr "keys/private-node2.pfx") ∧
    w_fs w' !! "keys/private-node2.pfx" = w_fs w' !! "tmp/private-node2.pfx" ∧
    w_trace w' =
      privatePfx_events "node2" "tmp/private-node2.pfx" ++
      [EvWriteFile "keys/private-node2.pfx"].
Proof.
  pose proof (@generatePrivatePfxKeys_atomic sample_constants sample_keytool "node2"
                "keys" "tmp" sample_key_world) as Hthm.
  cbn zeta in Hthm.
  destruct (@generatePrivatePfxKeys sample_constants (Some sample_keytool) "node2" "keys"
              "tmp" sample_key_world) as [w' [e|p]] eqn:Hrun.
  { vm_compute in Hrun. discriminate Hrun. }
  destruct Hthm as (-> & (data & Htmp & Hpfx) & Htrace).
  - intros Hin. vm_compute in Hin.
    repeat (apply elem_of_cons in Hin as [Heq|Hin]; [discriminate Heq|]).
    by apply elem_of_nil in Hin.
  - reflexivity.
  - exists w'. split; [done|]. split; [|exact Htrace].
    etrans; [exact Hpfx | symmetry; exact Htmp].
Defined.

Lemma key_file_paths_distinct_witness :
  ∃ s1 a1 t1 s2 a2 t2,
    prepareNodeKeyFilePaths "node1" "keys" (Some SIGNING_KEY_PREFIX) sample_world =
      (sample_world, inr s1) ∧
    prepareNodeKeyFilePaths "node1" "keys" (Some AGREEMENT_KEY_PREFIX) sample_world =
      (sample_world, inr a1) ∧
    prepareTLSKeyFilePaths "node1" "keys" sample_world = (sample_world, inr t1) ∧
    prepareNodeKeyFilePaths "node2" "keys" (Some SIGNING_KEY_PREFIX) sample_world =
      (sample_world, inr s2) ∧
    prepareNodeKeyFilePaths "node2" "keys" (Some AGREEMENT_KEY_PREFIX) sample_world =
      (sample_world, inr a2) ∧
    prepareTLSKeyFilePaths "node2" "keys" sample_world = (sample_world, inr t2) ∧
    NoDup (key_paths s1 ++ key_paths a1 ++ key_paths t1 ++
           key_paths s2 ++ key_paths a2 ++ key_paths t2).
Proof.
  apply (key_file_paths_distinct "node1" "node2" "keys" sample_world);
    first [discriminate | reflexivity].
Defined.

Lemma updatePublicPfxKey_no_nodes_witness :
  (@updatePublicPfxKey sample_constants (Some sample_keytool) (Some []) "keys" "tmp"
     sample_stale_world).2 = inr "keys/public.pfx" ∧
  w_fs (@updatePublicPfxKey sample_constants (Some sample_keytool) (Some []) "keys" "tmp"
          sample_stale_world).1 !! "keys/public.pfx" =
    Some (File [RawChunk "public store of an earlier run"]).
Proof.
  pose proof (@updatePublicPfxKey_no_nodes sample_constants sample_keytool "keys" "tmp"
                sample_stale_world) as Hthm.
  cbn zeta in Hthm.
  specialize (Hthm ltac:(discriminate) ltac:(by eexists) ltac:(discriminate)
                ltac:(by vm_compute) ltac:(by vm_compute)).
  vm_compute in Hthm. vm_compute. exact Hthm.
Defined.
